(** * tfkeras_image_classification: the directory dataset loader and the
      dataset-selection stage of the training driver.

    Shallow embedding of [original_dataset_loader.py] and of lines 25-59 of
    [scripts/train.py].

    Conventions of the embedding.
    - A Python [float] is an IEEE binary64 value, taken from the Standard
      Library's [SpecFloat] with [prec = 53] and [emax = 1024].
    - A path is the list of its components (pathlib's [parts]); [str(path)]
      followed by [pathlib.Path(...)] is the identity on such a list.
    - The data root is given by its listing: the entries directly under it,
      in the order in which the filesystem enumerates them, each directory
      carrying the names of its own entries in enumeration order.
    - A [tf.data.Dataset] is the list of its elements; [take], [skip],
      [zip], [map] and [from_tensor_slices] are the corresponding list
      operations, [prefetch] is the identity.  A decoded image is kept
      symbolically (its path and the requested shape).
    - Python objects that are shared by reference (the [_info] dictionary)
      live in a heap of dictionaries, addressed by locations. *)

From Stdlib Require Import ZArith List Lia Bool.
From Stdlib Require Import Floats.SpecFloat.
From stdpp Require Import base tactics option list gmap sets strings sorting pretty.

Local Open Scope Z_scope.

(** ** Exceptions and fallible computations *)

Inductive exn :=
| KeyError (key : string)
| TypeError (msg : string)
| ValueError (msg : string)
| OverflowError (msg : string)
| AssertionError (msg : string).

Inductive result (A : Type) :=
| Ok (a : A)
| Raise (e : exn).
Arguments Ok {A} a.
Arguments Raise {A} e.

Global Instance result_bind : MBind result := λ A B k r,
  match r with
  | Ok a => k a
  | Raise e => Raise e
  end.
Global Instance result_ret : MRet result := λ A a, Ok a.

Definition succeeds {A} (r : result A) : Prop :=
  match r with Ok _ => True | Raise _ => False end.

(** A list comprehension whose body may raise: the first failure aborts. *)
Fixpoint comprehension {A B} (f : A → result B) (l : list A) : result (list B) :=
  match l with
  | [] => Ok []
  | x :: l' => y ← f x; ys ← comprehension f l'; Ok (y :: ys)
  end.

(** ** Python floats (binary64) *)

Module Float.
Definition prec : Z := 53.
Definition emax : Z := 1024.

Definition float := spec_float.

Definition mul : float → float → float := SFmul prec emax.
Definition sub : float → float → float := SFsub prec emax.
Definition leb : float → float → bool := SFleb.
Definition ltb : float → float → bool := SFltb.

(** [float(n)] for a Python int: correctly rounded, [OverflowError] when
    the integer is beyond the range of a double. *)
Definition of_int (n : Z) : result float :=
  match binary_normalize prec emax n 0 false with
  | S754_infinity _ => Raise (OverflowError "int too large to convert to float")
  | x => Ok x
  end.

(** [int(x)]: truncation toward zero; NaN and the infinities raise. *)
Definition to_int (x : float) : result Z :=
  match x with
  | S754_nan => Raise (ValueError "cannot convert float NaN to integer")
  | S754_infinity _ => Raise (OverflowError "cannot convert float infinity to integer")
  | S754_zero _ => Ok 0
  | S754_finite s m e =>
      Ok (cond_Zopp s (if 0 <=? e then Z.pos m * 2 ^ e else Z.pos m / 2 ^ (- e)))
  end.

(** Mathematical floor of a finite float. *)
Definition floor (x : float) : Z :=
  match x with
  | S754_finite s m e =>
      if 0 <=? e then cond_Zopp s (Z.pos m) * 2 ^ e
      else cond_Zopp s (Z.pos m) / 2 ^ (- e)
  | _ => 0
  end.

Definition is_finite (x : float) : bool :=
  match x with
  | S754_zero _ | S754_finite _ _ _ => true
  | _ => false
  end.

(** A value that a Python float can hold: canonical mantissa and exponent
    in range. *)
Definition valid (x : float) : bool := valid_binary prec emax x.

(** [n * x] and [x * n], [n - x] for a Python int [n] and float [x]. *)
Definition int_mul (n : Z) (x : float) : result float :=
  fn ← of_int n; Ok (mul fn x).
Definition mul_int (x : float) (n : Z) : result float :=
  fn ← of_int n; Ok (mul x fn).
Definition int_sub (n : Z) (x : float) : result float :=
  fn ← of_int n; Ok (sub fn x).

(** Literals. *)
Definition one : float := S754_finite false 4503599627370496 (-52).
Definition half : float := S754_finite false 4503599627370496 (-53).
Definition two : float := S754_finite false 4503599627370496 (-51).
Definition zero : float := S754_zero false.
(** 0.2, the default of [--valid_per_train]. *)
Definition f0_2 : float := S754_finite false 7205759403792794 (-55).
(** 0.67 *)
Definition f0_67 : float := S754_finite false 6034823500676465 (-53).
(** -0.5 *)
Definition neg_half : float := S754_finite true 4503599627370496 (-53).
(** 1 / 3, rounded to the nearest float. *)
Definition third : float := S754_finite false 6004799503160661 (-54).
Definition nan : float := S754_nan.
End Float.

(** Quantities used to state facts about floats: the magnitude of a float
    in units of [2 ^ (- K)], its sign bit, a range for its exponent, and the
    float 100.0. *)
Definition mag (K : Z) (x : spec_float) : Z :=
  match x with
  | S754_finite _ m e => Z.pos m * 2 ^ (e + K)
  | _ => 0
  end.

Definition sign (x : spec_float) : bool :=
  match x with
  | S754_zero s | S754_infinity s | S754_finite s _ _ => s
  | S754_nan => false
  end.

(** The exponent of a float is at least [lo] and below [hi]. *)
Definition exponent_in (lo hi : Z) (x : spec_float) : Prop :=
  match x with
  | S754_finite _ _ e => lo ≤ e < hi
  | _ => True
  end.

Definition hundred : spec_float := S754_finite false 7036874417766400 (-46).

(** [floor(N * f)] as the specification writes it: [N * f] is the product
    of the integer [N] and the number the float [f] stands for,
    [±m · 2^e], taken exactly; [ceil_exact_product] is the ceiling of the
    same product. *)
Definition floor_exact_product (N : Z) (f : Float.float) : Z :=
  match f with
  | S754_finite s m e =>
      if 0 <=? e then N * cond_Zopp s (Z.pos m) * 2 ^ e
      else (N * cond_Zopp s (Z.pos m)) / 2 ^ (- e)
  | _ => 0
  end.

Definition ceil_exact_product (N : Z) (f : Float.float) : Z :=
  - floor_exact_product (- N) f.


(** ** Paths and the directory under the data root *)

(** A path, as the list of its components. *)
Abbreviation path := (list string).

(** [pathlib.PurePath.parent] and [pathlib.PurePath.name]. *)
Definition parent (p : path) : path := removelast p.
Definition name (p : path) : string := List.last p "".

(** [pathlib.Path(s)] on a POSIX system: the components between
    separators, without the empty ones and the single dots, after the root
    (["/"], or ["//"] for exactly two leading separators) if there is one. *)
Fixpoint split_sep (cur s : string) : list string :=
  match s with
  | EmptyString => [cur]
  | String c s' =>
      if Ascii.eqb c (Ascii.ascii_of_nat 47) then cur :: split_sep "" s'
      else split_sep (cur +:+ String c "") s'
  end.

Definition Path (s : string) : path :=
  let parts := filter (λ c, c ≠ "" ∧ c ≠ ".") (split_sep "" s) in
  if String.prefix "///" s then "/" :: parts
  else if String.prefix "//" s then "//" :: parts
  else if String.prefix "/" s then "/" :: parts
  else parts.

(** An entry directly under the data root. *)
Inductive entry :=
| File (entry_name : string)
| Dir (entry_name : string) (children : list string).

Definition entry_name (e : entry) : string :=
  match e with File n | Dir n _ => n end.

Definition is_dir (e : entry) : bool :=
  match e with Dir _ _ => true | File _ => false end.

(** The entries under the data root, in the filesystem's enumeration order
    (empty when the root does not exist). *)
Abbreviation listing := (list entry).

(** The names of the directories directly under the root, in enumeration
    order. *)
Definition dir_names (fs : listing) : list string :=
  entry_name <$> filter (λ e, is_dir e) fs.

(** [root.glob('*/*')]: every entry two levels below the root, whatever its
    type, directory by directory in enumeration order. *)
Definition glob_star_star (root : path) (fs : listing) : list path :=
  e ← fs;
  match e with
  | Dir d children => (λ c, root ++ [d; c]) <$> children
  | File _ => []
  end.

(** [root.glob('*/')]: the entries directly below the root. Before Python
    3.11 the trailing separator does not restrict the match to directories,
    which is why the caller filters with [is_dir()]. *)
Definition glob_star_slash (root : path) (fs : listing) : list (path * entry) :=
  (λ e, (root ++ [entry_name e], e)) <$> fs.

(** A directory under the root that holds at least one entry. *)
Definition has_entries (e : entry) : bool :=
  match e with
  | Dir _ (_ :: _) => true
  | _ => false
  end.

(** ** Python built-ins used by the loader *)

(** [sorted] on strings: ascending, by code point. Two sorted permutations
    of the same strings are equal, so the algorithm is immaterial. *)
Definition sorted (l : list string) : list string := merge_sort String.le l.

(** [enumerate(l)] as (index, item) pairs. *)
Definition enumerate {A} (l : list A) : list (Z * A) :=
  imap (λ i x, (Z.of_nat i, x)) l.

(** [dict(pairs)]: pairs are inserted left to right, a later pair
    overwriting an earlier one with the same key. *)
Definition dict {V} (pairs : list (string * V)) : gmap string V :=
  foldl (λ d kv, <[kv.1 := kv.2]> d) ∅ pairs.

(** [d[k]] *)
Definition getitem {V} (d : gmap string V) (k : string) : result V :=
  match d !! k with
  | Some v => Ok v
  | None => Raise (KeyError k)
  end.

(** [len(set(l))] for a list of ints. *)
Definition len_set (l : list Z) : Z :=
  Z.of_nat (size (list_to_set l : gset Z)).

(** ** tf.data datasets as lists *)

Module Dataset.
(** [Dataset.take(count)]: the whole dataset when [count] is negative or
    exceeds its size. *)
Definition take {A} (count : Z) (ds : list A) : list A :=
  if count <? 0 then ds else firstn (Z.to_nat count) ds.

(** [Dataset.skip(count)]: nothing is left when [count] is negative or
    exceeds the size. *)
Definition skip {A} (count : Z) (ds : list A) : list A :=
  if count <? 0 then [] else skipn (Z.to_nat count) ds.

(** [Dataset.zip((a, b)).map(f)]: stops with the shorter dataset. *)
Definition zip_map {A B C} (f : A → B → C) (a : list A) (b : list B) : list C :=
  zip_with f a b.
End Dataset.

(** The tensor produced by [_preprocess_image]: the file at [source]
    decoded with [channels] channels and resized to [height] x [width]. *)
Record image_tensor := {
  source : path;
  height : Z;
  width : Z;
  channels : Z;
}.

(** An element of the datasets returned by [load]:
    [{"image": x, "label": y}]. *)
Record example := {
  image : image_tensor;
  label : Z;
}.

Abbreviation dataset := (list example).

(** ** The heap of dictionaries *)

Abbreviation loc := positive.
Abbreviation heap := (gmap loc (gmap string Z)).

Module Heap.
(** The dictionary stored at a location. *)
Definition deref (h : heap) (l : loc) : gmap string Z := default ∅ (h !! l).

(** Allocation of a new dictionary object. *)
Definition alloc (h : heap) (d : gmap string Z) : loc * heap :=
  let l := fresh (dom h) in (l, <[l := d]> h).

(** [d.update({k: v})] on the object at [l]. *)
Definition update (h : heap) (l : loc) (k : string) (v : Z) : heap :=
  <[l := <[k := v]> (deref h l)]> h.

(** Any in-place mutation of the object at [l] ([d[k] = v], [del d[k]],
    [d.clear()], ...): its items become [d]. *)
Definition mutate (h : heap) (l : loc) (d : gmap string Z) : heap := <[l := d]> h.

(** [d.copy()]: a new object with the same items. *)
Definition copy (h : heap) (l : loc) : loc * heap := alloc h (deref h l).
End Heap.

(** ** OriginalDatasetLoader *)

Record OriginalDatasetLoader := {
  _data_root : path;
  _image_paths : list path;
  _num_train_images : Z;
  _info : loc;
}.

(** [OriginalDatasetLoader.__init__] (the body; argument binding is
    [new_OriginalDatasetLoader] below). [fs] is the directory under
    [dataset_path] at the time of the call. *)
Definition __init__ (dataset_path : string) (valid_per_train : Float.float)
    (hight_size width_size channel_size : Z) (fs : listing) (h : heap)
  : result (OriginalDatasetLoader * heap) :=
  let data_root := Path dataset_path in
  let image_paths := glob_star_star data_root fs in
  let num_images := Z.of_nat (length image_paths) in
  product ← Float.int_mul num_images valid_per_train;
  num_train_images ← Float.to_int product;
  let '(info, h) := Heap.alloc h ∅ in
  let h := Heap.update h info "hight_size" hight_size in
  let h := Heap.update h info "width_size" width_size in
  let h := Heap.update h info "channel_size" channel_size in
  Ok ({| _data_root := data_root;
         _image_paths := image_paths;
         _num_train_images := num_train_images;
         _info := info |}, h).

(** The element type of [tf.data.Dataset.from_tensor_slices] on a Python
    list of [str]: the list is converted to a tensor first, and an empty
    list converts to a [float32] tensor of shape [(0,)]. *)
Inductive dtype := tf_string | tf_float32.

Definition from_tensor_slices_dtype (paths : list path) : dtype :=
  match paths with
  | [] => tf_float32
  | _ :: _ => tf_string
  end.

(** [tf.io.read_file] inside a traced function: the file name must be a
    string tensor. *)
Definition tf_io_read_file (filename : dtype) : result unit :=
  match filename with
  | tf_string => Ok ()
  | tf_float32 =>
      Raise (TypeError ("Input 'filename' of 'ReadFile' Op has type float32 " +:+
                        "that does not match expected type of string."))
  end.

(** [_preprocess_image], as [Dataset.map] traces it once, when the dataset
    is built, on a placeholder of the dataset's element type: the call of
    [tf.io.read_file] and then the three dictionary reads are done at that
    time. *)
Definition _preprocess_image (self : OriginalDatasetLoader) (h : heap)
    (image_path : dtype) : result (path → image_tensor) :=
  _ ← tf_io_read_file image_path;
  let info := Heap.deref h (_info self) in
  channel_size ← getitem info "channel_size";
  hight_size ← getitem info "hight_size";
  width_size ← getitem info "width_size";
  Ok (λ image_path, {| source := image_path; height := hight_size;
                       width := width_size; channels := channel_size |}).

Definition _load_image_ds (self : OriginalDatasetLoader) (h : heap)
  : result (list image_tensor * list image_tensor) :=
  let path_ds := _image_paths self in
  preprocess ← _preprocess_image self h (from_tensor_slices_dtype path_ds);
  let image_ds := preprocess <$> path_ds in
  let train_image_ds := Dataset.take (_num_train_images self) image_ds in
  let valid_image_ds := Dataset.skip (_num_train_images self) image_ds in
  Ok (train_image_ds, valid_image_ds).

(** The first three statements of [_load_label_ds]. *)
Definition label_names (self : OriginalDatasetLoader) (fs : listing) : list string :=
  sorted ((λ item, name item.1) <$>
          filter (λ item, is_dir item.2) (glob_star_slash (_data_root self) fs)).

Definition label_to_index (self : OriginalDatasetLoader) (fs : listing) : gmap string Z :=
  dict ((λ '(index, name), (name, index)) <$> enumerate (label_names self fs)).

Definition image_labels (self : OriginalDatasetLoader) (fs : listing) : result (list Z) :=
  comprehension (λ path, getitem (label_to_index self fs) (name (parent path)))
                (_image_paths self).

(** [_load_label_ds]; [fs] is the directory under the data root at the time
    of the call. *)
Definition _load_label_ds (self : OriginalDatasetLoader) (fs : listing) (h : heap)
  : result ((list Z * list Z) * heap) :=
  image_labels ← image_labels self fs;
  let label_ds := image_labels in
  let train_label_ds := Dataset.take (_num_train_images self) label_ds in
  let valid_label_ds := Dataset.skip (_num_train_images self) label_ds in
  let h := Heap.update h (_info self) "num_classes" (len_set image_labels) in
  Ok ((train_label_ds, valid_label_ds), h).

(** [load]: the two datasets and the location of the returned copy of
    [_info]. *)
Definition load (self : OriginalDatasetLoader) (fs : listing) (h : heap)
  : result (((dataset * dataset) * loc) * heap) :=
  '(train_image_ds, valid_image_ds) ← _load_image_ds self h;
  '((train_label_ds, valid_label_ds), h) ← _load_label_ds self fs h;
  let train_dataset := Dataset.zip_map Build_example train_image_ds train_label_ds in
  let valid_dataset := Dataset.zip_map Build_example valid_image_ds valid_label_ds in
  let '(info, h) := Heap.copy h (_info self) in
  Ok (((train_dataset, valid_dataset), info), h).

(** The whole dataset before the split: every enumerated image, decoded
    to the given shape, with its label. *)
Definition unsplit (self : OriginalDatasetLoader) (hight_size width_size channel_size : Z)
    (labels : list Z) : dataset :=
  Dataset.zip_map Build_example
    ((λ image_path, {| source := image_path; height := hight_size;
                       width := width_size; channels := channel_size |})
       <$> _image_paths self)
    labels.

(** The dictionary [__init__] leaves in [_info]. *)
Definition initial_info (hight_size width_size channel_size : Z) : gmap string Z :=
  <["channel_size" := channel_size]>
    (<["width_size" := width_size]> (<["hight_size" := hight_size]> ∅)).

(** Example trees: the two-class tree of the specification, in an
    enumeration order that is not alphabetical, and the same tree with a
    stray file and a label directory without images. *)
Definition catsdogs : listing :=
  [Dir "dog" ["c.jpg"]; Dir "cat" ["a.jpg"; "b.jpg"]].

Definition catsdogs_emu : listing :=
  [Dir "dog" ["c.jpg"]; File "README"; Dir "cat" ["a.jpg"; "b.jpg"]; Dir "emu" []].

(** The loader constructed on [catsdogs] with fraction 0.67 and the default
    sizes, and the heap after its construction. *)
Definition catsdogs_loader : OriginalDatasetLoader :=
  {| _data_root := ["catsdogs"];
     _image_paths := [["catsdogs"; "dog"; "c.jpg"];
                      ["catsdogs"; "cat"; "a.jpg"];
                      ["catsdogs"; "cat"; "b.jpg"]];
     _num_train_images := 2;
     _info := 1%positive |}.

Definition catsdogs_heap : heap :=
  {[ 1%positive := initial_info 256 256 3 ]}.

(** Two of the examples [load] returns for [catsdogs_loader], and the heap
    after that call. *)
Definition cat_a : example :=
  {| image := {| source := ["catsdogs"; "cat"; "a.jpg"]; height := 256; width := 256;
                 channels := 3 |};
     label := 0 |}.
Definition cat_b : example :=
  {| image := {| source := ["catsdogs"; "cat"; "b.jpg"]; height := 256; width := 256;
                 channels := 3 |};
     label := 0 |}.
Definition catsdogs_loaded : heap :=
  <[2%positive := <["num_classes" := 2]> (initial_info 256 256 3)]>
    (Heap.update catsdogs_heap 1%positive "num_classes" 2).

(** ** Calls with positional and keyword arguments *)

Inductive value :=
| Int (z : Z)
| Flt (x : Float.float)
| Str (s : string).

(** A parameter and its default value, if it has one. *)
Definition parameter : Type := string * option value.

(** Binding of the arguments of a call to the parameters of [func]:
    positional arguments fill the parameters from the left, every keyword
    must name a parameter that is not bound yet, and the parameters left
    unbound take their defaults. *)
Fixpoint bind_positional (func : string) (params : list parameter) (args : list value)
  : result (gmap string value) :=
  match args, params with
  | [], _ => Ok ∅
  | _ :: _, [] =>
      Raise (TypeError (func +:+ "() takes fewer positional arguments than were given"))
  | a :: args', (p, _) :: params' =>
      bound ← bind_positional func params' args';
      Ok (<[p := a]> bound)
  end.

Fixpoint bind_keywords (func : string) (params : list parameter)
    (kwargs : list (string * value)) (bound : gmap string value)
  : result (gmap string value) :=
  match kwargs with
  | [] => Ok bound
  | (k, v) :: kwargs' =>
      if bool_decide (k ∈ params.*1) then
        if bool_decide (is_Some (bound !! k)) then
          Raise (TypeError (func +:+ "() got multiple values for argument '" +:+ k +:+ "'"))
        else bind_keywords func params kwargs' (<[k := v]> bound)
      else
        Raise (TypeError (func +:+ "() got an unexpected keyword argument '" +:+ k +:+ "'"))
  end.

Fixpoint bind_defaults (func : string) (params : list parameter)
    (bound : gmap string value) : result (gmap string value) :=
  match params with
  | [] => Ok bound
  | (p, d) :: params' =>
      match bound !! p, d with
      | Some _, _ => bind_defaults func params' bound
      | None, Some v => bind_defaults func params' (<[p := v]> bound)
      | None, None =>
          Raise (TypeError (func +:+ "() missing a required positional argument: '" +:+ p +:+ "'"))
      end
  end.

Definition bind_arguments (func : string) (params : list parameter)
    (args : list value) (kwargs : list (string * value)) : result (gmap string value) :=
  bound ← bind_positional func params args;
  bound ← bind_keywords func params kwargs bound;
  bind_defaults func params bound.

(** The parameters of [OriginalDatasetLoader.__init__] after [self]. *)
Definition __init___parameters : list parameter :=
  [("dataset_path", None);
   ("valid_per_train", None);
   ("hight_size", Some (Int 256));
   ("width_size", Some (Int 256));
   ("channel_size", Some (Int 3))].

(** The argument types the driver uses; a value of another type is
    rejected here. *)
Definition as_str (v : value) : result string :=
  match v with Str s => Ok s | _ => Raise (TypeError "expected str") end.
Definition as_float (v : value) : result Float.float :=
  match v with Flt x => Ok x | _ => Raise (TypeError "expected float") end.
Definition as_int (v : value) : result Z :=
  match v with Int z => Ok z | _ => Raise (TypeError "expected int") end.

(** A call of the class [OriginalDatasetLoader] with the given positional
    and keyword arguments. *)
Definition new_OriginalDatasetLoader (args : list value) (kwargs : list (string * value))
    (fs : listing) (h : heap) : result (OriginalDatasetLoader * heap) :=
  bound ← bind_arguments "__init__" __init___parameters args kwargs;
  dataset_path ← getitem bound "dataset_path" ≫= as_str;
  valid_per_train ← getitem bound "valid_per_train" ≫= as_float;
  hight_size ← getitem bound "hight_size" ≫= as_int;
  width_size ← getitem bound "width_size" ≫= as_int;
  channel_size ← getitem bound "channel_size" ≫= as_int;
  __init__ dataset_path valid_per_train hight_size width_size channel_size fs h.

(** ** The training driver, up to the loading of the dataset *)

(** [os.path.join] on a POSIX system. *)
Definition os_path_join (a : string) (rest : list string) : string :=
  foldl (λ path b,
           if String.prefix "/" b then b
           else if bool_decide (path = "") then b
           else if String.prefix "/" (String.rev path) then path +:+ b
           else path +:+ "/" +:+ b)
        a rest.

(** Truth value of an optional command-line string: [None] and the empty
    string are false. *)
Definition truthy (s : option string) : bool :=
  match s with
  | Some s => bool_decide (s ≠ "")
  | None => false
  end.

(** The calls made to the two dataset sources. *)
Inductive event :=
| tfds_load (name : string) (split : list string)
| OriginalDatasetLoader_call (args : list value) (kwargs : list (string * value))
| OriginalDatasetLoader_load.

(** What the driver holds after line 59. For a named dataset the datasets
    and their description come from the catalogue and are not modelled. *)
Inductive loaded :=
| from_catalogue (name : string) (split : list string)
| from_directory (train_dataset valid_dataset : dataset)
                 (hight_size width_size channel_size num_classes : Z).

(** [int((1 - valid_per_train) * 100)] *)
Definition train_ratio (valid_per_train : Float.float) : result Z :=
  train_fraction ← Float.int_sub 1 valid_per_train;
  train_percent ← Float.mul_int train_fraction 100;
  Float.to_int train_percent.

(** Lines 25-59 of [main]: the calls made, in order, and the outcome.
    [exe_dir] is the directory of the script, [fs] the directory under
    [original_dataset_path]. *)
Definition main (exe_dir : string) (dataset_name original_dataset_path : option string)
    (valid_per_train : Float.float) (model_type : string) (fs : listing)
  : list event * result loaded :=
  let output_model_dir := os_path_join exe_dir [".."; "models"] in
  match train_ratio valid_per_train with
  | Raise e => ([], Raise e)
  | Ok train_ratio =>
      if truthy dataset_name then
        let name := default "" dataset_name in
        let split := ["train[:" +:+ pretty train_ratio +:+ "%]";
                      "train[" +:+ pretty train_ratio +:+ "%:]"] in
        ([tfds_load name split], Ok (from_catalogue name split))
      else if truthy original_dataset_path then
        let args := [Str (default "" original_dataset_path); Flt valid_per_train] in
        let kwargs :=
          [("output_label_dict_path",
            Str (os_path_join output_model_dir [model_type +:+ "_label_dict.csv"]))] in
        match new_OriginalDatasetLoader args kwargs fs ∅ with
        | Raise e => ([OriginalDatasetLoader_call args kwargs], Raise e)
        | Ok (ds_loader, h) =>
            ([OriginalDatasetLoader_call args kwargs; OriginalDatasetLoader_load],
             '(((train_dataset, valid_dataset), info), h) ← load ds_loader fs h;
             let info := Heap.deref h info in
             hight_size ← getitem info "hight_size";
             width_size ← getitem info "width_size";
             channel_size ← getitem info "channel_size";
             num_classes ← getitem info "num_classes";
             Ok (from_directory train_dataset valid_dataset
                                hight_size width_size channel_size num_classes))
        end
      else ([], Raise (AssertionError "The dataset is not specified correctly."))
  end.

(** * Properties *)

(** ** Fallible computations *)

Lemma bind_Ok {A B} (r : result A) (k : A → result B) b :
  r ≫= k = Ok b ↔ ∃ a, r = Ok a ∧ k a = Ok b.
Proof.
  destruct r as [a|e]; simpl; split.
  - intros Hk. by exists a.
  - by intros (a' & [= <-] & Hk).
  - done.
  - by intros (a' & [=] & _).
Qed.

Global Instance Ok_inj {A} : Inj (=) (=) (@Ok A).
Proof. intros x y Heq. by injection Heq. Qed.

Lemma getitem_Ok {V} (d : gmap string V) k v : getitem d k = Ok v ↔ d !! k = Some v.
Proof. unfold getitem. destruct (d !! k); split; intros [=]; by subst. Qed.

Lemma getitem_Raise {V} (d : gmap string V) k e :
  getitem d k = Raise e ↔ d !! k = None ∧ e = KeyError k.
Proof. unfold getitem. destruct (d !! k); split; try intros [[=] ?]; try intros [=]; by subst. Qed.

Lemma comprehension_Ok {A B} (f : A → result B) l ys :
  comprehension f l = Ok ys ↔ Forall2 (λ x y, f x = Ok y) l ys.
Proof.
  revert ys. induction l as [|x l IH]; intros ys; simpl.
  - split; [intros [= <-]; constructor | by inversion 1].
  - split.
    + intros (y & Hy & (ys' & Hys & [= <-])%bind_Ok)%bind_Ok.
      constructor; [done | by apply IH].
    + inversion 1 as [|? y ? ys' Hy Hys]; subst.
      rewrite Hy. simpl. apply IH in Hys. by rewrite Hys.
Qed.

Lemma comprehension_Raise_first {A B} (f : A → result B) l e :
  comprehension f l = Raise e →
  ∃ l1 x l2, l = l1 ++ x :: l2 ∧ Forall (λ x, succeeds (f x)) l1 ∧ f x = Raise e.
Proof.
  induction l as [|x l IH]; simpl; [done|].
  destruct (f x) as [y|e'] eqn:Hx; simpl.
  - destruct (comprehension f l) as [ys|e'] eqn:Hl; simpl; [done|].
    intros [= ->]. destruct IH as (l1 & x' & l2 & -> & Hl1 & Hx'); [done|].
    exists (x :: l1), x', l2. split_and!; [done| |done].
    constructor; [by rewrite Hx | done].
  - intros [= ->]. exists [], x, l. by split_and!.
Qed.

Lemma comprehension_Raise_at {A B} (f : A → result B) l1 x l2 e :
  Forall (λ x, succeeds (f x)) l1 → f x = Raise e →
  comprehension f (l1 ++ x :: l2) = Raise e.
Proof.
  intros Hl1 Hx. induction Hl1 as [|x' l1 Hx' _ IH]; simpl.
  - by rewrite Hx.
  - destruct (f x'); [simpl|done]. by rewrite IH.
Qed.

(** ** The heap *)

Lemma deref_update h l k v : Heap.deref (Heap.update h l k v) l = <[k := v]> (Heap.deref h l).
Proof. unfold Heap.update, Heap.deref at 1. by rewrite lookup_insert_eq. Qed.

Lemma deref_update_ne h l l' k v :
  l ≠ l' → Heap.deref (Heap.update h l k v) l' = Heap.deref h l'.
Proof. intros. unfold Heap.update, Heap.deref. by rewrite lookup_insert_ne. Qed.

Lemma deref_mutate_ne h l l' d :
  l ≠ l' → Heap.deref (Heap.mutate h l d) l' = Heap.deref h l'.
Proof. intros. unfold Heap.mutate, Heap.deref. by rewrite lookup_insert_ne. Qed.

Lemma dom_update h l k v : dom (Heap.update h l k v) = {[l]} ∪ dom h.
Proof. unfold Heap.update. by rewrite dom_insert_L. Qed.

Lemma alloc_spec h d l h' :
  Heap.alloc h d = (l, h') →
  (l ∉ dom h) ∧ h' = (<[l := d]> h) ∧ Heap.deref h' l = d ∧
  ∀ l', l' ∈ dom h → Heap.deref h' l' = Heap.deref h l'.
Proof.
  intros [= <- <-]. pose proof (is_fresh (dom h)) as Hfresh.
  split_and!; [done..| |].
  - unfold Heap.deref. by rewrite lookup_insert_eq.
  - intros l' Hl'. unfold Heap.deref. rewrite lookup_insert_ne; [done|].
    intros <-. done.
Qed.

(** ** Dictionaries built from pairs *)

Lemma dict_snoc {V} (pairs : list (string * V)) k v :
  dict (pairs ++ [(k, v)]) = <[k := v]> (dict pairs).
Proof. unfold dict. by rewrite foldl_app. Qed.

Lemma dict_lookup_Some {V} (pairs : list (string * V)) k v :
  dict pairs !! k = Some v → (k, v) ∈ pairs.
Proof.
  induction pairs as [|[k' v'] pairs IH] using rev_ind; [done|].
  rewrite dict_snoc, elem_of_app, list_elem_of_singleton.
  destruct (decide (k' = k)) as [->|].
  - rewrite lookup_insert_eq. intros [= ->]. by right.
  - rewrite lookup_insert_ne by done. auto.
Qed.

Lemma dict_lookup_is_Some {V} (pairs : list (string * V)) k :
  is_Some (dict pairs !! k) ↔ k ∈ pairs.*1.
Proof.
  induction pairs as [|[k' v'] pairs IH] using rev_ind.
  - unfold dict. simpl. rewrite lookup_empty, elem_of_nil. split; [by intros []|done].
  - rewrite dict_snoc, fmap_app, elem_of_app. simpl. rewrite list_elem_of_singleton.
    destruct (decide (k' = k)) as [->|].
    + rewrite lookup_insert_eq. split; [by right | by eexists].
    + rewrite lookup_insert_ne by done. rewrite IH. split; [by left | by intros [?|?]].
Qed.

Lemma dict_lookup_NoDup {V} (pairs : list (string * V)) k v :
  NoDup pairs.*1 → (k, v) ∈ pairs → dict pairs !! k = Some v.
Proof.
  induction pairs as [|[k' v'] pairs IH] using rev_ind; [by rewrite elem_of_nil|].
  rewrite fmap_app, NoDup_app, dict_snoc, elem_of_app, list_elem_of_singleton. simpl.
  intros (Hnd & Hdisj & _) [Hin|[= -> ->]].
  - rewrite lookup_insert_ne; [by apply IH|].
    intros ->. apply (Hdisj k); [|by left].
    apply list_elem_of_fmap. by exists (k, v).
  - by rewrite lookup_insert_eq.
Qed.

(** ** Paths produced by the two globs *)

Lemma name_snoc (root : path) n : name (root ++ [n]) = n.
Proof. unfold name. apply last_last. Qed.

Lemma parent_snoc (root : path) n : parent (root ++ [n]) = root.
Proof. unfold parent. apply removelast_last. Qed.

Lemma parent_name_image (root : path) d c : name (parent (root ++ [d; c])) = d.
Proof.
  replace (root ++ [d; c]) with ((root ++ [d]) ++ [c]) by (by rewrite <- app_assoc).
  by rewrite parent_snoc, name_snoc.
Qed.

Lemma elem_of_glob_star_star (root : path) fs p :
  p ∈ glob_star_star root fs ↔ ∃ d children c, Dir d children ∈ fs ∧ c ∈ children ∧ p = root ++ [d; c].
Proof.
  unfold glob_star_star. rewrite list_elem_of_bind. split.
  - intros ([n|d children] & Hp & He); [by apply elem_of_nil in Hp|].
    apply list_elem_of_fmap in Hp as (c & -> & Hc). eauto 6.
  - intros (d & children & c & He & Hc & ->). exists (Dir d children). split; [|done].
    apply list_elem_of_fmap. eauto.
Qed.

Lemma elem_of_dir_names fs n : n ∈ dir_names fs ↔ ∃ children, Dir n children ∈ fs.
Proof.
  unfold dir_names. rewrite list_elem_of_fmap. split.
  - intros ([n'|d children] & -> & [Hdir He]%list_elem_of_filter); [done|]. eauto.
  - intros (children & He). exists (Dir n children). split; [done|].
    by apply list_elem_of_filter.
Qed.

Lemma label_names_sorted_dir_names self fs : label_names self fs = sorted (dir_names fs).
Proof.
  unfold label_names, dir_names, glob_star_slash. f_equal.
  induction fs as [|e fs IH]; [done|]. rewrite fmap_cons.
  rewrite !filter_cons. simpl. destruct (decide (is_dir e)).
  - rewrite !fmap_cons. simpl. by rewrite name_snoc, IH.
  - done.
Qed.

Lemma sorted_Permutation l : sorted l ≡ₚ l.
Proof. apply merge_sort_Permutation. Qed.

Lemma sorted_StronglySorted l : StronglySorted String.le (sorted l).
Proof. apply StronglySorted_merge_sort; apply _. Qed.

Lemma sorted_unique l1 l2 : l1 ≡ₚ l2 → sorted l1 = sorted l2.
Proof.
  intros Hperm. apply (StronglySorted_unique String.le); [apply sorted_StronglySorted..|].
  by rewrite !sorted_Permutation.
Qed.

Lemma elem_of_label_names self fs n :
  n ∈ label_names self fs ↔ ∃ children, Dir n children ∈ fs.
Proof. by rewrite label_names_sorted_dir_names, sorted_Permutation, elem_of_dir_names. Qed.

(** ** The label dictionary *)

Lemma elem_of_enumerate_swapped (names : list string) n i :
  (n, i) ∈ (λ '(index, name), (name, index)) <$> enumerate names ↔
  ∃ j : nat, i = Z.of_nat j ∧ names !! j = Some n.
Proof.
  unfold enumerate. rewrite list_elem_of_fmap. split.
  - intros ([i' n'] & [= -> ->] & (j & x & [= -> ->] & Hj)%elem_of_lookup_imap). eauto.
  - intros (j & -> & Hj). exists (Z.of_nat j, n). split; [done|].
    apply elem_of_lookup_imap. eauto.
Qed.

Lemma enumerate_swapped_keys (names : list string) :
  ((λ '(index, name), (name, index)) <$> enumerate names).*1 = names.
Proof.
  unfold enumerate. rewrite <- list_fmap_compose. rewrite fmap_imap.
  apply list_eq. intros j. rewrite list_lookup_imap. by destruct (names !! j).
Qed.

Lemma label_to_index_Some self fs n i :
  label_to_index self fs !! n = Some i →
  ∃ j : nat, i = Z.of_nat j ∧ label_names self fs !! j = Some n.
Proof. intros H%dict_lookup_Some. by apply elem_of_enumerate_swapped. Qed.

Lemma label_to_index_is_Some self fs n :
  is_Some (label_to_index self fs !! n) ↔ n ∈ label_names self fs.
Proof. unfold label_to_index. by rewrite dict_lookup_is_Some, enumerate_swapped_keys. Qed.

Lemma label_to_index_NoDup self fs n (j : nat) :
  NoDup (label_names self fs) → label_names self fs !! j = Some n →
  label_to_index self fs !! n = Some (Z.of_nat j).
Proof.
  intros Hnd Hj. apply dict_lookup_NoDup.
  - by rewrite enumerate_swapped_keys.
  - apply elem_of_enumerate_swapped. eauto.
Qed.

Lemma label_to_index_inj self fs n1 n2 i :
  label_to_index self fs !! n1 = Some i → label_to_index self fs !! n2 = Some i → n1 = n2.
Proof.
  intros (j1 & -> & H1)%label_to_index_Some (j2 & Hj & H2)%label_to_index_Some.
  apply Nat2Z.inj in Hj as <-. congruence.
Qed.

(** ** Datasets *)

Lemma take_zip_map {A B C} (f : A → B → C) k (a : list A) (b : list B) :
  Dataset.zip_map f (Dataset.take k a) (Dataset.take k b) = Dataset.take k (Dataset.zip_map f a b).
Proof.
  unfold Dataset.take, Dataset.zip_map. destruct (k <? 0); [done|].
  generalize (Z.to_nat k) as n. intros n. revert a b.
  induction n as [|n IH]; intros [|x a] [|y b]; simpl; f_equal; auto.
Qed.

Lemma skip_zip_map {A B C} (f : A → B → C) k (a : list A) (b : list B) :
  Dataset.zip_map f (Dataset.skip k a) (Dataset.skip k b) = Dataset.skip k (Dataset.zip_map f a b).
Proof.
  unfold Dataset.skip, Dataset.zip_map. destruct (k <? 0); [done|].
  generalize (Z.to_nat k) as n. intros n. revert a b.
  induction n as [|n IH]; intros [|x a] [|y b]; simpl; auto.
  by destruct (skipn n a).
Qed.

Lemma take_skip {A} k (ds : list A) : Dataset.take k ds ++ Dataset.skip k ds = ds.
Proof.
  unfold Dataset.take, Dataset.skip. destruct (k <? 0).
  - apply app_nil_r.
  - apply firstn_skipn.
Qed.

Lemma take_in_range {A} k (ds : list A) :
  0 ≤ k → Dataset.take k ds = firstn (Z.to_nat k) ds.
Proof. intros. unfold Dataset.take. by rewrite (proj2 (Z.ltb_ge k 0)). Qed.

Lemma skip_in_range {A} k (ds : list A) :
  0 ≤ k → Dataset.skip k ds = skipn (Z.to_nat k) ds.
Proof. intros. unfold Dataset.skip. by rewrite (proj2 (Z.ltb_ge k 0)). Qed.

(** ** The constructor *)

Lemma init_Ok root f hs ws cs fs h k :
  Float.int_mul (Z.of_nat (length (glob_star_star (Path root) fs))) f ≫= Float.to_int = Ok k →
  __init__ root f hs ws cs fs h =
    Ok ({| _data_root := Path root;
           _image_paths := glob_star_star (Path root) fs;
           _num_train_images := k;
           _info := fresh (dom h) |},
        Heap.update (Heap.update (Heap.update (<[fresh (dom h) := ∅]> h)
          (fresh (dom h)) "hight_size" hs) (fresh (dom h)) "width_size" ws)
          (fresh (dom h)) "channel_size" cs).
Proof.
  unfold __init__. intros (product & -> & Hk)%bind_Ok. simpl. by rewrite Hk.
Qed.

Lemma init_inv root f hs ws cs fs h self h1 :
  __init__ root f hs ws cs fs h = Ok (self, h1) →
  _data_root self = Path root ∧
  _image_paths self = glob_star_star (Path root) fs ∧
  Float.int_mul (Z.of_nat (length (glob_star_star (Path root) fs))) f ≫= Float.to_int
    = Ok (_num_train_images self) ∧
  (_info self ∉ dom h) ∧
  Heap.deref h1 (_info self) = initial_info hs ws cs ∧
  ∀ l, l ∈ dom h → Heap.deref h1 l = Heap.deref h l.
Proof.
  intros Hinit.
  destruct (Float.int_mul (Z.of_nat (length (glob_star_star (Path root) fs))) f ≫= Float.to_int)
    as [k|e] eqn:Hk.
  - rewrite (init_Ok _ _ hs ws cs _ h _ Hk) in Hinit. injection Hinit as <- <-. simpl.
    pose proof (is_fresh (dom h)) as Hfresh.
    split_and!; [done..| |].
    + rewrite !deref_update. unfold Heap.deref. by rewrite lookup_insert_eq.
    + intros l Hl. assert (fresh (dom h) ≠ l) by (by intros <-).
      rewrite !deref_update_ne by done. unfold Heap.deref. by rewrite lookup_insert_ne.
  - unfold __init__ in Hinit. apply bind_Ok in Hinit as (product & Hp & Hinit).
    apply bind_Ok in Hinit as (k & Hk' & _). rewrite Hp in Hk. simpl in Hk. congruence.
Qed.

(** ** [load] *)

Lemma preprocess_image_Ok self h hs ws cs :
  Heap.deref h (_info self) !! "channel_size" = Some cs →
  Heap.deref h (_info self) !! "hight_size" = Some hs →
  Heap.deref h (_info self) !! "width_size" = Some ws →
  _preprocess_image self h tf_string =
    Ok (λ image_path, {| source := image_path; height := hs; width := ws; channels := cs |}).
Proof. intros Hc Hh Hw. unfold _preprocess_image, getitem. cbn. by rewrite Hc, Hh, Hw. Qed.

Lemma from_tensor_slices_dtype_string paths :
  paths ≠ [] → from_tensor_slices_dtype paths = tf_string.
Proof. by destruct paths. Qed.

(** With no image enumerated, [load] raises when it builds the image
    dataset, before anything else is read or written. *)
Lemma load_no_images self fs h :
  _image_paths self = [] → ∃ msg, load self fs h = Raise (TypeError msg).
Proof. intros Hnil. unfold load, _load_image_ds. rewrite Hnil. cbn. eauto. Qed.

Lemma load_nonempty self fs h r : load self fs h = Ok r → _image_paths self ≠ [].
Proof.
  intros Hload Hnil. destruct (load_no_images self fs h Hnil) as [msg Hmsg].
  rewrite Hmsg in Hload. discriminate Hload.
Qed.

Lemma load_Ok self fs h hs ws cs labels :
  Heap.deref h (_info self) !! "channel_size" = Some cs →
  Heap.deref h (_info self) !! "hight_size" = Some hs →
  Heap.deref h (_info self) !! "width_size" = Some ws →
  image_labels self fs = Ok labels →
  _image_paths self ≠ [] →
  let h1 := Heap.update h (_info self) "num_classes" (len_set labels) in
  load self fs h =
    Ok (((Dataset.take (_num_train_images self) (unsplit self hs ws cs labels),
          Dataset.skip (_num_train_images self) (unsplit self hs ws cs labels)),
         fresh (dom h1)),
        <[fresh (dom h1) := Heap.deref h1 (_info self)]> h1).
Proof.
  intros Hc Hh Hw Hl Hne. unfold load, _load_image_ds, _load_label_ds.
  rewrite (from_tensor_slices_dtype_string _ Hne).
  rewrite (preprocess_image_Ok _ _ _ _ _ Hc Hh Hw), Hl. simpl.
  by rewrite take_zip_map, skip_zip_map.
Qed.

Lemma load_Raise self fs h hs ws cs e :
  Heap.deref h (_info self) !! "channel_size" = Some cs →
  Heap.deref h (_info self) !! "hight_size" = Some hs →
  Heap.deref h (_info self) !! "width_size" = Some ws →
  image_labels self fs = Raise e →
  _image_paths self ≠ [] →
  load self fs h = Raise e.
Proof.
  intros Hc Hh Hw Hl Hne. unfold load, _load_image_ds, _load_label_ds.
  rewrite (from_tensor_slices_dtype_string _ Hne).
  by rewrite (preprocess_image_Ok _ _ _ _ _ Hc Hh Hw), Hl.
Qed.

Lemma load_inv self fs h res info h2 :
  load self fs h = Ok ((res, info), h2) →
  ∃ hs ws cs labels,
    Heap.deref h (_info self) !! "channel_size" = Some cs ∧
    Heap.deref h (_info self) !! "hight_size" = Some hs ∧
    Heap.deref h (_info self) !! "width_size" = Some ws ∧
    image_labels self fs = Ok labels.
Proof.
  intros Hload. pose proof (load_nonempty _ _ _ _ Hload) as Hne. revert Hload.
  unfold load, _load_image_ds, _preprocess_image, _load_label_ds, getitem.
  rewrite (from_tensor_slices_dtype_string _ Hne). cbn [tf_io_read_file mbind result_bind].
  intros Hload.
  destruct (Heap.deref h (_info self) !! "channel_size") as [cs|]; [|done].
  destruct (Heap.deref h (_info self) !! "hight_size") as [hs|]; [|done].
  destruct (Heap.deref h (_info self) !! "width_size") as [ws|]; [|done].
  destruct (image_labels self fs) as [labels|]; [|done].
  by exists hs, ws, cs, labels.
Qed.

Lemma initial_info_lookup hs ws cs :
  initial_info hs ws cs !! "channel_size" = Some cs ∧
  initial_info hs ws cs !! "hight_size" = Some hs ∧
  initial_info hs ws cs !! "width_size" = Some ws ∧
  initial_info hs ws cs !! "num_classes" = None.
Proof. unfold initial_info. by split_and!. Qed.

Lemma image_labels_Ok self fs :
  (∀ p, p ∈ _image_paths self → name (parent p) ∈ label_names self fs) →
  ∃ labels, image_labels self fs = Ok labels ∧
    Forall2 (λ p i, label_to_index self fs !! name (parent p) = Some i)
            (_image_paths self) labels.
Proof.
  unfold image_labels. generalize (_image_paths self) as paths.
  induction paths as [|p paths IH]; intros Hin.
  - exists []. split; [done | constructor].
  - destruct IH as (labels & Hl & Hall); [intros; apply Hin; by right|].
    destruct (proj2 (label_to_index_is_Some self fs (name (parent p)))) as [i Hi];
      [apply Hin; by left|].
    exists (i :: labels). cbn [comprehension].
    rewrite (proj2 (getitem_Ok _ _ _) Hi). cbn [mbind result_bind]. rewrite Hl.
    split; [done | by constructor].
Qed.

Lemma image_labels_inv self fs labels :
  image_labels self fs = Ok labels →
  Forall2 (λ p i, label_to_index self fs !! name (parent p) = Some i)
          (_image_paths self) labels.
Proof.
  unfold image_labels. rewrite comprehension_Ok. intros Hall.
  eapply Forall2_impl; [exact Hall|]. intros p i. by rewrite getitem_Ok.
Qed.

Lemma image_labels_Raise self fs e :
  image_labels self fs = Raise e →
  ∃ p, p ∈ _image_paths self ∧ (name (parent p) ∉ label_names self fs) ∧
       e = KeyError (name (parent p)).
Proof.
  unfold image_labels. intros (l1 & p & l2 & Heq & _ & Hp)%comprehension_Raise_first.
  exists p. split; [rewrite Heq; apply elem_of_app; right; by left|].
  apply getitem_Raise in Hp as [Hlk ->]. split; [|done].
  rewrite <- label_to_index_is_Some, Hlk. by intros [].
Qed.

Lemma image_parent_is_dir (root : path) fs p :
  p ∈ glob_star_star root fs → ∃ children, Dir (name (parent p)) children ∈ fs.
Proof.
  intros (d & children & c & Hd & _ & ->)%elem_of_glob_star_star.
  rewrite parent_name_image. eauto.
Qed.

Lemma label_zip_map (images : list image_tensor) (labels : list Z) :
  length images = length labels →
  label <$> Dataset.zip_map Build_example images labels = labels.
Proof.
  unfold Dataset.zip_map. revert labels.
  induction images as [|x images IH]; intros [|y labels] [=]; simpl; f_equal; auto.
Qed.

Lemma source_zip_map (paths : list path) (labels : list Z) hs ws cs :
  length paths = length labels →
  (λ x, source (image x)) <$>
    Dataset.zip_map Build_example
      ((λ image_path, {| source := image_path; height := hs; width := ws; channels := cs |})
         <$> paths) labels = paths.
Proof.
  unfold Dataset.zip_map. revert labels.
  induction paths as [|x paths IH]; intros [|y labels] [=]; simpl; f_equal; auto.
Qed.

(** A loader used on the tree it was constructed on: the labels are found
    and [load] returns. *)
Lemma load_same_snapshot root f hs ws cs fs h self h1 :
  __init__ root f hs ws cs fs h = Ok (self, h1) →
  glob_star_star (Path root) fs ≠ [] →
  ∃ labels info h2,
    image_labels self fs = Ok labels ∧
    length labels = length (_image_paths self) ∧
    load self fs h1 =
      Ok (((Dataset.take (_num_train_images self) (unsplit self hs ws cs labels),
            Dataset.skip (_num_train_images self) (unsplit self hs ws cs labels)),
           info), h2) ∧
    info ≠ _info self ∧
    Heap.deref h2 info = <["num_classes" := len_set labels]> (initial_info hs ws cs) ∧
    Heap.deref h2 (_info self) = <["num_classes" := len_set labels]> (initial_info hs ws cs).
Proof.
  intros (Hroot & Hpaths & Hnum & Hfresh & Hinfo & Hold)%init_inv Himages.
  rewrite <- Hpaths in Himages.
  destruct (image_labels_Ok self fs) as (labels & Hl & Hall).
  { intros p Hp. rewrite Hpaths in Hp. apply image_parent_is_dir in Hp.
    by apply elem_of_label_names. }
  destruct (initial_info_lookup hs ws cs) as (Hc & Hh & Hw & _).
  rewrite <- Hinfo in Hc, Hh, Hw.
  pose proof (load_Ok self fs h1 hs ws cs labels Hc Hh Hw Hl Himages) as Hload. simpl in Hload.
  set (h1' := Heap.update h1 (_info self) "num_classes" (len_set labels)) in *.
  exists labels, (fresh (dom h1')), (<[fresh (dom h1') := Heap.deref h1' (_info self)]> h1').
  assert (fresh (dom h1') ≠ _info self) as Hne.
  { intros Heq. apply (is_fresh (dom h1')). rewrite Heq. unfold h1'.
    rewrite dom_update. set_solver. }
  split_and!; [done| |done|done| |].
  - symmetry. by eapply Forall2_length.
  - unfold Heap.deref at 1. rewrite lookup_insert_eq. simpl. unfold h1'.
    by rewrite deref_update, Hinfo.
  - unfold Heap.deref at 1. rewrite lookup_insert_ne by done.
    fold (Heap.deref h1' (_info self)). unfold h1'. by rewrite deref_update, Hinfo.
Qed.

Lemma catsdogs_init :
  __init__ "catsdogs" Float.f0_67 256 256 3 catsdogs ∅ = Ok (catsdogs_loader, catsdogs_heap).
Proof. vm_compute. reflexivity. Qed.

Lemma catsdogs_emu_init :
  __init__ "catsdogs" Float.f0_67 256 256 3 catsdogs_emu ∅ = Ok (catsdogs_loader, catsdogs_heap).
Proof. vm_compute. reflexivity. Qed.

(** ** The label vocabulary *)

Lemma dir_names_NoDup fs : NoDup (entry_name <$> fs) → NoDup (dir_names fs).
Proof.
  intros Hnd. eapply sublist_NoDup; [exact Hnd|].
  unfold dir_names. apply fmap_sublist, sublist_filter.
Qed.

Lemma label_names_NoDup self fs : NoDup (entry_name <$> fs) → NoDup (label_names self fs).
Proof.
  intros Hnd%dir_names_NoDup.
  by rewrite label_names_sorted_dir_names, sorted_Permutation.
Qed.

(** C2. The label vocabulary is the lexicographically sorted list of the
    names of the directories directly under the root (files are left out),
    each name is mapped to its zero-based position in that list, and two
    enumerations that show the same subdirectories, in whatever order, give the
    same vocabulary and the same name-to-index mapping. *)
Theorem label_vocabulary_sorted_and_stable self fs
    (Hnames : NoDup (entry_name <$> fs)) :
  (∀ n, n ∈ label_names self fs ↔ ∃ children, Dir n children ∈ fs) ∧
  StronglySorted String.le (label_names self fs) ∧
  NoDup (label_names self fs) ∧
  (∀ n i, label_to_index self fs !! n = Some i ↔
          ∃ j : nat, i = Z.of_nat j ∧ label_names self fs !! j = Some n) ∧
  (∀ self' fs',
     NoDup (entry_name <$> fs') →
     (∀ n, (∃ children, Dir n children ∈ fs) ↔ (∃ children, Dir n children ∈ fs')) →
     label_names self' fs' = label_names self fs ∧
     label_to_index self' fs' = label_to_index self fs).
Proof.
  split_and!.
  - intros n. apply elem_of_label_names.
  - rewrite label_names_sorted_dir_names. apply sorted_StronglySorted.
  - by apply label_names_NoDup.
  - intros n i. split; [apply label_to_index_Some|].
    intros (j & -> & Hj). by apply label_to_index_NoDup; [apply label_names_NoDup|].
  - intros self' fs' Hnames' Hsame.
    assert (label_names self' fs' = label_names self fs) as Heq.
    { rewrite !label_names_sorted_dir_names. apply sorted_unique.
      apply NoDup_Permutation; [by apply dir_names_NoDup..|].
      intros n. by rewrite !elem_of_dir_names. }
    split; [done|]. unfold label_to_index. by rewrite Heq.
Qed.

Lemma label_vocabulary_sorted_and_stable_witness :
  label_names {| _data_root := ["catsdogs"]; _image_paths := []; _num_train_images := 0;
                 _info := 1%positive |} catsdogs_emu = ["cat"; "dog"; "emu"] ∧
  label_to_index {| _data_root := ["catsdogs"]; _image_paths := []; _num_train_images := 0;
                    _info := 1%positive |} catsdogs_emu !! "dog" = Some 1.
Proof.
  assert (NoDup (entry_name <$> catsdogs_emu)) as Hnames
    by (apply (bool_decide_unpack _); vm_compute; exact I).
  pose proof (label_vocabulary_sorted_and_stable
    {| _data_root := ["catsdogs"]; _image_paths := []; _num_train_images := 0;
       _info := 1%positive |} catsdogs_emu Hnames) as (_ & _ & _ & Hindex & _).
  split; [reflexivity|]. apply Hindex. exists 1%nat. split; reflexivity.
Defined.

(** ** The number of classes *)

Lemma len_set_le_vocabulary self fs labels :
  image_labels self fs = Ok labels →
  len_set labels ≤ Z.of_nat (length (label_names self fs)).
Proof.
  intros Hall%image_labels_inv. unfold len_set. apply inj_le.
  set (n := length (label_names self fs)).
  transitivity (size (list_to_set (Z.of_nat <$> seq 0 n) : gset Z)).
  - apply subseteq_size. intros i. rewrite !elem_of_list_to_set.
    intros Hi. apply list_elem_of_lookup in Hi as [k Hk].
    destruct (Forall2_lookup_r _ _ _ k i Hall Hk)
      as (p & _ & (j & -> & Hj)%label_to_index_Some).
    apply list_elem_of_fmap. exists j. split; [done|].
    apply elem_of_seq. apply lookup_lt_Some in Hj. unfold n. lia.
  - rewrite size_list_to_set.
    + by rewrite length_fmap, length_seq.
    + apply NoDup_fmap; [apply _ | apply NoDup_seq].
Qed.

Lemma unsplit_labels self hs ws cs labels :
  length labels = length (_image_paths self) →
  label <$> unsplit self hs ws cs labels = labels.
Proof. intros Hlen. unfold unsplit. apply label_zip_map. by rewrite length_fmap. Qed.

Lemma unsplit_sources self hs ws cs labels :
  length labels = length (_image_paths self) →
  (λ x, source (image x)) <$> unsplit self hs ws cs labels = _image_paths self.
Proof. intros Hlen. unfold unsplit. by apply source_zip_map. Qed.

Lemma unsplit_length self hs ws cs labels :
  length labels = length (_image_paths self) →
  length (unsplit self hs ws cs labels) = length (_image_paths self).
Proof.
  intros Hlen. unfold unsplit, Dataset.zip_map.
  rewrite length_zip_with, length_fmap. lia.
Qed.

(** C3. On a tree with at least one enumerated image, the [num_classes]
    entry of the metadata is the number of distinct label indices among the
    labels of all enumerated images (train and validation together); it
    never exceeds the size of the vocabulary, and it is strictly smaller for
    a tree with a label directory that holds no image. *)
Theorem num_classes_counts_labels_present :
  (∀ root f hs ws cs fs h self h1,
     __init__ root f hs ws cs fs h = Ok (self, h1) →
     glob_star_star (Path root) fs ≠ [] →
     ∃ labels train valid info h2,
       image_labels self fs = Ok labels ∧
       load self fs h1 = Ok (((train, valid), info), h2) ∧
       label <$> (train ++ valid) = labels ∧
       Heap.deref h2 info !! "num_classes"
         = Some (Z.of_nat (size (list_to_set labels : gset Z))) ∧
       Z.of_nat (size (list_to_set labels : gset Z)) ≤ Z.of_nat (length (label_names self fs))) ∧
  (∃ res info h2,
     __init__ "catsdogs" Float.f0_67 256 256 3 catsdogs_emu ∅
       = Ok (catsdogs_loader, catsdogs_heap) ∧
     load catsdogs_loader catsdogs_emu catsdogs_heap = Ok ((res, info), h2) ∧
     Heap.deref h2 info !! "num_classes" = Some 2 ∧
     length (label_names catsdogs_loader catsdogs_emu) = 3%nat).
Proof.
  split.
  - intros root f hs ws cs fs h self h1 Hinit Himages.
    destruct (load_same_snapshot _ _ _ _ _ _ _ _ _ Hinit Himages)
      as (labels & info & h2 & Hl & Hlen & Hload & _ & Hrec & _).
    eexists labels, _, _, info, h2. split_and!; [done|exact Hload| | |].
    + by rewrite take_skip, unsplit_labels.
    + rewrite Hrec. by rewrite lookup_insert_eq.
    + by apply len_set_le_vocabulary.
  - destruct (load_same_snapshot _ _ _ _ _ _ _ _ _ catsdogs_emu_init)
      as (labels & info & h2 & Hl & _ & Hload & _ & Hrec & _); [done|].
    eexists _, info, h2. split_and!; [exact catsdogs_emu_init|exact Hload| |reflexivity].
    vm_compute in Hl. injection Hl as <-. rewrite Hrec. by rewrite lookup_insert_eq.
Qed.

Lemma num_classes_counts_labels_present_witness :
  ∃ labels train valid info h2,
    image_labels catsdogs_loader catsdogs = Ok labels ∧
    load catsdogs_loader catsdogs catsdogs_heap = Ok (((train, valid), info), h2) ∧
    label <$> (train ++ valid) = labels ∧
    Heap.deref h2 info !! "num_classes"
      = Some (Z.of_nat (size (list_to_set labels : gset Z))) ∧
    Z.of_nat (size (list_to_set labels : gset Z))
      ≤ Z.of_nat (length (label_names catsdogs_loader catsdogs)).
Proof.
  apply (proj1 num_classes_counts_labels_present
           "catsdogs" Float.f0_67 256 256 3 catsdogs ∅).
  - vm_compute. reflexivity.
  - vm_compute. discriminate.
Defined.

(** ** The metadata record *)

Lemma metadata_dom hs ws cs n :
  dom (<["num_classes" := n]> (initial_info hs ws cs))
  = ({["hight_size"; "width_size"; "channel_size"; "num_classes"]} : gset string).
Proof. unfold initial_info. rewrite !dom_insert_L, dom_empty_L. set_solver. Qed.

Lemma metadata_size hs ws cs n :
  size (dom (<["num_classes" := n]> (initial_info hs ws cs))) = 4%nat.
Proof.
  rewrite metadata_dom. reflexivity.
Qed.

(** C4, as stated, fails: the record returned for the two-class example
    tree has four keys, and none of them is a train count. *)
Lemma metadata_has_no_num_train :
  ∃ res info h2,
    __init__ "catsdogs" Float.f0_67 256 256 3 catsdogs ∅
      = Ok (catsdogs_loader, catsdogs_heap) ∧
    load catsdogs_loader catsdogs catsdogs_heap = Ok ((res, info), h2) ∧
    Heap.deref h2 info !! "num_train" = None ∧
    ¬ ∃ keys : list string,
        NoDup keys ∧ length keys = 5%nat ∧
        ∀ k, k ∈ keys → is_Some (Heap.deref h2 info !! k).
Proof.
  destruct (load_same_snapshot _ _ _ _ _ _ _ _ _ catsdogs_init)
    as (labels & info & h2 & _ & _ & Hload & _ & Hrec & _); [done|].
  eexists _, info, h2. split_and!; [exact catsdogs_init|exact Hload|by rewrite Hrec|].
  intros (keys & Hnd & Hlen & Hkeys).
  assert (length keys ≤ size (dom (Heap.deref h2 info)))%nat as Hle.
  { rewrite <- (size_list_to_set (C := gset string) keys) by done. apply subseteq_size.
    intros k Hk%elem_of_list_to_set. by apply elem_of_dom, Hkeys. }
  rewrite Hrec, metadata_size in Hle. lia.
Qed.

(** C4, amended. On a tree with at least one enumerated image, the record
    returned by [load] has exactly the four keys [hight_size],
    [width_size], [channel_size] and [num_classes], each with an integer
    value: the three sizes given to the constructor and the number of
    distinct labels. The train count is kept by the loader in
    [_num_train_images] and is not part of the record. *)
Theorem metadata_record_keys root f hs ws cs fs h self h1
    (Hinit : __init__ root f hs ws cs fs h = Ok (self, h1))
    (Himages : glob_star_star (Path root) fs ≠ []) :
  ∃ res info h2 labels,
    load self fs h1 = Ok ((res, info), h2) ∧
    image_labels self fs = Ok labels ∧
    dom (Heap.deref h2 info)
      = ({["hight_size"; "width_size"; "channel_size"; "num_classes"]} : gset string) ∧
    Heap.deref h2 info !! "hight_size" = Some hs ∧
    Heap.deref h2 info !! "width_size" = Some ws ∧
    Heap.deref h2 info !! "channel_size" = Some cs ∧
    Heap.deref h2 info !! "num_classes" = Some (len_set labels) ∧
    Heap.deref h2 info !! "num_train" = None.
Proof.
  destruct (load_same_snapshot _ _ _ _ _ _ _ _ _ Hinit Himages)
    as (labels & info & h2 & Hl & _ & Hload & _ & Hrec & _).
  eexists _, info, h2, labels. split_and!; [exact Hload|done|..]; rewrite Hrec.
  - apply metadata_dom.
  - done.
  - done.
  - done.
  - by rewrite lookup_insert_eq.
  - done.
Qed.

Lemma metadata_record_keys_witness :
  ∃ res info h2 labels,
    load catsdogs_loader catsdogs catsdogs_heap = Ok ((res, info), h2) ∧
    image_labels catsdogs_loader catsdogs = Ok labels ∧
    dom (Heap.deref h2 info)
      = ({["hight_size"; "width_size"; "channel_size"; "num_classes"]} : gset string) ∧
    Heap.deref h2 info !! "hight_size" = Some 256 ∧
    Heap.deref h2 info !! "width_size" = Some 256 ∧
    Heap.deref h2 info !! "channel_size" = Some 3 ∧
    Heap.deref h2 info !! "num_classes" = Some (len_set labels) ∧
    Heap.deref h2 info !! "num_train" = None.
Proof.
  apply (metadata_record_keys "catsdogs" Float.f0_67 256 256 3 catsdogs ∅).
  - vm_compute. reflexivity.
  - vm_compute. discriminate.
Defined.

(** ** Label lookup *)

(** C6. Every image gets the vocabulary index of its parent directory
    name. When at least one image is enumerated and all parent names are in
    the vocabulary, [load] returns every enumerated image, in order, each
    with the index found for its parent. [load] raises a [KeyError] exactly
    when some parent name is missing, and it is the [KeyError] of a missing
    parent name; the only other way it raises is the [TypeError] of an
    empty enumeration. *)
Theorem label_lookup_fails_fast root f hs ws cs fs0 h0 self h fs
    (Hinit : __init__ root f hs ws cs fs0 h0 = Ok (self, h)) :
  (_image_paths self ≠ [] →
   (∀ p, p ∈ _image_paths self → name (parent p) ∈ label_names self fs) →
   ∃ train valid info h2,
     load self fs h = Ok (((train, valid), info), h2) ∧
     (λ x, source (image x)) <$> (train ++ valid) = _image_paths self ∧
     Forall (λ x, label_to_index self fs !! name (parent (source (image x))) = Some (label x))
            (train ++ valid)) ∧
  ((∃ p, p ∈ _image_paths self ∧ name (parent p) ∉ label_names self fs) ↔
   (∃ k, load self fs h = Raise (KeyError k))) ∧
  (∀ e, load self fs h = Raise e →
        (∃ p, p ∈ _image_paths self ∧ (name (parent p) ∉ label_names self fs) ∧
              e = KeyError (name (parent p))) ∨
        (_image_paths self = [] ∧ ∃ msg, e = TypeError msg)).
Proof.
  apply init_inv in Hinit as (_ & _ & _ & _ & Hinfo & _).
  destruct (initial_info_lookup hs ws cs) as (Hc & Hh & Hw & _).
  rewrite <- Hinfo in Hc, Hh, Hw.
  assert (_image_paths self ≠ [] →
          ∀ e, load self fs h = Raise e → image_labels self fs = Raise e) as Hraise.
  { intros Hne e Hload. destruct (image_labels self fs) as [labels|e'] eqn:Hl.
    - pose proof (load_Ok self fs h hs ws cs labels Hc Hh Hw Hl Hne) as Hok. simpl in Hok.
      congruence.
    - rewrite (load_Raise self fs h hs ws cs e' Hc Hh Hw Hl Hne) in Hload. congruence. }
  split_and!.
  - intros Hne Hpresent.
    destruct (image_labels_Ok self fs Hpresent) as (labels & Hl & Hall).
    pose proof (load_Ok self fs h hs ws cs labels Hc Hh Hw Hl Hne) as Hload. simpl in Hload.
    assert (length labels = length (_image_paths self)) as Hlen
      by (symmetry; by eapply Forall2_length).
    eexists _, _, _, _. split_and!; [exact Hload|..]; rewrite take_skip.
    + by apply unsplit_sources.
    + apply Forall_lookup. intros i x Hx.
      assert (source (image x) ∈ _image_paths self ∧
              _image_paths self !! i = Some (source (image x)) ∧
              labels !! i = Some (label x)) as (_ & Hp & Hi).
      { pose proof (unsplit_sources self hs ws cs labels Hlen) as Hs.
        pose proof (unsplit_labels self hs ws cs labels Hlen) as Hlab.
        assert (_image_paths self !! i = Some (source (image x))) as Hp
          by (by rewrite <- Hs, list_lookup_fmap, Hx).
        split_and!; [by eapply list_elem_of_lookup_2|done|].
        by rewrite <- Hlab, list_lookup_fmap, Hx. }
      by destruct (Forall2_lookup_l _ _ _ i _ Hall Hp) as (y & Hy & Hlk); simplify_eq.
  - split.
    + intros (p & Hp & Habsent).
      assert (_image_paths self ≠ []) as Hne
        by (intros Hnil; rewrite Hnil in Hp; by apply elem_of_nil in Hp).
      destruct (image_labels self fs) as [labels|e] eqn:Hl.
      * apply image_labels_inv in Hl.
        apply list_elem_of_lookup in Hp as [i Hi].
        destruct (Forall2_lookup_l _ _ _ i _ Hl Hi) as (y & _ & Hlk).
        destruct Habsent. apply label_to_index_is_Some. by rewrite Hlk.
      * pose proof Hl as (p' & _ & _ & ->)%image_labels_Raise.
        eexists. by eapply load_Raise.
    + intros (k & Hload). destruct (decide (_image_paths self = [])) as [Hnil|Hne].
      * destruct (load_no_images self fs h Hnil) as [msg Hmsg]. congruence.
      * apply (Hraise Hne) in Hload. apply image_labels_Raise in Hload as (p & ? & ? & _).
        eauto.
  - intros e Hload. destruct (decide (_image_paths self = [])) as [Hnil|Hne].
    + right. split; [done|]. destruct (load_no_images self fs h Hnil) as [msg Hmsg].
      rewrite Hmsg in Hload. injection Hload as <-. eauto.
    + left. apply (Hraise Hne) in Hload. by apply image_labels_Raise.
Qed.

Lemma label_lookup_fails_fast_witness :
  ∃ p, p ∈ _image_paths catsdogs_loader ∧
       (name (parent p) ∉ label_names catsdogs_loader [Dir "dog" ["c.jpg"]]) ∧
       KeyError "cat" = KeyError (name (parent p)).
Proof.
  pose proof (label_lookup_fails_fast "catsdogs" Float.f0_67 256 256 3 catsdogs ∅
                catsdogs_loader catsdogs_heap [Dir "dog" ["c.jpg"]]) as Hlookup.
  destruct Hlookup as (_ & _ & Hkey); [vm_compute; reflexivity|].
  destruct (Hkey (KeyError "cat")) as [Hp|[Hnil _]].
  - vm_compute. reflexivity.
  - exact Hp.
  - discriminate Hnil.
Defined.

(** ** No images *)

Lemma num_train_no_images f :
  Float.is_finite f = true → Float.int_mul 0 f ≫= Float.to_int = Ok 0.
Proof. by destruct f as [?|?| |? ? ?]. Qed.

(** C8 does not hold of the code. When no image is enumerated under the
    root and the fraction is a finite float, the constructor returns with a
    train count of 0, but [load] raises: the dataset built from the empty
    list of paths has [float32] elements, and tracing [_preprocess_image]
    on it fails in [tf.io.read_file]. No dataset is returned and
    [num_classes] is never recorded. *)
Theorem empty_root_load_raises root f hs ws cs fs h
    (Hempty : glob_star_star (Path root) fs = [])
    (Hf : Float.is_finite f = true) :
  ∃ self h1 msg,
    __init__ root f hs ws cs fs h = Ok (self, h1) ∧
    _num_train_images self = 0 ∧
    load self fs h1 = Raise (TypeError msg) ∧
    Heap.deref h1 (_info self) !! "num_classes" = None.
Proof.
  assert (Float.int_mul (Z.of_nat (length (glob_star_star (Path root) fs))) f
          ≫= Float.to_int = Ok 0) as Hnum
    by (rewrite Hempty; by apply num_train_no_images).
  pose proof (init_Ok root f hs ws cs fs h 0 Hnum) as Hinit.
  destruct (init_inv _ _ _ _ _ _ _ _ _ Hinit) as (_ & _ & _ & _ & Hinfo & _).
  eexists _, _, _. split; [exact Hinit|]. split; [done|]. split.
  - unfold load, _load_image_ds. cbn [_image_paths]. rewrite Hempty. reflexivity.
  - rewrite Hinfo. apply initial_info_lookup.
Qed.

Lemma empty_root_load_raises_witness :
  ∃ self h1 msg,
    __init__ "catsdogs" Float.f0_2 256 256 3 [File "README"; Dir "emu" []] ∅ = Ok (self, h1) ∧
    _num_train_images self = 0 ∧
    load self [File "README"; Dir "emu" []] h1 = Raise (TypeError msg) ∧
    Heap.deref h1 (_info self) !! "num_classes" = None.
Proof.
  apply (empty_root_load_raises "catsdogs" Float.f0_2 256 256 3 [File "README"; Dir "emu" []] ∅);
    reflexivity.
Defined.

(** ** The returned record is a copy *)

Lemma load_fresh_record self fs h res info h2 :
  load self fs h = Ok ((res, info), h2) →
  ∃ hs ws cs labels,
    image_labels self fs = Ok labels ∧
    info ≠ _info self ∧
    Heap.deref h2 (_info self)
      = <["num_classes" := len_set labels]> (Heap.deref h (_info self)) ∧
    Heap.deref h2 info = Heap.deref h2 (_info self) ∧
    Heap.deref h2 (_info self) !! "channel_size" = Some cs ∧
    Heap.deref h2 (_info self) !! "hight_size" = Some hs ∧
    Heap.deref h2 (_info self) !! "width_size" = Some ws ∧
    res = (Dataset.take (_num_train_images self) (unsplit self hs ws cs labels),
           Dataset.skip (_num_train_images self) (unsplit self hs ws cs labels)).
Proof.
  intros Hload.
  destruct (load_inv _ _ _ _ _ _ Hload) as (hs & ws & cs & labels & Hc & Hh & Hw & Hl).
  pose proof (load_Ok self fs h hs ws cs labels Hc Hh Hw Hl (load_nonempty _ _ _ _ Hload))
    as Hok.
  simpl in Hok. rewrite Hok in Hload. clear Hok.
  set (h1 := Heap.update h (_info self) "num_classes" (len_set labels)) in *.
  injection Hload as <- <- <-.
  assert (fresh (dom h1) ≠ _info self) as Hne.
  { intros Heq. apply (is_fresh (dom h1)). rewrite Heq. unfold h1.
    rewrite dom_update. set_solver. }
  assert (Heap.deref (<[fresh (dom h1) := Heap.deref h1 (_info self)]> h1) (_info self)
          = <["num_classes" := len_set labels]> (Heap.deref h (_info self))) as Hself.
  { unfold Heap.deref at 1. rewrite lookup_insert_ne by done.
    fold (Heap.deref h1 (_info self)). unfold h1. by rewrite deref_update. }
  exists hs, ws, cs, labels. split_and!; [done|done|done| | | | |done].
  - rewrite Hself. unfold Heap.deref at 1. rewrite lookup_insert_eq. simpl.
    unfold h1. by rewrite deref_update.
  - rewrite Hself. by rewrite lookup_insert_ne.
  - rewrite Hself. by rewrite lookup_insert_ne.
  - rewrite Hself. by rewrite lookup_insert_ne.
Qed.

(** C9. The record returned by [load] is a new object that holds the items
    of [_info]: it is not [_info] itself, no mutation of it changes [_info],
    and a second [load] on the same tree, whether or not the first record
    was mutated in between, returns a record equal to the first one as it
    was returned, together with the same datasets. *)
Theorem load_returns_copy self fs h res info h2
    (Hload : load self fs h = Ok ((res, info), h2)) :
  info ≠ _info self ∧
  Heap.deref h2 info = Heap.deref h2 (_info self) ∧
  (∀ d, Heap.deref (Heap.mutate h2 info d) (_info self) = Heap.deref h2 (_info self)) ∧
  (∃ info' h3,
     load self fs h2 = Ok ((res, info'), h3) ∧
     Heap.deref h3 info' = Heap.deref h2 info) ∧
  (∀ d, ∃ info' h3,
     load self fs (Heap.mutate h2 info d) = Ok ((res, info'), h3) ∧
     Heap.deref h3 info' = Heap.deref h2 info).
Proof.
  pose proof (load_nonempty _ _ _ _ Hload) as Himages.
  destruct (load_fresh_record _ _ _ _ _ _ Hload)
    as (hs & ws & cs & labels & Hl & Hne & Hself & Hcopy & Hc & Hh & Hw & ->).
  assert (∀ h', Heap.deref h' (_info self) = Heap.deref h2 (_info self) →
     ∃ info' h3,
       load self fs h' =
         Ok (((Dataset.take (_num_train_images self) (unsplit self hs ws cs labels),
               Dataset.skip (_num_train_images self) (unsplit self hs ws cs labels)),
              info'), h3) ∧
       Heap.deref h3 info' = Heap.deref h2 info) as Hagain.
  { intros h' Hsame. rewrite <- Hsame in Hc, Hh, Hw.
    pose proof (load_Ok self fs h' hs ws cs labels Hc Hh Hw Hl Himages) as Hok. simpl in Hok.
    eexists _, _. split; [exact Hok|].
    unfold Heap.deref at 1. rewrite lookup_insert_eq. simpl.
    rewrite deref_update, Hsame, Hcopy, Hself. by rewrite insert_insert_eq. }
  split_and!; [done|done| | |].
  - intros d. by apply deref_mutate_ne.
  - by apply Hagain.
  - intros d. apply Hagain. by apply deref_mutate_ne.
Qed.

Lemma load_returns_copy_witness :
  ∃ info' h3,
    load catsdogs_loader catsdogs
         (Heap.mutate
            (<[2%positive := <["num_classes" := 2]> (initial_info 256 256 3)]>
               (Heap.update catsdogs_heap 1%positive "num_classes" 2))
            2%positive ∅)
      = Ok ((Dataset.take 2 (unsplit catsdogs_loader 256 256 3 [1; 0; 0]),
             Dataset.skip 2 (unsplit catsdogs_loader 256 256 3 [1; 0; 0]),
             info'), h3) ∧
    Heap.deref h3 info'
      = Heap.deref (<[2%positive := <["num_classes" := 2]> (initial_info 256 256 3)]>
                      (Heap.update catsdogs_heap 1%positive "num_classes" 2)) 2%positive.
Proof.
  refine (proj2 (proj2 (proj2 (proj2
            (load_returns_copy catsdogs_loader catsdogs catsdogs_heap _ 2%positive _ _))))
          ∅).
  vm_compute. reflexivity.
Defined.

(** ** The driver *)

Lemma new_OriginalDatasetLoader_unexpected_keyword dataset_path v k x fs h :
  k ∉ __init___parameters.*1 →
  new_OriginalDatasetLoader [Str dataset_path; Flt v] [(k, x)] fs h
  = Raise (TypeError ("__init__() got an unexpected keyword argument '" +:+ k +:+ "'")).
Proof.
  intros Hk. unfold new_OriginalDatasetLoader, bind_arguments. simpl.
  by rewrite bool_decide_eq_false_2.
Qed.

Lemma new_OriginalDatasetLoader_positional dataset_path v fs h :
  new_OriginalDatasetLoader [Str dataset_path; Flt v] [] fs h
  = __init__ dataset_path v 256 256 3 fs h.
Proof. reflexivity. Qed.

(** C5 does not hold of the code. Whenever the driver reaches the directory
    branch, its call of [OriginalDatasetLoader] passes the keyword
    [output_label_dict_path], which [__init__] does not have, and the call
    raises [TypeError]; no loader is constructed and [load] is not called.
    The same call without that keyword is accepted. *)
Theorem driver_call_rejected_by_loader exe_dir dataset_name original_dataset_path
    valid_per_train model_type fs ratio
    (Hname : truthy dataset_name = false)
    (Hpath : truthy original_dataset_path = true)
    (Hratio : train_ratio valid_per_train = Ok ratio) :
  main exe_dir dataset_name original_dataset_path valid_per_train model_type fs
  = ([OriginalDatasetLoader_call
        [Str (default "" original_dataset_path); Flt valid_per_train]
        [("output_label_dict_path",
          Str (os_path_join (os_path_join exe_dir [".."; "models"])
                            [model_type +:+ "_label_dict.csv"]))]],
     Raise (TypeError "__init__() got an unexpected keyword argument 'output_label_dict_path'")) ∧
  new_OriginalDatasetLoader [Str (default "" original_dataset_path); Flt valid_per_train] [] fs ∅
  = __init__ (default "" original_dataset_path) valid_per_train 256 256 3 fs ∅.
Proof.
  split; [|apply new_OriginalDatasetLoader_positional].
  unfold main. rewrite Hratio, Hname, Hpath.
  rewrite new_OriginalDatasetLoader_unexpected_keyword; [done|].
  apply (bool_decide_unpack _). vm_compute. exact I.
Qed.

Lemma driver_call_rejected_by_loader_witness :
  main "/repo/scripts" None (Some "catsdogs") Float.f0_2 "SimpleCNN" catsdogs
  = ([OriginalDatasetLoader_call
        [Str "catsdogs"; Flt Float.f0_2]
        [("output_label_dict_path", Str "/repo/scripts/../models/SimpleCNN_label_dict.csv")]],
     Raise (TypeError "__init__() got an unexpected keyword argument 'output_label_dict_path'")).
Proof.
  refine (proj1 (driver_call_rejected_by_loader "/repo/scripts" None (Some "catsdogs")
                   Float.f0_2 "SimpleCNN" catsdogs 80 _ _ _)); reflexivity.
Defined.

(** C7, as stated, fails: with both a dataset name and a directory path the
    driver raises nothing and loads the named dataset. *)
Lemma both_sources_is_not_an_error :
  main "/repo/scripts" (Some "mnist") (Some "catsdogs") Float.f0_2 "SimpleCNN" catsdogs
  = ([tfds_load "mnist" ["train[:80%]"; "train[80%:]"]],
     Ok (from_catalogue "mnist" ["train[:80%]"; "train[80%:]"])).
Proof. vm_compute. reflexivity. Qed.

(** C7, amended. With neither source the driver raises before it calls
    either dataset source, and what it raises is the [AssertionError]
    "The dataset is not specified correctly." unless the conversion of
    [valid_per_train] on the line before has already raised. With both
    sources nothing is raised for that: the dataset name takes precedence,
    the named dataset is requested and the directory path is ignored. *)
Theorem dataset_source_selection exe_dir dataset_name original_dataset_path
    valid_per_train model_type fs :
  (truthy dataset_name = false → truthy original_dataset_path = false →
   ∃ e, main exe_dir dataset_name original_dataset_path valid_per_train model_type fs
        = ([], Raise e) ∧
        (succeeds (train_ratio valid_per_train) →
         e = AssertionError "The dataset is not specified correctly.")) ∧
  (truthy dataset_name = true → truthy original_dataset_path = true →
   ∀ ratio, train_ratio valid_per_train = Ok ratio →
   ∃ name split,
     dataset_name = Some name ∧
     split = ["train[:" +:+ pretty ratio +:+ "%]"; "train[" +:+ pretty ratio +:+ "%:]"] ∧
     main exe_dir dataset_name original_dataset_path valid_per_train model_type fs
     = ([tfds_load name split], Ok (from_catalogue name split))).
Proof.
  split.
  - intros Hname Hpath. unfold main. rewrite Hname, Hpath.
    destruct (train_ratio valid_per_train) as [ratio|e]; simpl.
    + eexists. split; [done|done].
    + exists e. split; [done|]. intros [].
  - intros Hname _ ratio Hratio. unfold main. rewrite Hratio, Hname.
    destruct dataset_name as [name|]; [|done]. by eexists _, _.
Qed.

Lemma dataset_source_selection_witness :
  ∃ e, main "/repo/scripts" None None Float.f0_2 "SimpleCNN" catsdogs = ([], Raise e) ∧
       (succeeds (train_ratio Float.f0_2) →
        e = AssertionError "The dataset is not specified correctly.").
Proof.
  refine (proj1 (dataset_source_selection "/repo/scripts" None None Float.f0_2
                   "SimpleCNN" catsdogs) _ _); reflexivity.
Defined.

(** ** Binary64 arithmetic *)

Lemma iter_pos_nat {A} (f : A → A) p x :
  SpecFloat.iter_pos f p x = Nat.iter (Pos.to_nat p) f x.
Proof.
  revert x. induction p as [p IH|p IH|]; intros x; cbn [SpecFloat.iter_pos].
  - rewrite !IH, Pos2Nat.inj_xI.
    replace (S (2 * Pos.to_nat p)) with (Pos.to_nat p + Pos.to_nat p + 1)%nat by lia.
    by rewrite !Nat.iter_add.
  - rewrite !IH, Pos2Nat.inj_xO.
    replace (2 * Pos.to_nat p)%nat with (Pos.to_nat p + Pos.to_nat p)%nat by lia.
    by rewrite Nat.iter_add.
  - done.
Qed.

Lemma pos_iter_xO m d : Z.pos (Pos.iter xO m d) = Z.pos m * 2 ^ Z.pos d.
Proof.
  induction d as [|d IH] using Pos.peano_ind.
  - simpl. lia.
  - rewrite Pos.iter_succ, (Pos2Z.inj_xO (Pos.iter _ _ _)), IH, Pos2Z.inj_succ, Z.pow_succ_r by lia. lia.
Qed.

Lemma pow2_pos k : 0 < 2 ^ k ↔ 0 ≤ k.
Proof.
  split.
  - intros H. destruct (Z.neg_nonneg_cases k) as [Hk|Hk]; [|done].
    rewrite Z.pow_neg_r in H by done. lia.
  - intros. by apply Z.pow_pos_nonneg.
Qed.

Lemma pow2_split a b : 0 ≤ a → 0 ≤ b → 2 ^ (a + b) = 2 ^ a * 2 ^ b.
Proof. intros. by apply Z.pow_add_r. Qed.

Lemma pow2_le a b : 0 ≤ a ≤ b → 2 ^ a ≤ 2 ^ b.
Proof. intros. apply Z.pow_le_mono_r; lia. Qed.

Lemma pow2_lt a b : 0 ≤ a < b → 2 ^ a < 2 ^ b.
Proof. intros. apply Z.pow_lt_mono_r; lia. Qed.

Lemma pow2_lt_inv a b : 0 ≤ b → 2 ^ a < 2 ^ b → a < b.
Proof.
  intros Hb Hlt. destruct (Z.lt_ge_cases a b) as [|Hge]; [done|].
  pose proof (pow2_le b a). lia.
Qed.

(** The number of binary digits of a mantissa. *)
Lemma digits_bounds m :
  2 ^ (Z.pos (digits2_pos m) - 1) ≤ Z.pos m < 2 ^ Z.pos (digits2_pos m).
Proof.
  induction m as [m IH|m IH|]; simpl digits2_pos.
  - rewrite Pos2Z.inj_succ, (Pos2Z.inj_xI m).
    replace (Z.succ (Z.pos (digits2_pos m)) - 1) with (Z.succ (Z.pos (digits2_pos m) - 1)) by lia.
    rewrite !Z.pow_succ_r by lia. lia.
  - rewrite Pos2Z.inj_succ, (Pos2Z.inj_xO m).
    replace (Z.succ (Z.pos (digits2_pos m)) - 1) with (Z.succ (Z.pos (digits2_pos m) - 1)) by lia.
    rewrite !Z.pow_succ_r by lia. lia.
  - simpl. lia.
Qed.

Lemma digits_le m k : 0 ≤ k → Z.pos m < 2 ^ k → Z.pos (digits2_pos m) ≤ k.
Proof.
  intros Hk Hm. pose proof (digits_bounds m) as [Hlo _].
  assert (2 ^ (Z.pos (digits2_pos m) - 1) < 2 ^ k) as Hlt%pow2_lt_inv by lia; lia.
Qed.

Lemma digits_ge m k : 2 ^ k ≤ Z.pos m → k < Z.pos (digits2_pos m).
Proof.
  intros Hm. pose proof (digits_bounds m) as [_ Hhi].
  assert (2 ^ k < 2 ^ Z.pos (digits2_pos m)) as Hlt%pow2_lt_inv by lia; lia.
Qed.

(** One right shift of a non-negative mantissa with its round and sticky
    bits. *)
Lemma shr_1_nonneg m r s :
  0 ≤ m →
  shr_1 {| shr_m := m; shr_r := r; shr_s := s |}
  = {| shr_m := m / 2; shr_r := Z.odd m; shr_s := r || s |}.
Proof.
  intros Hm. destruct m as [|[p|p|]|p]; try lia; simpl; f_equal.
  - rewrite (Pos2Z.inj_xI p). apply (Z.div_unique _ 2 _ 1); lia.
  - rewrite (Pos2Z.inj_xO p). apply (Z.div_unique _ 2 _ 0); lia.
Qed.

Lemma shr_iter_nat (n : nat) m :
  0 ≤ m →
  shr_m (Nat.iter n shr_1 {| shr_m := m; shr_r := false; shr_s := false |})
    = m / 2 ^ Z.of_nat n ∧
  (loc_of_shr_record (Nat.iter n shr_1 {| shr_m := m; shr_r := false; shr_s := false |})
     ≠ loc_Exact → m mod 2 ^ Z.of_nat n ≠ 0).
Proof.
  intros Hm. induction n as [|n [IHm IHrs]].
  - split; [by rewrite Z.div_1_r | done].
  - rewrite Nat.iter_succ.
    destruct (Nat.iter n shr_1 _) as [mn r s]. cbn [shr_m] in IHm.
    assert (0 < 2 ^ Z.of_nat n) as Hpow by (apply pow2_pos; lia).
    assert (0 ≤ mn) as Hmn by (subst mn; apply Z.div_pos; lia).
    rewrite shr_1_nonneg by done. cbn [shr_m].
    rewrite Nat2Z.inj_succ, Z.pow_succ_r by lia.
    split.
    + subst mn. rewrite Z.div_div by lia. f_equal. lia.
    + intros Hrs. rewrite (Z.mul_comm 2), Z.rem_mul_r by lia.
      rewrite <- IHm.
      pose proof (Z.mod_pos_bound m (2 ^ Z.of_nat n) Hpow) as Hmod.
      rewrite Zmod_odd. destruct (Z.odd mn) eqn:Hodd; [lia|].
      assert (m mod 2 ^ Z.of_nat n ≠ 0); [|lia].
      apply IHrs. simpl in Hrs. by destruct r, s.
Qed.

Lemma fexp_binary64 e : fexp Float.prec Float.emax e = Z.max (e - 53) (-1074).
Proof. reflexivity. Qed.

Lemma shr_fexp_spec m e :
  0 ≤ m →
  let n := Z.max 0 (fexp Float.prec Float.emax (Zdigits2 m + e) - e) in
  ∃ mrs, shr_fexp Float.prec Float.emax m e loc_Exact = (mrs, e + n) ∧
         shr_m mrs = m / 2 ^ n ∧
         (loc_of_shr_record mrs ≠ loc_Exact → m mod 2 ^ n ≠ 0).
Proof.
  intros Hm n. unfold shr_fexp, shr. cbn [shr_record_of_loc].
  subst n. destruct (fexp Float.prec Float.emax (Zdigits2 m + e) - e) as [|p|p] eqn:Hn.
  - eexists. split; [f_equal; lia|]. cbn. rewrite Z.div_1_r. done.
  - rewrite iter_pos_nat. eexists. split; [f_equal; lia|].
    rewrite Z.max_r by lia. rewrite <- (positive_nat_Z p).
    by apply shr_iter_nat.
  - eexists. split; [f_equal; lia|]. cbn. rewrite Z.div_1_r. done.
Qed.

Lemma round_nearest_even_bounds mrs :
  shr_m mrs ≤ round_nearest_even (shr_m mrs) (loc_of_shr_record mrs) ≤ shr_m mrs + 1 ∧
  (loc_of_shr_record mrs = loc_Exact →
   round_nearest_even (shr_m mrs) (loc_of_shr_record mrs) = shr_m mrs).
Proof.
  destruct mrs as [m [] []]; cbn; try destruct (Z.even m); split; (lia || done).
Qed.

Lemma Zdigits2_nonneg_bounds m :
  0 < m → 2 ^ (Zdigits2 m - 1) ≤ m < 2 ^ Zdigits2 m.
Proof. destruct m as [|p|p]; try lia. intros _. apply digits_bounds. Qed.

(** The result of rounding a positive mantissa: the mantissa is shifted by
    [n] places, moved to one of the two neighbouring integers (and kept when
    nothing is lost in the shift), and renormalised without loss. *)
Lemma binary_round_aux_spec s (m : positive) e :
  let n := Z.max 0 (fexp Float.prec Float.emax (Z.pos (digits2_pos m) + e) - e) in
  let q := Z.pos m / 2 ^ n in
  ∃ m2 n2 m3,
    q ≤ m2 ≤ q + 1 ∧ (Z.pos m mod 2 ^ n = 0 → m2 = q) ∧
    0 ≤ n2 ∧ m3 * 2 ^ n2 = m2 ∧
    binary_round_aux Float.prec Float.emax s (Z.pos m) e loc_Exact =
      match m3 with
      | Z0 => S754_zero s
      | Z.pos p =>
          if e + n + n2 <=? Float.emax - Float.prec
          then S754_finite s p (e + n + n2) else S754_infinity s
      | Z.neg _ => S754_nan
      end.
Proof.
  intros n q. unfold binary_round_aux.
  pose proof (shr_fexp_spec (Z.pos m) e) as Hs. cbv zeta in Hs. cbn [Zdigits2] in Hs.
  fold n in Hs. fold q in Hs.
  destruct Hs as (mrs & -> & Hq & Hloc); [lia|].
  pose proof (round_nearest_even_bounds mrs) as [Hm2 Hexact].
  set (m2 := round_nearest_even (shr_m mrs) (loc_of_shr_record mrs)) in *.
  assert (0 ≤ n) as Hn by (subst n; lia).
  assert (0 < 2 ^ n) as Hpow by (by apply pow2_pos).
  assert (0 ≤ q) as Hq0 by (subst q; apply Z.div_pos; lia).
  destruct (shr_fexp_spec m2 (e + n)) as (mrs2 & -> & Hm3 & _); [lia|].
  set (n2 := Z.max 0 (fexp Float.prec Float.emax (Zdigits2 m2 + (e + n)) - (e + n))) in *.
  exists m2, n2, (shr_m mrs2).
  assert (Z.pos m mod 2 ^ n = 0 → m2 = q) as Hex.
  { intros Hmod. rewrite <- Hq. apply Hexact.
    destruct (loc_of_shr_record mrs) eqn:Hl; [done|]. by destruct Hloc. }
  split; [lia|]. split; [done|]. split; [subst n2; lia|]. split; [|done].
  rewrite Hm3.
  destruct (Z.eq_dec n2 0) as [->|Hn2]; [rewrite Z.div_1_r; lia|].
  assert (0 < n2) as Hn2pos by (subst n2; lia).
  (* a second shift happens only after a carry into bit 53 *)
  assert (0 < n) as Hnpos.
  { destruct (Z.eq_dec n 0) as [Hn0|]; [|lia]. exfalso.
    assert (m2 = Z.pos m) as Hm2eq.
    { rewrite Hex; [|rewrite Hn0; apply Z.mod_1_r]. subst q. rewrite Hn0. apply Z.div_1_r. }
    subst n2. rewrite Hm2eq, Hn0, Z.add_0_r in Hn2pos. cbn [Zdigits2] in Hn2pos.
    subst n. lia. }
  assert (n = fexp Float.prec Float.emax (Z.pos (digits2_pos m) + e) - e) as Hneq
    by (subst n; lia).
  rewrite fexp_binary64 in Hneq.
  assert (q < 2 ^ 53) as Hq53.
  { subst q. apply Z.div_lt_upper_bound; [lia|].
    pose proof (digits_bounds m) as [_ Hd].
    destruct (Z.le_gt_cases (Z.pos (digits2_pos m)) n) as [Hdn|Hdn].
    - pose proof (pow2_le (Z.pos (digits2_pos m)) n). 
      assert (1 ≤ 2 ^ 53) by (apply Z.pow_le_mono_r with (b := 0); lia). nia.
    - rewrite <- pow2_split by lia.
      pose proof (pow2_le (Z.pos (digits2_pos m)) (n + 53)). lia. }
  assert (0 < m2) as Hm2pos.
  { destruct (Z.le_gt_cases m2 0) as [Hle|]; [|done]. exfalso.
    assert (m2 = 0) as Hz by lia. subst n2. rewrite Hz in Hn2pos. cbn [Zdigits2] in Hn2pos.
    rewrite fexp_binary64 in Hn2pos. lia. }
  pose proof (Zdigits2_nonneg_bounds m2 Hm2pos) as [Hd2lo Hd2hi].
  assert (53 < Zdigits2 m2) as Hd2.
  { subst n2. rewrite fexp_binary64 in Hn2pos. lia. }
  assert (m2 = 2 ^ 53) as Hcarry.
  { pose proof (pow2_le 53 (Zdigits2 m2 - 1)). lia. }
  assert (Zdigits2 m2 = 54) as Hd54.
  { assert (2 ^ 53 < 2 ^ 54) by (apply pow2_lt; lia).
    assert (Zdigits2 m2 - 1 < 54) by (apply pow2_lt_inv; lia).
    lia. }
  assert (n2 = 1) as -> by (subst n2; rewrite Hd54, fexp_binary64; lia).
  rewrite Hcarry. reflexivity.
Qed.

Lemma pow2_divide a b : 0 ≤ a ≤ b → (2 ^ a | 2 ^ b).
Proof.
  intros. exists (2 ^ (b - a)). rewrite <- pow2_split by lia. f_equal. lia.
Qed.

(** Rounding does not cross a number that is representable at the
    precision of the result: when the exact value [m * 2 ^ e] lies between
    two multiples [lo] and [hi] of [2 ^ E], with [E] at least the exponent
    the result will have, so does the rounded value, which is finite. *)
Lemma binary_round_aux_between K s (m : positive) e E lo hi :
  0 ≤ e + K → e ≤ E → -1074 ≤ E ≤ 919 →
  (2 ^ (E + K) | lo) → (2 ^ (E + K) | hi) →
  lo ≤ Z.pos m * 2 ^ (e + K) ≤ hi → hi < 2 ^ (E + 53 + K) →
  let r := binary_round_aux Float.prec Float.emax s (Z.pos m) e loc_Exact in
  lo ≤ mag K r ≤ hi ∧ exponent_in e (E + 53) r ∧
  (r = S754_zero s ∨ ∃ m' e', r = S754_finite s m' e').
Proof.
  intros HK HeE HE Hlo Hhi [Hlom Hmhi] Hhi53 r. subst r.
  destruct (binary_round_aux_spec s m e) as (m2 & n2 & m3 & Hm2 & Hex & Hn2 & Hm3 & ->).
  set (d := Z.pos (digits2_pos m)) in *.
  set (n := Z.max 0 (fexp Float.prec Float.emax (d + e) - e)) in *.
  set (q := Z.pos m / 2 ^ n) in *.
  assert (0 ≤ n) as Hn by (subst n; lia).
  assert (0 < 2 ^ n) as Hpn by (by apply pow2_pos).
  assert (0 < 2 ^ n2) as Hpn2 by (by apply pow2_pos).
  assert (0 < 2 ^ (e + K)) as HpeK by (by apply pow2_pos).
  pose proof (digits_bounds m) as [Hdlo Hdhi]. fold d in Hdlo, Hdhi.
  (* the exponent of the result is at most [E] *)
  assert (d + e - 53 ≤ E) as HdE.
  { assert (2 ^ (d - 1 + (e + K)) < 2 ^ (E + 53 + K)) as Hlt%pow2_lt_inv; [|lia..].
    rewrite pow2_split by lia. nia. }
  assert (e + n ≤ E) as HnE by (subst n; rewrite fexp_binary64; lia).
  assert (0 < 2 ^ (e + n + K)) as HpenK by (apply pow2_pos; lia).
  assert (2 ^ (e + n + K) = 2 ^ n * 2 ^ (e + K)) as Hsplit
    by (rewrite <- pow2_split by lia; f_equal; lia).
  (* the bounds, in units of the result *)
  destruct Hlo as [l Hl]. destruct Hhi as [h Hh].
  destruct (pow2_divide (e + n + K) (E + K)) as [c Hc]; [lia|].
  assert (0 < c) as Hcpos by (assert (0 < 2 ^ (E + K)) by (apply pow2_pos; lia); nia).
  assert (l * c ≤ q) as Hlq.
  { subst q. apply Z.div_le_lower_bound; [lia|]. 
    apply (Z.mul_le_mono_pos_r _ _ (2 ^ (e + K))); [lia|]. 
    rewrite Hl, Hc, Hsplit in Hlom. lia. }
  assert (m2 ≤ h * c) as Hm2h.
  { assert (Z.pos m ≤ h * c * 2 ^ n) as Hmh.
    { apply (Z.mul_le_mono_pos_r _ _ (2 ^ (e + K))); [lia|]. 
      rewrite Hh, Hc, Hsplit in Hmhi. lia. }
    destruct (Z.eq_dec (Z.pos m mod 2 ^ n) 0) as [Hz|Hnz].
    - rewrite (Hex Hz). subst q. apply Z.div_le_upper_bound; lia.
    - assert (q < h * c); [|lia]. subst q. apply Z.div_lt_upper_bound; [lia|].
      assert (Z.pos m ≠ h * c * 2 ^ n); [|lia].
      intros Heq. rewrite Heq, Z.mod_mul in Hnz; lia. }
  assert (0 ≤ q) as Hq0 by (subst q; apply Z.div_pos; lia).
  assert (0 ≤ m3) as Hm3pos by (apply (Z.mul_nonneg_cancel_r _ (2 ^ n2)); lia).
  assert (2 ^ (e + n + n2 + K) = 2 ^ n2 * 2 ^ (e + n + K)) as Hsplit2
    by (rewrite <- pow2_split by lia; f_equal; lia).
  assert (m3 * 2 ^ (e + n + n2 + K) = m2 * 2 ^ (e + n + K)) as Hval
    by (rewrite Hsplit2, <- Hm3; lia).
  assert (lo ≤ m3 * 2 ^ (e + n + n2 + K) ≤ hi) as Hbounds.
  { rewrite Hval, Hl, Hh, Hc. split.
    - transitivity (l * c * 2 ^ (e + n + K)); [lia|]. apply Z.mul_le_mono_nonneg_r; lia.
    - transitivity (h * c * 2 ^ (e + n + K)); [|lia]. apply Z.mul_le_mono_nonneg_r; lia. }
  destruct m3 as [|p|p]; [| |lia].
  - cbn [mag exponent_in]. split; [lia|]. split; [done|]. by left.
  - assert (e + n + n2 < E + 53) as Hexp.
    { assert (2 ^ (e + n + n2 + K) < 2 ^ (E + 53 + K)) as Hlt%pow2_lt_inv; [|lia..].
      assert (0 < 2 ^ (e + n + n2 + K)) by (apply pow2_pos; lia). nia. }
    assert ((e + n + n2 <=? Float.emax - Float.prec) = true) as ->
      by (apply Z.leb_le; unfold Float.emax, Float.prec; lia).
    cbn [mag exponent_in]. split; [lia|]. split; [lia|]. right. eauto.
Qed.

Lemma shl_align_spec (m : positive) e e' :
  ∃ mz ez, shl_align m e e' = (mz, ez) ∧ ez = Z.min e e' ∧
           Z.pos mz = Z.pos m * 2 ^ (e - ez).
Proof.
  unfold shl_align. destruct (e' - e) as [|d|d] eqn:Hd.
  - exists m, e. split; [done|]. split; [lia|]. rewrite Z.sub_diag. lia.
  - exists m, e. split; [done|]. split; [lia|]. rewrite Z.sub_diag. lia.
  - eexists _, e'. split; [done|]. split; [lia|]. rewrite pos_iter_xO. f_equal. f_equal. lia.
Qed.

(** The same for [binary_round], which first aligns the mantissa. *)
Lemma binary_round_between K s (m : positive) e E lo hi :
  1074 ≤ K → 0 ≤ e + K → e ≤ E → -1074 ≤ E ≤ 919 →
  (2 ^ (E + K) | lo) → (2 ^ (E + K) | hi) →
  lo ≤ Z.pos m * 2 ^ (e + K) ≤ hi → hi < 2 ^ (E + 53 + K) →
  let r := binary_round Float.prec Float.emax s m e in
  lo ≤ mag K r ≤ hi ∧ exponent_in (Z.min e (-1074)) (E + 53) r ∧
  (r = S754_zero s ∨ ∃ m' e', r = S754_finite s m' e').
Proof.
  intros HK HeK HeE HE Hlo Hhi Hm Hhi53 r. subst r. unfold binary_round.
  destruct (shl_align_spec m e (fexp Float.prec Float.emax (Z.pos (digits2_pos m) + e)))
    as (mz & ez & -> & Hez & Hmz).
  rewrite fexp_binary64 in Hez.
  assert (0 ≤ e - ez) by lia.
  assert (Z.pos mz * 2 ^ (ez + K) = Z.pos m * 2 ^ (e + K)) as Hval.
  { rewrite Hmz, <- Z.mul_assoc, <- pow2_split by lia. do 2 f_equal. lia. }
  rewrite <- Hval in Hm.
  destruct (binary_round_aux_between K s mz ez E lo hi) as (Hmag & Hexp & Hr);
    [lia..|done|done|done|done|].
  split; [done|]. split; [|done].
  destruct (binary_round_aux _ _ _ _ _ _); try done. cbn [exponent_in] in *. lia.
Qed.

(** What [valid] says about a finite float. *)
Lemma valid_finite s m e :
  Float.valid (S754_finite s m e) = true →
  -1074 ≤ e ≤ 971 ∧ Z.pos m < 2 ^ 53 ∧ (2 ^ 52 ≤ Z.pos m ∨ e = -1074).
Proof.
  unfold Float.valid, valid_binary, bounded, canonical_mantissa.
  rewrite andb_true_iff, Z.eqb_eq, Z.leb_le, fexp_binary64.
  unfold Float.emax, Float.prec. intros [Hcanon Hmax].
  pose proof (digits_bounds m) as [Hlo Hhi].
  split; [lia|]. split.
  - pose proof (pow2_le (Z.pos (digits2_pos m)) 53). lia.
  - destruct (Z.eq_dec e (-1074)) as [|Hne]; [by right|left].
    assert (Z.pos (digits2_pos m) = 53) as Hd by lia. by rewrite Hd in Hlo.
Qed.

Lemma next_binade_lt a b c k p :
  0 < p → 1 ≤ k → 0 < a → a < 2 * b → b ≤ c → a * p < c * (k * (2 * p)).
Proof.
  intros Hp Hk Ha Hab Hbc.
  assert (a * p < 2 * b * p) by (apply Z.mul_lt_mono_pos_r; lia).
  assert (c * (1 * (2 * p)) ≤ c * (k * (2 * p))).
  { apply Z.mul_le_mono_nonneg_l; [lia|]. apply Z.mul_le_mono_nonneg_r; lia. }
  assert (2 * b * p ≤ 2 * c * p) by (apply Z.mul_le_mono_nonneg_r; lia).
  lia.
Qed.

(** On valid positive floats [SFcompare] is the order of the values. *)
Lemma compare_valid_pos K m1 e1 m2 e2 :
  1074 ≤ K →
  Float.valid (S754_finite false m1 e1) = true →
  Float.valid (S754_finite false m2 e2) = true →
  SFcompare (S754_finite false m1 e1) (S754_finite false m2 e2)
  = Some (Z.pos m1 * 2 ^ (e1 + K) ?= Z.pos m2 * 2 ^ (e2 + K)).
Proof.
  intros HK (He1 & Hm1 & Hn1)%valid_finite (He2 & Hm2 & Hn2)%valid_finite.
  cbn [SFcompare]. f_equal.
  assert (0 < 2 ^ (e1 + K)) as Hp1 by (apply pow2_pos; lia).
  assert (0 < 2 ^ (e2 + K)) as Hp2 by (apply pow2_pos; lia).
  destruct (Z.compare_spec e1 e2) as [->|Hlt|Hgt].
  - change (Pos.compare_cont Eq m1 m2) with (Z.pos m1 ?= Z.pos m2).
    apply Zmult_compare_compat_r. lia.
  - symmetry. apply Z.compare_lt_iff.
    destruct Hn2 as [Hn2|]; [|lia].
    assert (2 ^ (e2 + K) = 2 ^ (e2 - e1 - 1) * (2 * 2 ^ (e1 + K))) as ->.
    { rewrite <- Z.pow_succ_r, <- pow2_split by lia. f_equal. lia. }
    assert (1 ≤ 2 ^ (e2 - e1 - 1)) by (assert (0 < 2 ^ (e2 - e1 - 1)) by (apply pow2_pos; lia); lia).
    change (2 ^ 53) with (2 * 2 ^ 52) in Hm1. apply (next_binade_lt _ (2 ^ 52)); lia.
  - symmetry. apply Z.compare_gt_iff.
    destruct Hn1 as [Hn1|]; [|lia].
    assert (2 ^ (e1 + K) = 2 ^ (e1 - e2 - 1) * (2 * 2 ^ (e2 + K))) as ->.
    { rewrite <- Z.pow_succ_r, <- pow2_split by lia. f_equal. lia. }
    assert (1 ≤ 2 ^ (e1 - e2 - 1)) by (assert (0 < 2 ^ (e1 - e2 - 1)) by (apply pow2_pos; lia); lia).
    change (2 ^ 53) with (2 * 2 ^ 52) in Hm2. apply (next_binade_lt _ (2 ^ 52)); lia.
Qed.

Lemma leb_valid_pos K m1 e1 m2 e2 :
  1074 ≤ K →
  Float.valid (S754_finite false m1 e1) = true →
  Float.valid (S754_finite false m2 e2) = true →
  Float.leb (S754_finite false m1 e1) (S754_finite false m2 e2) = true ↔
  Z.pos m1 * 2 ^ (e1 + K) ≤ Z.pos m2 * 2 ^ (e2 + K).
Proof.
  intros HK H1 H2. unfold Float.leb, SFleb. rewrite (compare_valid_pos K) by done.
  destruct (Z.compare_spec (Z.pos m1 * 2 ^ (e1 + K)) (Z.pos m2 * 2 ^ (e2 + K)));
    split; (done || lia).
Qed.

Lemma ltb_valid_pos K m1 e1 m2 e2 :
  1074 ≤ K →
  Float.valid (S754_finite false m1 e1) = true →
  Float.valid (S754_finite false m2 e2) = true →
  Float.ltb (S754_finite false m1 e1) (S754_finite false m2 e2) = true ↔
  Z.pos m1 * 2 ^ (e1 + K) < Z.pos m2 * 2 ^ (e2 + K).
Proof.
  intros HK H1 H2. unfold Float.ltb, SFltb. rewrite (compare_valid_pos K) by done.
  destruct (Z.compare_spec (Z.pos m1 * 2 ^ (e1 + K)) (Z.pos m2 * 2 ^ (e2 + K)));
    split; (done || lia).
Qed.

(** A fraction: a valid float between 0 and 1. It is a zero or a positive
    float of value at most 1. *)
Lemma fraction_cases K f :
  1074 ≤ K →
  Float.valid f = true → Float.leb Float.zero f = true → Float.leb f Float.one = true →
  (∃ s, f = S754_zero s) ∨
  ∃ m e, f = S754_finite false m e ∧ -1074 ≤ e ≤ -52 ∧ Z.pos m * 2 ^ (e + K) ≤ 2 ^ K.
Proof.
  intros HK Hvalid H0 H1. destruct f as [s|s| |s m e]; try done.
  - left. eauto.
  - by destruct s.
  - right. destruct s; [done|]. exists m, e. split; [done|].
    apply (leb_valid_pos K) in H1; [|done..].
    apply valid_finite in Hvalid as (He & Hm & Hn).
    assert (Z.pos m * 2 ^ (e + K) ≤ 2 ^ K) as Hle.
    { etrans; [exact H1|]. change (Z.pos 4503599627370496) with (2 ^ 52).
      rewrite <- pow2_split by lia. apply Z.eq_le_incl. f_equal. lia. }
    split; [|done]. split; [lia|].
    destruct Hn as [Hn|]; [|lia].
    destruct (Z.le_gt_cases e (-52)) as [|Hgt]; [done|]. exfalso.
    assert (2 ^ (K + 1) ≤ 2 ^ 52 * 2 ^ (e + K)) as Hpow
      by (rewrite <- pow2_split by lia; apply pow2_le; lia).
    assert (2 ^ K < 2 ^ (K + 1)) by (apply pow2_lt; lia).
    assert (0 < 2 ^ (e + K)) by (apply pow2_pos; lia).
    assert (2 ^ 52 * 2 ^ (e + K) ≤ Z.pos m * 2 ^ (e + K))
      by (apply Z.mul_le_mono_nonneg_r; lia).
    lia.
Qed.


(** The conversion of a positive integer below [2 ^ 53] is exact. *)
Lemma of_int_exact K N :
  1074 ≤ K → 0 < N < 2 ^ 53 →
  ∃ m e, Float.of_int N = Ok (S754_finite false m e) ∧
         Z.pos m * 2 ^ (e + K) = N * 2 ^ K ∧ -1074 ≤ e < 53.
Proof.
  intros HK HN. destruct N as [|p|p]; try lia.
  unfold Float.of_int. cbn [binary_normalize].
  destruct (binary_round_between K false p 0 0 (Z.pos p * 2 ^ K) (Z.pos p * 2 ^ K))
    as (Hmag & Hexp & Hr); [lia|lia|lia|lia|..].
  - rewrite Z.add_0_l. by apply Z.divide_factor_r.
  - rewrite Z.add_0_l. by apply Z.divide_factor_r.
  - rewrite Z.add_0_l. lia.
  - rewrite Z.add_0_l, pow2_split by lia. apply Z.mul_lt_mono_pos_r; [apply pow2_pos|]; lia.
  - assert (0 < 2 ^ K) by (apply pow2_pos; lia).
    destruct Hr as [Hr|(m' & e' & Hr)]; rewrite Hr in Hmag, Hexp |- *; cbn in Hmag, Hexp.
    + nia.
    + exists m', e'. split; [done|]. split; lia.
Qed.

Lemma of_int_zero : Float.of_int 0 = Ok (S754_zero false).
Proof. reflexivity. Qed.

(** The product of two finite floats, between two representable bounds. *)
Lemma mul_between K sx mx ex sy my ey E lo hi :
  0 ≤ ex + K → 0 ≤ ey + K → ex + ey ≤ E → -1074 ≤ E ≤ 919 →
  (2 ^ (E + (K + K)) | lo) → (2 ^ (E + (K + K)) | hi) →
  lo ≤ (Z.pos mx * 2 ^ (ex + K)) * (Z.pos my * 2 ^ (ey + K)) ≤ hi →
  hi < 2 ^ (E + 53 + (K + K)) →
  let r := Float.mul (S754_finite sx mx ex) (S754_finite sy my ey) in
  lo ≤ mag (K + K) r ≤ hi ∧ exponent_in (ex + ey) (E + 53) r ∧
  (r = S754_zero (xorb sx sy) ∨ ∃ m' e', r = S754_finite (xorb sx sy) m' e').
Proof.
  intros Hx Hy HE HE' Hlo Hhi Hval Hhi53. unfold Float.mul. cbn [SFmul].
  apply binary_round_aux_between; try done; try lia.
  rewrite Pos2Z.inj_mul.
  replace (ex + ey + (K + K)) with ((ex + K) + (ey + K)) by lia.
  rewrite pow2_split by lia. lia.
Qed.

(** [int] and the floor of a non-negative float, from its magnitude. *)
Lemma to_int_mag K x :
  0 ≤ K → sign x = false → Float.is_finite x = true → exponent_in (- K) (K + 1) x →
  Float.to_int x = Ok (mag K x / 2 ^ K) ∧ Float.floor x = mag K x / 2 ^ K.
Proof.
  intros HK Hs Hfin Hexp. destruct x as [s|s| |s m e]; try done.
  cbn in Hs, Hexp. subst s. cbn [Float.to_int Float.floor mag cond_Zopp].
  assert (0 < 2 ^ K) by (apply pow2_pos; lia).
  destruct (Z.leb_spec 0 e) as [He|He].
  - rewrite pow2_split, Z.mul_assoc, Z.div_mul by lia. done.
  - assert (2 ^ K = 2 ^ (- e) * 2 ^ (e + K)) as ->
      by (rewrite <- pow2_split by lia; f_equal; lia).
    rewrite Z.div_mul_cancel_r; [done| |]; apply Z.pow_nonzero; lia.
Qed.

Lemma exponent_in_weaken lo hi lo' hi' x :
  lo' ≤ lo → hi ≤ hi' → exponent_in lo hi x → exponent_in lo' hi' x.
Proof. destruct x; cbn; lia. Qed.

(** The train count for a fraction: the product is a finite non-negative
    float, [int] is its floor, and the count does not exceed the number of
    images. *)
Lemma num_train_fraction N f :
  Float.valid f = true →
  Float.leb Float.zero f = true → Float.leb f Float.one = true →
  0 ≤ N < 2 ^ 53 →
  ∃ product k,
    Float.int_mul N f = Ok product ∧ Float.to_int product = Ok k ∧
    k = Float.floor product ∧ 0 ≤ k ≤ N.
Proof.
  intros Hvalid H0 H1 HN.
  destruct (fraction_cases 1074 f) as [[s ->]|(mf & ef & -> & Hef & Hf)]; [lia|done..| |].
  - (* f is a zero *)
    destruct (Z.eq_dec N 0) as [->|HN0].
    + exists (S754_zero (xorb false s)), 0. by split_and!.
    + destruct (of_int_exact 1074 N) as (mN & eN & HofN & _); [lia..|].
      exists (S754_zero (xorb false s)), 0. unfold Float.int_mul. rewrite HofN.
      split_and!; (done || lia).
  - destruct (Z.eq_dec N 0) as [->|HN0].
    + exists (S754_zero (xorb false false)), 0. by split_and!.
    + destruct (of_int_exact 1074 N) as (mN & eN & HofN & HmN & HeN); [lia..|].
      unfold Float.int_mul. rewrite HofN. cbn [mbind result_bind].
      assert (0 < 2 ^ 1074) as Hp by (by apply pow2_pos).
      assert (0 < 2 ^ (ef + 1074)) as Hpf by (apply pow2_pos; lia).
      destruct (mul_between 1074 false mN eN false mf ef 0 0 (N * 2 ^ (1074 + 1074)))
        as (Hmag & Hexp & Hr); [lia|lia|lia|lia|..].
      * apply Z.divide_0_r.
      * rewrite Z.add_0_l. apply Z.divide_factor_r.
      * rewrite HmN. split; [lia|].
        transitivity (N * 2 ^ 1074 * 2 ^ 1074).
        -- apply Z.mul_le_mono_nonneg_l; lia.
        -- rewrite (pow2_split 1074 1074) by lia. lia.
      * rewrite Z.add_0_l, (pow2_split 53) by lia.
        apply Z.mul_lt_mono_pos_r; [apply pow2_pos|]; lia.
      * set (r := Float.mul _ _) in *.
        destruct (to_int_mag (1074 + 1074) r) as [Hint Hfloor].
        -- lia.
        -- by destruct Hr as [->|(m' & e' & ->)].
        -- by destruct Hr as [->|(m' & e' & ->)].
        -- eapply exponent_in_weaken; [| |exact Hexp]; lia.
        -- exists r, (mag (1074 + 1074) r / 2 ^ (1074 + 1074)).
           assert (0 < 2 ^ (1074 + 1074)) by (by apply pow2_pos).
           split; [done|]. split; [done|]. split; [done|]. split.
           ++ apply Z.div_pos; lia.
           ++ apply Z.div_le_upper_bound; lia.
Qed.

(** *** The two computations on either side of one half *)

Lemma of_int_100 : Float.of_int 100 = Ok hundred.
Proof. reflexivity. Qed.

Lemma of_int_1 : Float.of_int 1 = Ok Float.one.
Proof. reflexivity. Qed.

Lemma hundred_mag K : 0 ≤ K - 46 → Z.pos 7036874417766400 * 2 ^ (-46 + K) = 100 * 2 ^ K.
Proof.
  intros HK. change (Z.pos 7036874417766400) with (100 * 2 ^ 46).
  rewrite <- Z.mul_assoc, <- pow2_split by lia. do 2 f_equal. lia.
Qed.

(** A valid fraction is below, at or above one half. *)
Lemma fraction_trichotomy K m e :
  1074 ≤ K → Float.valid (S754_finite false m e) = true →
  (Float.ltb (S754_finite false m e) Float.half = true ∧
   Z.pos m * 2 ^ (e + K) < 2 ^ (K - 1)) ∨
  S754_finite false m e = Float.half ∨
  (Float.ltb Float.half (S754_finite false m e) = true ∧
   2 ^ (K - 1) < Z.pos m * 2 ^ (e + K)).
Proof.
  intros HK Hvalid.
  assert (Z.pos 4503599627370496 * 2 ^ (-53 + K) = 2 ^ (K - 1)) as Hhalf.
  { change (Z.pos 4503599627370496) with (2 ^ 52).
    rewrite <- pow2_split by lia. f_equal. lia. }
  assert (Float.valid Float.half = true) as Hvh by reflexivity.
  pose proof (compare_valid_pos K m e _ _ HK Hvalid Hvh) as Hcmp.
  pose proof (ltb_valid_pos K m e _ _ HK Hvalid Hvh) as Hlt.
  pose proof (ltb_valid_pos K _ _ m e HK Hvh Hvalid) as Hgt.
  rewrite Hhalf in Hcmp, Hlt, Hgt.
  destruct (Z.compare_spec (Z.pos m * 2 ^ (e + K)) (2 ^ (K - 1))) as [Heq|Hl|Hg].
  - right. left. cbn [SFcompare] in Hcmp.
    destruct (e ?= -53) eqn:He; [|discriminate..].
    apply Z.compare_eq in He. apply (inj Some) in Hcmp. apply Pos.compare_eq in Hcmp.
    rewrite He, Hcmp. reflexivity.
  - left. split; [apply Hlt; exact Hl | exact Hl].
  - right. right. split; [apply Hgt; exact Hg | exact Hg].
Qed.

(** Below one half a valid float is the predecessor of one half or at most
    [1/2 - 2 ^ -53]; above, it is at least [1/2 + 2 ^ -53]. *)
Lemma below_half K m e :
  1074 ≤ K → Float.valid (S754_finite false m e) = true →
  Z.pos m * 2 ^ (e + K) < 2 ^ (K - 1) →
  e ≤ -54 ∧
  ((m = 9007199254740991%positive ∧ e = -54) ∨
   Z.pos m * 2 ^ (e + K) ≤ 2 ^ (K - 1) - 2 ^ (K - 53)).
Proof.
  intros HK (He & Hm & Hn)%valid_finite Hlt.
  assert (0 < 2 ^ (e + K)) as Hp by (apply pow2_pos; lia).
  assert (2 ^ (K - 1) = 2 ^ 53 * 2 ^ (K - 54)) as Hhalf
    by (rewrite <- pow2_split by lia; f_equal; lia).
  assert (2 ^ (K - 53) = 2 * 2 ^ (K - 54)) as Hulp
    by (rewrite <- Z.pow_succ_r by lia; f_equal; lia).
  assert (0 < 2 ^ (K - 54)) as Hp54 by (apply pow2_pos; lia).
  assert (e ≤ -54) as He54.
  { destruct (Z.le_gt_cases e (-54)) as [|Hgt]; [done|]. exfalso.
    destruct Hn as [Hn|]; [|lia].
    assert (2 ^ (K - 1) ≤ 2 ^ 52 * 2 ^ (e + K))
      by (rewrite <- pow2_split by lia; apply pow2_le; lia).
    assert (2 ^ 52 * 2 ^ (e + K) ≤ Z.pos m * 2 ^ (e + K))
      by (apply Z.mul_le_mono_nonneg_r; lia).
    lia. }
  split; [done|].
  destruct (Z.eq_dec e (-54)) as [->|Hne].
  - destruct (Z.eq_dec (Z.pos m) (2 ^ 53 - 1)) as [Heq|Hneq].
    + left. split; [|done]. apply Pos2Z.inj. rewrite Heq. reflexivity.
    + right. replace (-54 + K) with (K - 54) by lia. rewrite Hhalf, Hulp.
      assert (Z.pos m * 2 ^ (K - 54) ≤ (2 ^ 53 - 2) * 2 ^ (K - 54))
        by (apply Z.mul_le_mono_nonneg_r; lia).
      lia.
  - right. rewrite Hhalf, Hulp.
    assert (2 ^ (K - 54) = 2 * 2 ^ (K - 55)) as ->
      by (rewrite <- Z.pow_succ_r by lia; f_equal; lia).
    assert (0 < 2 ^ (K - 55)) by (apply pow2_pos; lia).
    assert (2 ^ (e + K) ≤ 2 ^ (K - 55)) by (apply pow2_le; lia).
    assert (Z.pos m * 2 ^ (e + K) ≤ 2 ^ 53 * 2 ^ (K - 55)).
    { transitivity (Z.pos m * 2 ^ (K - 55)).
      - apply Z.mul_le_mono_nonneg_l; lia.
      - apply Z.mul_le_mono_nonneg_r; lia. }
    assert (4 ≤ 2 ^ 53) by (change 4 with (2 ^ 2); apply pow2_le; lia).
    lia.
Qed.

Lemma above_half K m e :
  1074 ≤ K → Float.valid (S754_finite false m e) = true →
  2 ^ (K - 1) < Z.pos m * 2 ^ (e + K) → Z.pos m * 2 ^ (e + K) ≤ 2 ^ K →
  -53 ≤ e ∧ (e = -53 ∨ (e = -52 ∧ m = 4503599627370496%positive)) ∧
  2 ^ (K - 1) + 2 ^ (K - 53) ≤ Z.pos m * 2 ^ (e + K).
Proof.
  intros HK (He & Hm & Hn)%valid_finite Hgt Hle.
  assert (0 < 2 ^ (e + K)) as Hp by (apply pow2_pos; lia).
  assert (-53 ≤ e) as He53.
  { destruct (Z.le_gt_cases (-53) e) as [|Hlt]; [done|]. exfalso.
    assert (2 ^ 53 * 2 ^ (e + K) ≤ 2 ^ (K - 1))
      by (rewrite <- pow2_split by lia; apply pow2_le; lia).
    assert (Z.pos m * 2 ^ (e + K) ≤ 2 ^ 53 * 2 ^ (e + K))
      by (apply Z.mul_le_mono_nonneg_r; lia).
    lia. }
  split; [exact He53|].
  destruct Hn as [Hn|]; [|lia].
  assert (e ≤ -52) as He52.
  { destruct (Z.le_gt_cases e (-52)) as [|Hlt]; [done|]. exfalso.
    assert (2 ^ (K + 1) ≤ 2 ^ 52 * 2 ^ (e + K))
      by (rewrite <- pow2_split by lia; apply pow2_le; lia).
    assert (2 ^ 52 * 2 ^ (e + K) ≤ Z.pos m * 2 ^ (e + K))
      by (apply Z.mul_le_mono_nonneg_r; lia).
    assert (2 ^ K < 2 ^ (K + 1)) by (apply pow2_lt; lia). lia. }
  destruct (Z.eq_dec e (-53)) as [->|Hne].
  - split; [by left|].
    replace (-53 + K) with (K - 53) in * by lia.
    assert (2 ^ (K - 1) = 2 ^ 52 * 2 ^ (K - 53)) as Hh
      by (rewrite <- pow2_split by lia; f_equal; lia).
    rewrite Hh in Hgt |- *.
    assert (2 ^ 52 < Z.pos m) by (apply (Z.mul_lt_mono_pos_r (2 ^ (K - 53))); lia).
    assert ((2 ^ 52 + 1) * 2 ^ (K - 53) ≤ Z.pos m * 2 ^ (K - 53))
      by (apply Z.mul_le_mono_nonneg_r; lia).
    lia.
  - assert (e = -52) as -> by lia.
    replace (-52 + K) with (K - 52) in * by lia.
    assert (2 ^ K = 2 ^ 52 * 2 ^ (K - 52)) as HK1
      by (rewrite <- pow2_split by lia; f_equal; lia).
    rewrite HK1 in Hle.
    assert (Z.pos m ≤ 2 ^ 52) by (apply (Z.mul_le_mono_pos_r _ _ (2 ^ (K - 52))); lia).
    assert (m = 4503599627370496%positive) as Hm1 by (apply Pos2Z.inj; change (Z.pos 4503599627370496) with (2 ^ 52); lia).
    split; [by right|]. rewrite Hm1. change (Z.pos 4503599627370496) with (2 ^ 52).
    rewrite <- HK1.
    assert (2 ^ K = 2 * 2 ^ (K - 1)) as -> by (rewrite <- Z.pow_succ_r by lia; f_equal; lia).
    assert (2 ^ (K - 53) ≤ 2 ^ (K - 1)) by (apply pow2_le; lia). lia.
Qed.

(** [int] of a product of two positive floats, from bounds on the exact
    product. *)
Lemma mul_to_int K mx ex my ey E lo hi :
  0 ≤ ex + K → 0 ≤ ey + K → ex + ey ≤ E → -1074 ≤ E ≤ 919 → E + 53 ≤ K + K + 1 →
  (2 ^ (E + (K + K)) | lo) → (2 ^ (E + (K + K)) | hi) →
  lo ≤ (Z.pos mx * 2 ^ (ex + K)) * (Z.pos my * 2 ^ (ey + K)) ≤ hi →
  hi < 2 ^ (E + 53 + (K + K)) →
  ∃ k, Float.to_int (Float.mul (S754_finite false mx ex) (S754_finite false my ey)) = Ok k ∧
       lo ≤ k * 2 ^ (K + K) + (mag (K + K) (Float.mul (S754_finite false mx ex)
                                             (S754_finite false my ey))) mod 2 ^ (K + K) ≤ hi.
Proof.
  intros Hx Hy HE HE' HEK Hlo Hhi Hval Hhi53.
  destruct (mul_between K false mx ex false my ey E lo hi) as (Hmag & Hexp & Hr); try done.
  set (r := Float.mul _ _) in *.
  destruct (to_int_mag (K + K) r) as [Hint _].
  - lia.
  - by destruct Hr as [->|(m' & e' & ->)].
  - by destruct Hr as [->|(m' & e' & ->)].
  - eapply exponent_in_weaken; [| |exact Hexp]; lia.
  - exists (mag (K + K) r / 2 ^ (K + K)). split; [done|].
    assert (0 < 2 ^ (K + K)) by (apply pow2_pos; lia).
    rewrite (Z.mul_comm _ (2 ^ (K + K))), <- Z.div_mod by lia. done.
Qed.

Lemma div_ge_of_multiple a b p : 0 < p → a * p ≤ b → a ≤ b / p.
Proof. intros. apply Z.div_le_lower_bound; lia. Qed.

(** [1 - v] for a positive valid [v] below 1. *)
Lemma sub_one_between K m e E lo hi :
  1074 ≤ K → -1074 ≤ e ≤ -52 → Z.pos m * 2 ^ (e + K) < 2 ^ K →
  e ≤ E → -1074 ≤ E ≤ 919 →
  (2 ^ (E + K) | lo) → (2 ^ (E + K) | hi) →
  lo ≤ 2 ^ K - Z.pos m * 2 ^ (e + K) ≤ hi → hi < 2 ^ (E + 53 + K) →
  let w := Float.sub Float.one (S754_finite false m e) in
  lo ≤ mag K w ≤ hi ∧ exponent_in (-1074) (E + 53) w ∧
  (w = S754_zero false ∨ ∃ m' e', w = S754_finite false m' e').
Proof.
  intros HK He Hlt HeE HE Hlo Hhi Hval Hhi53 w. subst w.
  unfold Float.sub, Float.one. cbn [SFsub cond_Zopp].
  rewrite Z.min_r by lia.
  destruct (shl_align_spec 4503599627370496 (-52) e) as (a & ez & -> & Hez & Ha).
  destruct (shl_align_spec m e e) as (b & ez' & -> & Hez' & Hb).
  cbn [fst]. rewrite Z.min_r in Hez by lia. subst ez.
  rewrite Z.min_id in Hez'. subst ez'. rewrite Z.sub_diag, Z.mul_1_r in Hb.
  change (Z.pos 4503599627370496) with (2 ^ 52) in Ha.
  rewrite <- pow2_split in Ha by lia. replace (52 + (-52 - e)) with (- e) in Ha by lia.
  assert (0 < 2 ^ (e + K)) as Hp by (apply pow2_pos; lia).
  assert (2 ^ K = 2 ^ (- e) * 2 ^ (e + K)) as HK1
    by (rewrite <- pow2_split by lia; f_equal; lia).
  assert (Z.pos b < Z.pos a) as Hba.
  { rewrite Ha, Hb. apply (Z.mul_lt_mono_pos_r (2 ^ (e + K))); lia. }
  destruct (Z.pos a - Z.pos b) as [|p|p] eqn:Hdiff; try lia.
  cbn [binary_normalize].
  assert (Z.pos p * 2 ^ (e + K) = 2 ^ K - Z.pos m * 2 ^ (e + K)) as Hpval.
  { rewrite <- Hdiff, Ha, Hb, HK1. lia. }
  rewrite <- Hpval in Hval.
  destruct (binary_round_between K false p e E lo hi) as (Hmag & Hexp & Hr);
    [lia..|done|done|done|done|].
  split; [done|]. split; [|done].
  eapply exponent_in_weaken; [| |exact Hexp]; lia.
Qed.

Lemma quotient_lt k r P B : 0 < P → 0 ≤ r → k * P + r < B * P → k < B.
Proof. intros HP Hr Hlt. apply (Z.mul_lt_mono_pos_r P); lia. Qed.

Lemma quotient_ge k r P B : 0 < P → r < P → B * P ≤ k * P + r → B ≤ k.
Proof.
  intros HP Hr Hle. assert (B < k + 1); [|lia].
  apply (Z.mul_lt_mono_pos_r P); lia.
Qed.

Lemma quotient_le k r P B : 0 < P → 0 ≤ r → k * P + r ≤ B * P → k ≤ B.
Proof.
  intros HP Hr Hle. apply (Z.mul_le_mono_pos_r _ _ P); lia.
Qed.

(** The scaled powers of two that the bounds below are made of, all in
    terms of [P = 2 ^ (K - 53)]. *)
Lemma scale_facts K :
  1074 ≤ K →
  0 < 2 ^ (K - 53) ∧ 2 ^ K = 2 ^ 53 * 2 ^ (K - 53) ∧ 2 ^ (K - 1) = 2 ^ 52 * 2 ^ (K - 53) ∧
  2 ^ (K + K) = 2 ^ K * 2 ^ K ∧ 2 ^ (K + K - 47) = 2 ^ 6 * (2 ^ (K - 53) * 2 ^ K).
Proof.
  intros HK. split; [apply pow2_pos; lia|].
  split; [rewrite <- pow2_split by lia; f_equal; lia|].
  split; [rewrite <- pow2_split by lia; f_equal; lia|].
  split; [apply pow2_split; lia|].
  rewrite <- !pow2_split by lia. f_equal. lia.
Qed.

Lemma below_pred_50 K x :
  1074 ≤ K → 0 ≤ x ≤ 2 ^ (K - 1) - 2 ^ (K - 53) →
  0 ≤ x * (100 * 2 ^ K) ≤ 50 * 2 ^ (K + K) - 2 ^ (K + K - 47).
Proof.
  intros HK Hx. destruct (scale_facts K HK) as (HP & HQ & Hh & HQQ & Hulp).
  rewrite HQQ, Hulp. rewrite Hh in Hx.
  set (P := 2 ^ (K - 53)) in *. set (Q := 2 ^ K) in *.
  assert (0 < Q) as HQpos by (subst Q; apply pow2_pos; lia).
  assert (0 < P * Q) as HPQ by (apply Z.mul_pos_pos; lia).
  split; [apply Z.mul_nonneg_nonneg; lia|].
  transitivity ((2 ^ 52 * P - P) * (100 * Q)).
  - apply Z.mul_le_mono_nonneg_r; lia.
  - replace ((2 ^ 52 * P - P) * (100 * Q)) with (50 * (2 ^ 53 * P) * Q - 100 * (P * Q)).
    + rewrite <- HQ. change (2 ^ 6) with 64. lia.
    + change (2 ^ 53) with (2 * 2 ^ 52). ring.
Qed.

Lemma half_product Q H V :
  0 < Q → Q = 2 * H → H ≤ V ≤ Q → 50 * (Q * Q) ≤ 100 * Q * V ≤ 100 * (Q * Q).
Proof.
  intros HQ -> [H1 H2]. split.
  - transitivity (100 * (2 * H) * H); [lia|]. apply Z.mul_le_mono_nonneg_l; lia.
  - replace (100 * (2 * H * (2 * H))) with (100 * (2 * H) * (2 * H)) by ring.
    apply Z.mul_le_mono_nonneg_l; lia.
Qed.

Lemma to_int_unfold_num_train v :
  Float.int_mul 100 v ≫= Float.to_int = Float.to_int (Float.mul hundred v).
Proof. reflexivity. Qed.

Lemma train_ratio_unfold v :
  train_ratio v = Float.to_int (Float.mul (Float.sub Float.one v) hundred).
Proof. reflexivity. Qed.

Section around_half.
Variable K : Z.
Hypothesis HK : 1074 ≤ K.
Variables (m : positive) (e : Z).
Hypothesis Hvalid : Float.valid (S754_finite false m e) = true.

(** With 100 images: fewer than 50 train images below one half. *)
Lemma num_train_100_below :
  Z.pos m * 2 ^ (e + K) < 2 ^ (K - 1) →
  ∃ k, Float.int_mul 100 (S754_finite false m e) ≫= Float.to_int = Ok k ∧ 0 ≤ k ≤ 49.
Proof.
  intros Hlt. rewrite to_int_unfold_num_train.
  destruct (below_half K m e HK Hvalid Hlt) as (He & [[Hm He']|Hle]).
  - rewrite Hm, He'. exists 49. split; [reflexivity | lia].
  - destruct (scale_facts K HK) as (HP & HQ & Hh & HQQ & Hulp).
    pose proof (valid_finite _ _ _ Hvalid) as (Hebounds & _ & _).
    assert (0 < 2 ^ (e + K)) as Hp by (apply pow2_pos; lia).
    unfold hundred.
    destruct (mul_to_int K 7036874417766400 (-46) m e (-47) 0
                (50 * 2 ^ (K + K) - 2 ^ (K + K - 47))) as (k & Hk & Hlo & Hhi).
    + lia.
    + lia.
    + lia.
    + lia.
    + lia.
    + apply Z.divide_0_r.
    + replace (-47 + (K + K)) with (K + K - 47) by lia.
      assert (2 ^ (K + K) = 2 ^ 47 * 2 ^ (K + K - 47)) as ->
        by (rewrite <- pow2_split by lia; f_equal; lia).
      exists (50 * 2 ^ 47 - 1). ring.
    + rewrite hundred_mag by lia. rewrite (Z.mul_comm (100 * 2 ^ K)).
      apply below_pred_50; [done|]. lia.
    + assert (0 < 2 ^ (K + K - 47)) by (apply pow2_pos; lia).
      replace (-47 + 53 + (K + K)) with (6 + (K + K)) by lia.
      rewrite (pow2_split 6) by lia. change (2 ^ 6) with 64.
      assert (0 < 2 ^ (K + K)) by (apply pow2_pos; lia). lia.
    + exists k. split; [exact Hk|].
      assert (0 < 2 ^ (K + K)) as HPP by (apply pow2_pos; lia).
      assert (0 < 2 ^ (K + K - 47)) by (apply pow2_pos; lia).
      pose proof (Z.mod_pos_bound
        (mag (K + K) (Float.mul (S754_finite false 7036874417766400 (-46))
                                (S754_finite false m e))) (2 ^ (K + K)) HPP) as Hrem.
      split.
      * apply (quotient_ge _ _ _ 0) in Hlo; lia.
      * assert (k < 50); [|lia]. eapply quotient_lt; [exact HPP| |]; [apply Hrem|lia].
Qed.

(** With 100 images: at least 50 train images above one half. *)
Lemma num_train_100_above :
  2 ^ (K - 1) < Z.pos m * 2 ^ (e + K) → Z.pos m * 2 ^ (e + K) ≤ 2 ^ K →
  ∃ k, Float.int_mul 100 (S754_finite false m e) ≫= Float.to_int = Ok k ∧ 50 ≤ k ≤ 100.
Proof.
  intros Hgt Hle. rewrite to_int_unfold_num_train.
  destruct (above_half K m e HK Hvalid Hgt Hle) as (He & He' & _).
  destruct (scale_facts K HK) as (HP & HQ & Hh & HQQ & Hulp).
  pose proof (valid_finite _ _ _ Hvalid) as (Hebounds & _ & _).
  assert (0 < 2 ^ (e + K)) as Hp by (apply pow2_pos; lia).
  assert (0 < 2 ^ K) as HQpos by (apply pow2_pos; lia).
  assert (2 ^ K = 2 * 2 ^ (K - 1)) as Hdouble
    by (rewrite <- Z.pow_succ_r by lia; f_equal; lia).
  unfold hundred.
  destruct (mul_to_int K 7036874417766400 (-46) m e 0
              (50 * 2 ^ (K + K)) (100 * 2 ^ (K + K))) as (k & Hk & Hlo & Hhi).
  - lia.
  - lia.
  - lia.
  - lia.
  - lia.
  - rewrite Z.add_0_l. apply Z.divide_factor_r.
  - rewrite Z.add_0_l. apply Z.divide_factor_r.
  - rewrite hundred_mag by lia. rewrite HQQ.
    apply (half_product _ (2 ^ (K - 1))); [done|done|lia].
  - rewrite Z.add_0_l, (pow2_split 53) by lia.
    apply Z.mul_lt_mono_pos_r; [apply pow2_pos; lia|]. by apply Z.ltb_lt.
  - exists k. split; [exact Hk|].
    assert (0 < 2 ^ (K + K)) as HPP by (apply pow2_pos; lia).
    pose proof (Z.mod_pos_bound
      (mag (K + K) (Float.mul (S754_finite false 7036874417766400 (-46))
                              (S754_finite false m e))) (2 ^ (K + K)) HPP) as Hrem.
    split.
    + eapply quotient_ge; [exact HPP| |exact Hlo]. apply Hrem.
    + eapply quotient_le; [exact HPP| |exact Hhi]. apply Hrem.
Qed.
End around_half.

Section train_ratio_around_half.
Variable K : Z.
Hypothesis HK : 1074 ≤ K.
Variables (m : positive) (e : Z).
Hypothesis Hvalid : Float.valid (S754_finite false m e) = true.

(** The driver's percentage is at least 50 below one half. *)
Lemma train_ratio_below :
  Z.pos m * 2 ^ (e + K) < 2 ^ (K - 1) →
  ∃ ratio, train_ratio (S754_finite false m e) = Ok ratio ∧ 50 ≤ ratio ≤ 100.
Proof.
  intros Hlt. rewrite train_ratio_unfold.
  destruct (below_half K m e HK Hvalid Hlt) as (He & _).
  destruct (scale_facts K HK) as (HP & HQ & Hh & HQQ & Hulp).
  pose proof (valid_finite _ _ _ Hvalid) as (Hebounds & _ & _).
  assert (0 < 2 ^ (e + K)) as Hp by (apply pow2_pos; lia).
  assert (0 < 2 ^ K) as HQpos by (apply pow2_pos; lia).
  assert (2 ^ K = 2 * 2 ^ (K - 1)) as Hdouble
    by (rewrite <- Z.pow_succ_r by lia; f_equal; lia).
  assert (0 < Z.pos m * 2 ^ (e + K)) as Hvpos by (apply Z.mul_pos_pos; lia).
  destruct (sub_one_between K m e (-52) (2 ^ (K - 1)) (2 ^ K)) as (Hmag & Hexp & Hw).
  - done.
  - lia.
  - lia.
  - lia.
  - lia.
  - apply pow2_divide. lia.
  - apply pow2_divide. lia.
  - lia.
  - apply pow2_lt. lia.
  - destruct Hw as [Hw|(m' & e' & Hw)]; rewrite Hw in Hmag, Hexp |- *;
      cbn [mag exponent_in] in Hmag, Hexp; [lia|].
    unfold hundred.
    destruct (mul_to_int K m' e' 7036874417766400 (-46) 0
                (50 * 2 ^ (K + K)) (100 * 2 ^ (K + K))) as (k & Hk & Hlo & Hhi).
    + lia.
    + lia.
    + lia.
    + lia.
    + lia.
    + rewrite Z.add_0_l. apply Z.divide_factor_r.
    + rewrite Z.add_0_l. apply Z.divide_factor_r.
    + rewrite hundred_mag by lia. rewrite HQQ.
      rewrite (Z.mul_comm (Z.pos m' * 2 ^ (e' + K))).
      apply (half_product _ (2 ^ (K - 1))); [done|done|lia].
    + rewrite Z.add_0_l, (pow2_split 53) by lia.
      apply Z.mul_lt_mono_pos_r; [apply pow2_pos; lia|]. by apply Z.ltb_lt.
    + exists k. split; [exact Hk|].
      assert (0 < 2 ^ (K + K)) as HPP by (apply pow2_pos; lia).
      pose proof (Z.mod_pos_bound
        (mag (K + K) (Float.mul (S754_finite false m' e')
                                (S754_finite false 7036874417766400 (-46))))
        (2 ^ (K + K)) HPP) as Hrem.
      split.
      * eapply quotient_ge; [exact HPP| |exact Hlo]. apply Hrem.
      * eapply quotient_le; [exact HPP| |exact Hhi]. apply Hrem.
Qed.

(** The driver's percentage is at most 49 above one half. *)
Lemma train_ratio_above :
  2 ^ (K - 1) < Z.pos m * 2 ^ (e + K) → Z.pos m * 2 ^ (e + K) ≤ 2 ^ K →
  ∃ ratio, train_ratio (S754_finite false m e) = Ok ratio ∧ 0 ≤ ratio ≤ 49.
Proof.
  intros Hgt Hle. rewrite train_ratio_unfold.
  destruct (above_half K m e HK Hvalid Hgt Hle) as (_ & [He|[He Hm]] & Hge).
  2:{ rewrite He, Hm. exists 0. split; [reflexivity | lia]. }
  destruct (scale_facts K HK) as (HP & HQ & Hh & HQQ & Hulp).
  pose proof (valid_finite _ _ _ Hvalid) as (_ & Hm53 & _).
  subst e. replace (-53 + K) with (K - 53) in * by lia.
  assert (0 < 2 ^ K) as HQpos by (apply pow2_pos; lia).
  assert (Z.pos m * 2 ^ (K - 53) < 2 ^ K) as Hlt1.
  { rewrite HQ. apply Z.mul_lt_mono_pos_r; lia. }
  destruct (sub_one_between K m (-53) (-53) 0 (2 ^ (K - 1) - 2 ^ (K - 53)))
    as (Hmag & Hexp & Hw).
  - done.
  - lia.
  - replace (-53 + K) with (K - 53) by lia. done.
  - lia.
  - lia.
  - apply Z.divide_0_r.
  - replace (-53 + K) with (K - 53) by lia. rewrite Hh.
    exists (2 ^ 52 - 1). ring.
  - replace (-53 + K) with (K - 53) by lia. rewrite HQ in *. 
    change (2 ^ 53) with (2 * 2 ^ 52) in *. lia.
  - replace (-53 + 53 + K) with K by lia. lia.
  - destruct Hw as [Hw|(m' & e' & Hw)]; rewrite Hw in Hmag, Hexp |- *;
      cbn [mag exponent_in] in Hmag, Hexp.
    { exists 0. split; [reflexivity | lia]. }
    unfold hundred.
    destruct (mul_to_int K m' e' 7036874417766400 (-46) (-47) 0
                (50 * 2 ^ (K + K) - 2 ^ (K + K - 47))) as (k & Hk & Hlo & Hhi).
    + lia.
    + lia.
    + lia.
    + lia.
    + lia.
    + apply Z.divide_0_r.
    + replace (-47 + (K + K)) with (K + K - 47) by lia.
      assert (2 ^ (K + K) = 2 ^ 47 * 2 ^ (K + K - 47)) as ->
        by (rewrite <- pow2_split by lia; f_equal; lia).
      exists (50 * 2 ^ 47 - 1). ring.
    + rewrite hundred_mag by lia. apply below_pred_50; [done|]. lia.
    + assert (0 < 2 ^ (K + K - 47)) by (apply pow2_pos; lia).
      replace (-47 + 53 + (K + K)) with (6 + (K + K)) by lia.
      rewrite (pow2_split 6) by lia. change (2 ^ 6) with 64.
      assert (0 < 2 ^ (K + K)) by (apply pow2_pos; lia). lia.
    + exists k. split; [exact Hk|].
      assert (0 < 2 ^ (K + K)) as HPP by (apply pow2_pos; lia).
      assert (0 < 2 ^ (K + K - 47)) by (apply pow2_pos; lia).
      pose proof (Z.mod_pos_bound
        (mag (K + K) (Float.mul (S754_finite false m' e')
                                (S754_finite false 7036874417766400 (-46))))
        (2 ^ (K + K)) HPP) as Hrem.
      split.
      * apply (quotient_ge _ _ _ 0) in Hlo; lia.
      * assert (k < 50); [|lia]. eapply quotient_lt; [exact HPP| |]; [apply Hrem|lia].
Qed.
End train_ratio_around_half.

(** The two counts for a fraction [v], on 100 images: the loader's train
    count [k] and the driver's percentage [ratio] lie on opposite sides of
    50, and coincide only for one half. *)
Lemma counts_complementary v :
  Float.valid v = true →
  Float.leb Float.zero v = true → Float.leb v Float.one = true →
  ∃ ratio k,
    train_ratio v = Ok ratio ∧
    Float.int_mul 100 v ≫= Float.to_int = Ok k ∧
    0 ≤ ratio ≤ 100 ∧ 0 ≤ k ≤ 100 ∧
    (Float.ltb v Float.half = true → k ≤ 49 ∧ 50 ≤ ratio) ∧
    (Float.ltb Float.half v = true → 50 ≤ k ∧ ratio ≤ 49) ∧
    (ratio = k ↔ v = Float.half).
Proof.
  intros Hvalid H0 H1.
  destruct (fraction_cases 1074 v) as [[s ->]|(m & e & -> & He & Hle)]; [lia|done..| |].
  { exists 100, 0. destruct s; (split; [reflexivity|]); (split; [reflexivity|]);
      (split; [lia|]); (split; [lia|]); (split; [lia|]);
      (split; [intros [=]|]); (split; [lia | intros [=]]). }
  assert (Float.ltb Float.half Float.half = false) as Hhh by reflexivity.
  assert (1074 ≤ 1074) as HK by lia.
  destruct (fraction_trichotomy 1074 m e HK Hvalid) as [[Hltb Hlt]|[Heq|[Hltb Hgt]]].
  - destruct (num_train_100_below 1074 HK m e Hvalid Hlt) as (k & Hk & Hkb).
    destruct (train_ratio_below 1074 HK m e Hvalid Hlt) as (ratio & Hr & Hrb).
    exists ratio, k. split; [exact Hr|]. split; [exact Hk|].
    split; [lia|]. split; [lia|]. split; [lia|]. split.
    + intros Hgt%(ltb_valid_pos 1074); [|lia|reflexivity|exact Hvalid].
      change (Z.pos 4503599627370496 * 2 ^ (-53 + 1074)) with (2 ^ (1074 - 1)) in Hgt. lia.
    + split; [lia|]. intros Heq. rewrite Heq, Hhh in Hltb. discriminate Hltb.
  - rewrite Heq. exists 50, 50. split; [reflexivity|]. split; [reflexivity|].
    split; [lia|]. split; [lia|]. rewrite Hhh.
    split; [intros [=]|]. split; [intros [=]|]. split; reflexivity.
  - destruct (num_train_100_above 1074 HK m e Hvalid Hgt Hle) as (k & Hk & Hkb).
    destruct (train_ratio_above 1074 HK m e Hvalid Hgt Hle) as (ratio & Hr & Hrb).
    exists ratio, k. split; [exact Hr|]. split; [exact Hk|].
    split; [lia|]. split; [lia|]. split.
    + intros Hlt%(ltb_valid_pos 1074); [|lia|exact Hvalid|reflexivity].
      change (Z.pos 4503599627370496 * 2 ^ (-53 + 1074)) with (2 ^ (1074 - 1)) in Hlt. lia.
    + split; [lia|]. split; [lia|]. intros Heq. rewrite Heq, Hhh in Hltb. discriminate Hltb.
Qed.

(** ** The count against the exact product *)

Lemma exact_product_fraction K N m e :
  1074 ≤ K → 0 ≤ N → -1074 ≤ e ≤ -52 → Z.pos m * 2 ^ (e + K) ≤ 2 ^ K →
  let f := S754_finite false m e in
  floor_exact_product N f * 2 ^ (K + K) ≤ N * 2 ^ K * (Z.pos m * 2 ^ (e + K)) ∧
  N * 2 ^ K * (Z.pos m * 2 ^ (e + K)) ≤ ceil_exact_product N f * 2 ^ (K + K) ∧
  0 ≤ floor_exact_product N f ∧ ceil_exact_product N f ≤ N.
Proof.
  intros HK HN He Hle f. unfold ceil_exact_product, f. cbn [floor_exact_product cond_Zopp].
  destruct (Z.leb_spec 0 e) as [|_]; [lia|].
  set (D := 2 ^ (- e)). set (S := 2 ^ (e + K)).
  assert (0 < D) as HD by (apply pow2_pos; lia).
  assert (0 < S) as HS by (apply pow2_pos; lia).
  assert (0 < 2 ^ K) as HQ by (apply pow2_pos; lia).
  assert (2 ^ K = D * S) as HDS
    by (unfold D, S; rewrite <- pow2_split by lia; f_equal; lia).
  assert (2 ^ (K + K) = D * S * 2 ^ K) as HKK by (rewrite pow2_split by lia; lia).
  assert (Z.pos m ≤ D) as Hm.
  { apply (Z.mul_le_mono_pos_r _ _ S); [done|]. lia. }
  pose proof (Z.mul_div_le (N * Z.pos m) D HD) as Hfl.
  pose proof (Z.mul_div_le (- N * Z.pos m) D HD) as Hce.
  assert (0 ≤ N * Z.pos m / D) as Hfl0 by (apply Z.div_pos; lia).
  assert (- N ≤ - N * Z.pos m / D) as HceN.
  { apply Z.div_le_lower_bound; [done|]. nia. }
  rewrite HKK. split_and!.
  - transitivity (D * (N * Z.pos m / D) * (S * 2 ^ K)); [lia|].
    transitivity (N * Z.pos m * (S * 2 ^ K)); [|lia].
    apply Z.mul_le_mono_nonneg_r; lia.
  - transitivity (N * Z.pos m * (S * 2 ^ K)); [lia|].
    transitivity (- (D * (- N * Z.pos m / D)) * (S * 2 ^ K)); [|lia].
    apply Z.mul_le_mono_nonneg_r; lia.
  - done.
  - lia.
Qed.

(** The train count for a fraction, against the exact product: the float
    product is rounded, but never across an integer, so the count is the
    exact floor or, when the product rounds up to an integer, one more. *)
Lemma num_train_exact N f :
  Float.valid f = true →
  Float.leb Float.zero f = true → Float.leb f Float.one = true →
  0 ≤ N < 2 ^ 53 →
  ∃ k, Float.int_mul N f ≫= Float.to_int = Ok k ∧
       floor_exact_product N f ≤ k ≤ ceil_exact_product N f.
Proof.
  intros Hvalid H0 H1 HN.
  destruct (fraction_cases 1074 f) as [[s ->]|(mf & ef & -> & Hef & Hf)]; [lia|done..| |].
  - exists 0. split; [|done].
    destruct (Z.eq_dec N 0) as [->|HN0]; [done|].
    destruct (of_int_exact 1074 N) as (mN & eN & HofN & _); [lia..|].
    unfold Float.int_mul. by rewrite HofN.
  - destruct (exact_product_fraction 1074 N mf ef) as (Hlo & Hhi & Hfl0 & HceN); [lia..|done|].
    destruct (Z.eq_dec N 0) as [->|HN0].
    + exists 0. split; [done|]. cbn zeta in Hlo, Hhi.
      assert (0 < 2 ^ (1074 + 1074)) by (by apply pow2_pos). lia.
    + destruct (of_int_exact 1074 N) as (mN & eN & HofN & HmN & HeN); [lia..|].
      unfold Float.int_mul. rewrite HofN. cbn [mbind result_bind].
      assert (0 < 2 ^ (1074 + 1074)) as HP by (by apply pow2_pos).
      cbn zeta in Hlo, Hhi, Hfl0, HceN.
      destruct (mul_to_int 1074 mN eN mf ef 0
                  (floor_exact_product N (S754_finite false mf ef) * 2 ^ (1074 + 1074))
                  (ceil_exact_product N (S754_finite false mf ef) * 2 ^ (1074 + 1074)))
        as (k & Hk & Hklo & Hkhi); [lia|lia|lia|lia|lia|..].
      * rewrite Z.add_0_l. apply Z.divide_factor_r.
      * rewrite Z.add_0_l. apply Z.divide_factor_r.
      * rewrite HmN. done.
      * rewrite Z.add_0_l, (pow2_split 53) by lia.
        apply Z.mul_lt_mono_pos_r; [done|]. lia.
      * exists k. split; [exact Hk|].
        set (r := mag _ _ mod _) in *.
        assert (0 ≤ r < 2 ^ (1074 + 1074)) as Hr by (apply Z.mod_pos_bound; done).
        split.
        -- eapply quotient_ge; [exact HP| |exact Hklo]. lia.
        -- eapply quotient_le; [exact HP| |exact Hkhi]. lia.
Qed.

Lemma ceil_exact_le_succ_floor N f :
  ceil_exact_product N f ≤ floor_exact_product N f + 1.
Proof.
  unfold ceil_exact_product. destruct f as [s|s| |s m e]; cbn [floor_exact_product]; try lia.
  destruct (Z.leb_spec 0 e) as [|He]; [lia|].
  assert (0 < 2 ^ (- e)) as HD by (apply pow2_pos; lia).
  set (D := 2 ^ (- e)) in *. set (P := N * cond_Zopp s (Z.pos m)).
  replace (- N * cond_Zopp s (Z.pos m)) with (- P) by (unfold P; lia).
  assert (- (P / D) - 1 ≤ - P / D); [|lia].
  apply Z.div_le_lower_bound; [done|].
  pose proof (Z.div_mod P D ltac:(lia)). pose proof (Z.mod_pos_bound P D HD). lia.
Qed.

(** The train count on either side of one half, for any number of images:
    at most half of them below, and (up to the flooring) at least half of
    them above. *)
Lemma num_train_halves N v :
  Float.valid v = true →
  Float.leb Float.zero v = true → Float.leb v Float.one = true →
  0 ≤ N < 2 ^ 53 →
  ∃ k, Float.int_mul N v ≫= Float.to_int = Ok k ∧
       floor_exact_product N v ≤ k ≤ ceil_exact_product N v ∧
       (Float.ltb v Float.half = true → 2 * k ≤ N) ∧
       (Float.ltb Float.half v = true → N ≤ 2 * k + 1).
Proof.
  intros Hvalid H0 H1 HN.
  destruct (num_train_exact N v Hvalid H0 H1 HN) as (k & Hk & Hfl & Hce).
  exists k. split; [exact Hk|]. split; [done|].
  destruct (fraction_cases 1074 v) as [[s ->]|(m & e & -> & He & Hle)]; [lia|done..| |].
  { cbn in Hfl, Hce. unfold ceil_exact_product in Hce. cbn in Hce.
    split; [intros _; lia | by destruct s]. }
  assert (0 < 2 ^ 1074) as HQ by (by apply pow2_pos).
  assert (0 < 2 ^ (e + 1074)) as HS by (apply pow2_pos; lia).
  destruct (fraction_trichotomy 1074 m e) as [[Hb Hlt]|[Heq|[Ha Hgt]]]; [lia|done|..].
  - (* below one half *)
    split; [intros _|intros Hgt; exfalso].
    2:{ apply (ltb_valid_pos 1074) in Hgt; [|lia|reflexivity|done].
        change (Z.pos 4503599627370496) with (2 ^ 52) in Hgt.
        rewrite <- pow2_split in Hgt by lia.
        replace (52 + (-53 + 1074)) with (1074 - 1) in Hgt by lia. lia. }
    destruct (Z.eq_dec N 0) as [->|HN0].
    { cbn in Hk. apply (inj Ok) in Hk. lia. }
    destruct (below_half 1074 m e) as (He54 & _); [lia|done|done|].
    destruct (of_int_exact 1074 N) as (mN & eN & HofN & HmN & HeN); [lia..|].
    unfold Float.int_mul in Hk. rewrite HofN in Hk. cbn [mbind result_bind] in Hk.
    assert (2 ^ (1074 + 1074) = 2 * 2 ^ (1074 + 1074 - 1)) as Hdouble
      by (rewrite <- Z.pow_succ_r by lia; f_equal; lia).
    assert (2 ^ (1074 + 1074 - 1) = 2 ^ 1074 * 2 ^ (1074 - 1)) as Hhalf
      by (rewrite <- pow2_split by lia; f_equal; lia).
    assert (0 < 2 ^ (1074 + 1074 - 1)) as HP by (apply pow2_pos; lia).
    destruct (mul_to_int 1074 mN eN m e (-1) 0 (N * 2 ^ (1074 + 1074 - 1)))
      as (k' & Hk' & _ & Hkhi); [lia|lia|lia|lia|lia|..].
    + apply Z.divide_0_r.
    + replace (-1 + (1074 + 1074)) with (1074 + 1074 - 1) by lia. apply Z.divide_factor_r.
    + rewrite HmN. split; [lia|]. rewrite Hhalf.
      transitivity (N * 2 ^ 1074 * 2 ^ (1074 - 1)); [|lia].
      apply Z.mul_le_mono_nonneg_l; lia.
    + replace (-1 + 53 + (1074 + 1074)) with (53 + (1074 + 1074 - 1)) by lia.
      rewrite (pow2_split 53) by lia. apply Z.mul_lt_mono_pos_r; [done|]. lia.
    + rewrite Hk in Hk'. apply (inj Ok) in Hk' as <-.
      set (r := mag _ _ mod _) in *.
      assert (0 ≤ r) as Hr by (apply Z.mod_pos_bound; apply pow2_pos; lia).
      rewrite Hdouble in Hkhi.
      apply (Z.mul_le_mono_pos_r _ _ (2 ^ (1074 + 1074 - 1))); [done|]. lia.
  - (* one half *)
    rewrite Heq. split; intros [=].
  - (* above one half *)
    split; [intros Hlt; exfalso|intros _].
    { apply (ltb_valid_pos 1074) in Hlt; [|lia|done|reflexivity].
      change (Z.pos 4503599627370496) with (2 ^ 52) in Hlt.
      rewrite <- pow2_split in Hlt by lia.
      replace (52 + (-53 + 1074)) with (1074 - 1) in Hlt by lia. lia. }
    cbn [floor_exact_product cond_Zopp] in Hfl.
    destruct (Z.leb_spec 0 e) as [|_]; [lia|].
    set (D := 2 ^ (- e)) in *.
    assert (0 < D) as HD by (apply pow2_pos; lia).
    assert (2 ^ 1074 = D * 2 ^ (e + 1074)) as HDS
      by (unfold D; rewrite <- pow2_split by lia; f_equal; lia).
    assert (2 ^ 1074 = 2 * 2 ^ (1074 - 1)) as Hdouble
      by (rewrite <- Z.pow_succ_r by lia; f_equal; lia).
    assert (D < 2 * Z.pos m) as Hm.
    { apply (Z.mul_lt_mono_pos_r (2 ^ (e + 1074))); [done|]. lia. }
    pose proof (Z.div_mod (N * Z.pos m) D ltac:(lia)) as Hdm.
    pose proof (Z.mod_pos_bound (N * Z.pos m) D HD) as Hmod.
    set (q := N * Z.pos m / D) in *.
    assert (N * D ≤ 2 * (N * Z.pos m)) as HND by nia.
    assert (N * D < (2 * q + 2) * D) as Hlt' by lia.
    assert (N < 2 * q + 2) by (apply (Z.mul_lt_mono_pos_r D); done).
    lia.
Qed.

(** ** The split *)

(** The constructor on a fraction: it returns, and the train count is the
    floor of the float product, between 0 and the number of images. *)
Lemma init_fraction root f hs ws cs fs h :
  Float.valid f = true →
  Float.leb Float.zero f = true → Float.leb f Float.one = true →
  Z.of_nat (length (glob_star_star (Path root) fs)) < 2 ^ 53 →
  ∃ self h1 product,
    __init__ root f hs ws cs fs h = Ok (self, h1) ∧
    _image_paths self = glob_star_star (Path root) fs ∧
    Float.int_mul (Z.of_nat (length (glob_star_star (Path root) fs))) f = Ok product ∧
    _num_train_images self = Float.floor product ∧
    0 ≤ _num_train_images self ≤ Z.of_nat (length (glob_star_star (Path root) fs)).
Proof.
  intros Hvalid H0 H1 HN.
  destruct (num_train_fraction (Z.of_nat (length (glob_star_star (Path root) fs))) f)
    as (product & k & Hproduct & Hk & Hfloor & Hrange); [done|done|done|lia|].
  assert (Float.int_mul (Z.of_nat (length (glob_star_star (Path root) fs))) f
          ≫= Float.to_int = Ok k) as Hnum by (by rewrite Hproduct).
  eexists _, _, product. split; [exact (init_Ok root f hs ws cs fs h k Hnum)|].
  cbn [_image_paths _num_train_images]. split_and!; [done|done|lia|lia|lia].
Qed.

(** C1, as stated, fails. The count is [int] of the rounded product: with
    three images and the float nearest to one Float.third the product rounds up
    to 1.0 and one image is taken for training, while the floor of the
    exact product is 0. And the constructor takes any float for a fraction:
    with 2.0 the count is 6 for 3 images, all of which go to the train
    dataset. *)
Lemma num_train_is_not_the_exact_floor :
  (Float.valid Float.third = true ∧
   Float.leb Float.zero Float.third = true ∧ Float.leb Float.third Float.one = true ∧
   floor_exact_product 3 Float.third = 0 ∧
   ∃ self h1,
     __init__ "catsdogs" Float.third 256 256 3 catsdogs ∅ = Ok (self, h1) ∧
     _num_train_images self = 1) ∧
  (∃ self h1 train info h2,
     __init__ "catsdogs" Float.two 256 256 3 catsdogs ∅ = Ok (self, h1) ∧
     _num_train_images self = 6 ∧
     load self catsdogs h1 = Ok (((train, []), info), h2) ∧
     length train = 3%nat).
Proof.
  split.
  - split_and!; [reflexivity..|]. eexists _, _. split; reflexivity.
  - eexists _, _, _, _, _. split_and!; reflexivity.
Qed.

(** C1, amended. For a fraction [f] between 0 and 1 and a tree with [N]
    enumerated images, at least one, the constructor and [load] return.
    [num_train] is the floor of the float product [N * f], which is
    [floor(N * f)] of the exact product or, when the float product rounds up
    to an integer, one more; it never exceeds the ceiling of the exact
    product. The train dataset holds the images at positions
    [0, num_train) of the enumeration, in order, the validation dataset
    those at positions [num_train, N), and [num_train + num_valid = N]. *)
Theorem split_by_position root f hs ws cs fs h
    (Hvalid : Float.valid f = true)
    (Hlow : Float.leb Float.zero f = true)
    (Hhigh : Float.leb f Float.one = true)
    (Hsize : Z.of_nat (length (glob_star_star (Path root) fs)) < 2 ^ 53)
    (Himages : glob_star_star (Path root) fs ≠ []) :
  ∃ self h1 product train valid info h2,
    __init__ root f hs ws cs fs h = Ok (self, h1) ∧
    Float.int_mul (Z.of_nat (length (glob_star_star (Path root) fs))) f = Ok product ∧
    _num_train_images self = Float.floor product ∧
    floor_exact_product (Z.of_nat (length (glob_star_star (Path root) fs))) f
      ≤ _num_train_images self
      ≤ ceil_exact_product (Z.of_nat (length (glob_star_star (Path root) fs))) f ∧
    _num_train_images self
      ≤ floor_exact_product (Z.of_nat (length (glob_star_star (Path root) fs))) f + 1 ∧
    load self fs h1 = Ok (((train, valid), info), h2) ∧
    (λ x, source (image x)) <$> train
      = firstn (Z.to_nat (_num_train_images self)) (glob_star_star (Path root) fs) ∧
    (λ x, source (image x)) <$> valid
      = skipn (Z.to_nat (_num_train_images self)) (glob_star_star (Path root) fs) ∧
    Z.of_nat (length train) = _num_train_images self ∧
    _num_train_images self + Z.of_nat (length valid)
      = Z.of_nat (length (glob_star_star (Path root) fs)).
Proof.
  destruct (init_fraction root f hs ws cs fs h Hvalid Hlow Hhigh Hsize)
    as (self & h1 & product & Hinit & Hpaths & Hproduct & Hfloor & Hrange).
  destruct (num_train_exact (Z.of_nat (length (glob_star_star (Path root) fs))) f)
    as (k & Hk & Hexact); [done|done|done|lia|].
  pose proof (init_inv _ _ _ _ _ _ _ _ _ Hinit) as (_ & _ & Hnum & _).
  rewrite Hk in Hnum. apply (inj Ok) in Hnum as ->.
  pose proof (ceil_exact_le_succ_floor (Z.of_nat (length (glob_star_star (Path root) fs))) f)
    as Hsucc.
  destruct (load_same_snapshot _ _ _ _ _ _ _ _ _ Hinit Himages)
    as (labels & info & h2 & _ & Hlen & Hload & _).
  rewrite take_in_range, skip_in_range in Hload by lia.
  pose proof (unsplit_sources self hs ws cs labels Hlen) as Hsources.
  rewrite Hpaths in Hsources.
  eexists self, h1, product, _, _, info, h2.
  split; [exact Hinit|]. split; [exact Hproduct|]. split; [exact Hfloor|].
  split; [exact Hexact|]. split; [lia|].
  split; [exact Hload|].
  split; [by rewrite fmap_take, Hsources|].
  split; [by rewrite fmap_drop, Hsources|].
  assert (length (unsplit self hs ws cs labels)
          = length (glob_star_star (Path root) fs)) as Hfull
    by (by rewrite <- Hsources, length_fmap).
  split.
  - rewrite length_take, Hfull. lia.
  - rewrite length_drop, Hfull. lia.
Qed.

Lemma split_by_position_witness :
  ∃ self h1 product train valid info h2,
    __init__ "catsdogs" Float.f0_67 256 256 3 catsdogs ∅ = Ok (self, h1) ∧
    Float.int_mul 3 Float.f0_67 = Ok product ∧
    _num_train_images self = Float.floor product ∧
    floor_exact_product 3 Float.f0_67 ≤ _num_train_images self
      ≤ ceil_exact_product 3 Float.f0_67 ∧
    _num_train_images self ≤ floor_exact_product 3 Float.f0_67 + 1 ∧
    load self catsdogs h1 = Ok (((train, valid), info), h2) ∧
    (λ x, source (image x)) <$> train
      = firstn (Z.to_nat (_num_train_images self)) (glob_star_star (Path "catsdogs") catsdogs) ∧
    (λ x, source (image x)) <$> valid
      = skipn (Z.to_nat (_num_train_images self)) (glob_star_star (Path "catsdogs") catsdogs) ∧
    Z.of_nat (length train) = _num_train_images self ∧
    _num_train_images self + Z.of_nat (length valid) = 3.
Proof.
  apply (split_by_position "catsdogs" Float.f0_67 256 256 3 catsdogs ∅);
    [reflexivity..|vm_compute; discriminate].
Defined.

(** ** The two sources and the fraction *)

(** C10, as stated, fails: the directory branch of the driver takes no
    image at all. Its call of the loader raises (the keyword
    [output_label_dict_path] is not a parameter), whatever the fraction; the
    loader called with the path and the fraction alone would take 2 of the 3
    images. *)
Lemma directory_branch_takes_no_images :
  main "/repo/scripts" None (Some "catsdogs") Float.f0_67 "SimpleCNN" catsdogs
  = ([OriginalDatasetLoader_call
        [Str "catsdogs"; Flt Float.f0_67]
        [("output_label_dict_path", Str "/repo/scripts/../models/SimpleCNN_label_dict.csv")]],
     Raise (TypeError "__init__() got an unexpected keyword argument 'output_label_dict_path'")) ∧
  ∃ self h1,
    new_OriginalDatasetLoader [Str "catsdogs"; Flt Float.f0_67] [] catsdogs ∅ = Ok (self, h1) ∧
    _num_train_images self = 2.
Proof. split; [reflexivity|]. eexists _, _. split; reflexivity. Qed.

(** C10, amended. For one [valid_per_train] value [v] between 0 and 1, the
    named-benchmark branch of the driver asks the catalogue for the first
    [int((1 - v) * 100)] percent as train data, while the loader, called
    with the path and [v] alone, takes the first [int(N * v)] of [N] images:
    the floor of the exact product or one more. Below one half the loader
    takes at most half of the images and the catalogue gives at least 50
    percent; above one half the loader takes at least half of the images
    (one less for the flooring) and the catalogue gives at most 49 percent.
    On 100 images the two train counts are on opposite sides of 50 and equal
    only for [v = 0.5]. *)
Theorem sources_split_complementary v
    (Hvalid : Float.valid v = true)
    (Hlow : Float.leb Float.zero v = true)
    (Hhigh : Float.leb v Float.one = true) :
  ∃ ratio,
    train_ratio v = Ok ratio ∧ 0 ≤ ratio ≤ 100 ∧
    (∀ exe_dir name original_dataset_path model_type fs,
       name ≠ "" →
       main exe_dir (Some name) original_dataset_path v model_type fs
       = ([tfds_load name ["train[:" +:+ pretty ratio +:+ "%]";
                           "train[" +:+ pretty ratio +:+ "%:]"]],
          Ok (from_catalogue name ["train[:" +:+ pretty ratio +:+ "%]";
                                   "train[" +:+ pretty ratio +:+ "%:]"]))) ∧
    (∀ dataset_path fs h N,
       N = Z.of_nat (length (glob_star_star (Path dataset_path) fs)) → N < 2 ^ 53 →
       ∃ self h1,
         new_OriginalDatasetLoader [Str dataset_path; Flt v] [] fs h = Ok (self, h1) ∧
         _image_paths self = glob_star_star (Path dataset_path) fs ∧
         floor_exact_product N v ≤ _num_train_images self ≤ ceil_exact_product N v ∧
         _num_train_images self ≤ floor_exact_product N v + 1 ∧
         (Float.ltb v Float.half = true →
            2 * _num_train_images self ≤ N ∧ 50 ≤ ratio) ∧
         (Float.ltb Float.half v = true →
            N ≤ 2 * _num_train_images self + 1 ∧ ratio ≤ 49) ∧
         (N = 100 →
            (Float.ltb v Float.half = true → _num_train_images self ≤ 49) ∧
            (Float.ltb Float.half v = true → 50 ≤ _num_train_images self) ∧
            (ratio = _num_train_images self ↔ v = Float.half))).
Proof.
  destruct (counts_complementary v Hvalid Hlow Hhigh)
    as (ratio & k100 & Hratio & Hk100 & Hrb & Hkb & Hbelow & Habove & Heq).
  exists ratio. split; [exact Hratio|]. split; [exact Hrb|]. split.
  - intros exe_dir name path model_type fs Hname. unfold main. rewrite Hratio.
    unfold truthy. by rewrite bool_decide_eq_true_2.
  - intros dataset_path fs h N -> Hsize.
    destruct (num_train_halves (Z.of_nat (length (glob_star_star (Path dataset_path) fs))) v)
      as (k & Hk & Hexact & Hb & Ha); [done|done|done|lia|].
    pose proof (ceil_exact_le_succ_floor
                  (Z.of_nat (length (glob_star_star (Path dataset_path) fs))) v) as Hsucc.
    rewrite new_OriginalDatasetLoader_positional.
    eexists _, _. split; [exact (init_Ok dataset_path v 256 256 3 fs h k Hk)|].
    cbn [_image_paths _num_train_images].
    split; [done|]. split; [done|]. split; [lia|].
    split; [intros Hlt; split; [by apply Hb | by apply Hbelow]|].
    split; [intros Hgt; split; [by apply Ha | by apply Habove]|].
    intros H100. rewrite H100 in Hk. rewrite Hk100 in Hk. apply (inj Ok) in Hk as <-.
    split; [intros Hlt; by apply Hbelow|]. split; [intros Hgt; by apply Habove|done].
Qed.

Lemma sources_split_complementary_witness :
  ∃ ratio,
    train_ratio Float.f0_2 = Ok ratio ∧ 0 ≤ ratio ≤ 100 ∧
    main "/repo/scripts" (Some "mnist") None Float.f0_2 "SimpleCNN" []
    = ([tfds_load "mnist" ["train[:" +:+ pretty ratio +:+ "%]";
                           "train[" +:+ pretty ratio +:+ "%:]"]],
       Ok (from_catalogue "mnist" ["train[:" +:+ pretty ratio +:+ "%]";
                                   "train[" +:+ pretty ratio +:+ "%:]"])) ∧
    ∃ self h1,
      new_OriginalDatasetLoader [Str "catsdogs"; Flt Float.f0_2] [] catsdogs ∅ = Ok (self, h1) ∧
      floor_exact_product 3 Float.f0_2 ≤ _num_train_images self
        ≤ ceil_exact_product 3 Float.f0_2 ∧
      2 * _num_train_images self ≤ 3 ∧ 50 ≤ ratio.
Proof.
  destruct (sources_split_complementary Float.f0_2) as (ratio & Hratio & Hrb & Hmain & Hloader);
    [reflexivity..|].
  exists ratio. split; [exact Hratio|]. split; [exact Hrb|].
  split; [apply Hmain; discriminate|].
  destruct (Hloader "catsdogs" catsdogs ∅ 3) as (self & h1 & Hnew & _ & Hexact & _ & Hb & _);
    [reflexivity|reflexivity|].
  exists self, h1. split; [exact Hnew|]. split; [exact Hexact|]. apply Hb. reflexivity.
Defined.

(** ** Outside the unit interval

    The constructor accepts any float. Above 1 the train count exceeds the
    number of images, and below 0 [int] rounds toward zero and [take] with a
    negative count keeps everything. *)

Example split_with_fraction_two :
  ∃ self h1 info h2,
    __init__ "catsdogs" Float.two 256 256 3 catsdogs ∅ = Ok (self, h1) ∧
    _num_train_images self = 6 ∧
    load self catsdogs h1
      = Ok (((unsplit catsdogs_loader 256 256 3 [1; 0; 0], []), info), h2).
Proof. eexists _, _, _, _. split_and!; reflexivity. Qed.

Example split_with_negative_fraction :
  ∃ self h1 product info h2,
    __init__ "catsdogs" Float.neg_half 256 256 3 catsdogs ∅ = Ok (self, h1) ∧
    _num_train_images self = -1 ∧
    Float.int_mul 3 Float.neg_half = Ok product ∧ Float.floor product = -2 ∧
    load self catsdogs h1
      = Ok (((unsplit catsdogs_loader 256 256 3 [1; 0; 0], []), info), h2).
Proof. eexists _, _, _, _, _. split_and!; reflexivity. Qed.

Example empty_root_with_nan :
  __init__ "catsdogs" Float.nan 256 256 3 [] ∅
  = Raise (ValueError "cannot convert float NaN to integer").
Proof. reflexivity. Qed.

(** * Further properties of the loader *)

(** ** What [load] returns, element by element *)

Lemma load_examples self fs h train valid info h2 :
  load self fs h = Ok (((train, valid), info), h2) →
  ∃ hs ws cs labels,
    image_labels self fs = Ok labels ∧
    length labels = length (_image_paths self) ∧
    train = Dataset.take (_num_train_images self) (unsplit self hs ws cs labels) ∧
    valid = Dataset.skip (_num_train_images self) (unsplit self hs ws cs labels) ∧
    train ++ valid = unsplit self hs ws cs labels ∧
    Heap.deref h (_info self) !! "hight_size" = Some hs ∧
    Heap.deref h (_info self) !! "width_size" = Some ws ∧
    Heap.deref h (_info self) !! "channel_size" = Some cs ∧
    Heap.deref h2 info = <["num_classes" := len_set labels]> (Heap.deref h (_info self)).
Proof.
  intros Hload.
  destruct (load_inv _ _ _ _ _ _ Hload) as (hs & ws & cs & labels & Hc & Hh & Hw & Hl).
  destruct (load_fresh_record _ _ _ _ _ _ Hload)
    as (hs' & ws' & cs' & labels' & Hl' & _ & Hself & Hcopy & Hc' & Hh' & Hw' & Hres).
  rewrite Hl in Hl'. apply (inj Ok) in Hl' as <-.
  rewrite Hself in Hc', Hh', Hw'. rewrite lookup_insert_ne in Hc', Hh', Hw' by done.
  rewrite Hc in Hc'. rewrite Hh in Hh'. rewrite Hw in Hw'.
  apply (inj Some) in Hc' as <-. apply (inj Some) in Hh' as <-. apply (inj Some) in Hw' as <-.
  apply (f_equal fst) in Hres as Htrain. apply (f_equal snd) in Hres as Hvalid.
  cbn [fst snd] in Htrain, Hvalid.
  exists hs, ws, cs, labels.
  assert (length labels = length (_image_paths self)) as Hlen.
  { apply image_labels_inv in Hl. symmetry. by eapply Forall2_length. }
  split_and!; [done|done|done|done| |done|done|done|].
  - rewrite Htrain, Hvalid. apply take_skip.
  - by rewrite Hcopy, Hself.
Qed.

Lemma unsplit_lookup self hs ws cs labels i x :
  unsplit self hs ws cs labels !! i = Some x ↔
  ∃ p l, _image_paths self !! i = Some p ∧ labels !! i = Some l ∧
         x = {| image := {| source := p; height := hs; width := ws; channels := cs |};
                label := l |}.
Proof.
  unfold unsplit, Dataset.zip_map. rewrite lookup_zip_with_Some. split.
  - intros (t & l & -> & Ht & Hl). rewrite list_lookup_fmap in Ht.
    destruct (_image_paths self !! i) as [p|] eqn:Hp; [|done].
    cbn in Ht. apply (inj Some) in Ht as <-. eauto.
  - intros (p & l & Hp & Hl & ->). eexists _, l. split; [done|].
    rewrite list_lookup_fmap, Hp. done.
Qed.

(** Every returned example is an enumerated image, decoded to the shape
    kept in [_info], with the vocabulary index of its parent directory. *)
Lemma loaded_example self fs h train valid info h2 x :
  load self fs h = Ok (((train, valid), info), h2) →
  x ∈ train ++ valid →
  source (image x) ∈ _image_paths self ∧
  label_to_index self fs !! name (parent (source (image x))) = Some (label x) ∧
  Heap.deref h (_info self) !! "hight_size" = Some (height (image x)) ∧
  Heap.deref h (_info self) !! "width_size" = Some (width (image x)) ∧
  Heap.deref h (_info self) !! "channel_size" = Some (channels (image x)).
Proof.
  intros (hs & ws & cs & labels & Hl & Hlen & _ & _ & Hall & Hh & Hw & Hc & _)%load_examples.
  rewrite Hall. intros [i Hi]%list_elem_of_lookup.
  apply unsplit_lookup in Hi as (p & l & Hp & Hli & ->). cbn.
  apply image_labels_inv in Hl.
  destruct (Forall2_lookup_l _ _ _ i _ Hl Hp) as (l' & Hl' & Hlk).
  rewrite Hli in Hl'. apply (inj Some) in Hl' as <-.
  split_and!; [by eapply list_elem_of_lookup_2|done..].
Qed.

(** ** The split for any stored count *)

(** X1. Whatever count the constructor stored, [load] neither loses,
    duplicates nor reorders an image: the train dataset followed by the
    validation dataset is the whole enumeration. A count inside
    [0, N] is the size of the train dataset; a negative count, or one
    of [N] or more, puts every image in the train dataset and leaves the
    validation dataset empty. *)
Theorem split_covers_enumeration self fs h train valid info h2
    (Hload : load self fs h = Ok (((train, valid), info), h2)) :
  (λ x, source (image x)) <$> (train ++ valid) = _image_paths self ∧
  (0 ≤ _num_train_images self ≤ Z.of_nat (length (_image_paths self)) →
   Z.of_nat (length train) = _num_train_images self) ∧
  (_num_train_images self < 0 ∨
   Z.of_nat (length (_image_paths self)) ≤ _num_train_images self →
   valid = [] ∧ (λ x, source (image x)) <$> train = _image_paths self).
Proof.
  destruct (load_examples _ _ _ _ _ _ _ Hload)
    as (hs & ws & cs & labels & _ & Hlen & Htrain & Hvalid & Hall & _).
  pose proof (unsplit_sources self hs ws cs labels Hlen) as Hsources.
  pose proof (unsplit_length self hs ws cs labels Hlen) as Hfull.
  split; [by rewrite Hall|]. split.
  - intros Hrange. rewrite Htrain, take_in_range, length_take, Hfull by lia. lia.
  - intros Hout.
    assert (valid = []) as Hnil.
    { rewrite Hvalid. unfold Dataset.skip.
      destruct (Z.ltb_spec (_num_train_images self) 0) as [|Hge]; [done|].
      apply skipn_all2. rewrite Hfull. lia. }
    split; [done|]. rewrite Hnil, app_nil_r in Hall. by rewrite Hall.
Qed.

Lemma split_covers_enumeration_witness :
  ∃ train,
    (λ x, source (image x)) <$> train = _image_paths catsdogs_loader ∧
    load {| _data_root := ["catsdogs"]; _image_paths := _image_paths catsdogs_loader;
            _num_train_images := 6; _info := 1%positive |} catsdogs catsdogs_heap
    = Ok (((train, []), 2%positive),
          <[2%positive := <["num_classes" := 2]> (initial_info 256 256 3)]>
            (Heap.update catsdogs_heap 1%positive "num_classes" 2)).
Proof.
  eexists. split; [|vm_compute; reflexivity].
  refine (proj2 (proj2 (proj2 (split_covers_enumeration
            {| _data_root := ["catsdogs"]; _image_paths := _image_paths catsdogs_loader;
               _num_train_images := 6; _info := 1%positive |}
            catsdogs catsdogs_heap _ [] _ _ _)) _)).
  - vm_compute. reflexivity.
  - right. vm_compute. discriminate.
Defined.

(** ** Labels and directories *)

(** X2. Two returned examples carry the same label exactly when their
    images lie in directories of the same name. *)
Theorem same_label_iff_same_directory self fs h train valid info h2 x y
    (Hload : load self fs h = Ok (((train, valid), info), h2))
    (Hx : x ∈ train ++ valid) (Hy : y ∈ train ++ valid) :
  label x = label y ↔
  name (parent (source (image x))) = name (parent (source (image y))).
Proof.
  destruct (loaded_example _ _ _ _ _ _ _ x Hload Hx) as (_ & Hlx & _).
  destruct (loaded_example _ _ _ _ _ _ _ y Hload Hy) as (_ & Hly & _).
  split.
  - intros Heq. rewrite Heq in Hlx. by eapply label_to_index_inj.
  - intros Heq. rewrite Heq, Hly in Hlx. by apply (inj Some) in Hlx.
Qed.

Lemma same_label_iff_same_directory_witness :
  label cat_a = label cat_b ↔
  name (parent (source (image cat_a))) = name (parent (source (image cat_b))).
Proof.
  apply (same_label_iff_same_directory catsdogs_loader catsdogs catsdogs_heap
           (Dataset.take 2 (unsplit catsdogs_loader 256 256 3 [1; 0; 0]))
           (Dataset.skip 2 (unsplit catsdogs_loader 256 256 3 [1; 0; 0]))
           2%positive catsdogs_loaded cat_a cat_b).
  - vm_compute. reflexivity.
  - vm_compute. repeat constructor.
  - vm_compute. repeat constructor.
Defined.

(** X3. A label decodes back to the directory of its image: it is a
    position in the sorted list of label names, and the name at that position
    is the name of the image's parent directory. *)
Theorem label_decodes_to_directory self fs h train valid info h2 x
    (Hload : load self fs h = Ok (((train, valid), info), h2))
    (Hx : x ∈ train ++ valid) :
  0 ≤ label x < Z.of_nat (length (label_names self fs)) ∧
  label_names self fs !! Z.to_nat (label x) = Some (name (parent (source (image x)))).
Proof.
  destruct (loaded_example _ _ _ _ _ _ _ x Hload Hx) as (_ & Hlx & _).
  apply label_to_index_Some in Hlx as (j & Hj & Hname).
  rewrite Hj, Nat2Z.id. split; [|done].
  apply lookup_lt_Some in Hname. lia.
Qed.

Lemma label_decodes_to_directory_witness :
  0 ≤ label cat_b < Z.of_nat (length (label_names catsdogs_loader catsdogs)) ∧
  label_names catsdogs_loader catsdogs !! Z.to_nat (label cat_b)
  = Some (name (parent (source (image cat_b)))).
Proof.
  apply (label_decodes_to_directory catsdogs_loader catsdogs catsdogs_heap
           (Dataset.take 2 (unsplit catsdogs_loader 256 256 3 [1; 0; 0]))
           (Dataset.skip 2 (unsplit catsdogs_loader 256 256 3 [1; 0; 0]))
           2%positive catsdogs_loaded cat_b).
  - vm_compute. reflexivity.
  - vm_compute. repeat constructor.
Defined.

(** ** Counting classes *)

Lemma size_list_to_set_fmap_inj_on `{Countable A, Countable B} (g : A → B) (l : list A) :
  (∀ x y, x ∈ l → y ∈ l → g x = g y → x = y) →
  size (list_to_set (g <$> l) : gset B) = size (list_to_set l : gset A).
Proof.
  induction l as [|x l IH]; intros Hinj; [done|].
  rewrite fmap_cons, !list_to_set_cons.
  assert (size (list_to_set (g <$> l) : gset B) = size (list_to_set l : gset A)) as IH'.
  { apply IH. intros y z Hy Hz. apply Hinj; by right. }
  destruct (decide (x ∈ l)) as [Hin|Hnin].
  - assert (({[g x]} ∪ list_to_set (g <$> l) : gset B) = list_to_set (g <$> l)) as ->.
    { apply subseteq_union_1_L, singleton_subseteq_l, elem_of_list_to_set.
      apply list_elem_of_fmap. eauto. }
    assert (({[x]} ∪ list_to_set l : gset A) = list_to_set l) as ->.
    { by apply subseteq_union_1_L, singleton_subseteq_l, elem_of_list_to_set. }
    done.
  - rewrite !size_union, !size_singleton, IH'; [done| |].
    + apply disjoint_singleton_l. by rewrite elem_of_list_to_set.
    + apply disjoint_singleton_l. rewrite elem_of_list_to_set, list_elem_of_fmap.
      intros (y & Heq & Hy). apply Hnin.
      rewrite (Hinj x y); [done|by left|by right|done].
Qed.

Lemma Forall2_lookup_fmap {A B} (f : A → option B) (d : B) l k :
  Forall2 (λ x y, f x = Some y) l k → k = (λ x, default d (f x)) <$> l.
Proof.
  induction 1 as [|x y l k Hxy _ IH]; [done|]. cbn. by rewrite Hxy, <- IH.
Qed.

Lemma num_classes_parent_names self fs h train valid info h2 :
  load self fs h = Ok (((train, valid), info), h2) →
  Heap.deref h2 info !! "num_classes"
  = Some (Z.of_nat (size (list_to_set ((λ p, name (parent p)) <$> _image_paths self)
                            : gset string))).
Proof.
  intros Hload.
  destruct (load_examples _ _ _ _ _ _ _ Hload)
    as (hs & ws & cs & labels & Hl & _ & _ & _ & _ & _ & _ & _ & Hrec).
  rewrite Hrec, lookup_insert_eq. f_equal. unfold len_set. f_equal.
  apply image_labels_inv in Hl.
  pose proof Hl as Hlabels. apply (Forall2_lookup_fmap _ 0) in Hlabels.
  assert (labels = (λ n, default 0 (label_to_index self fs !! n))
                     <$> ((λ p, name (parent p)) <$> _image_paths self)) as ->
    by (rewrite <- list_fmap_compose; exact Hlabels).
  apply size_list_to_set_fmap_inj_on.
  intros n1 n2 (p1 & -> & Hp1)%list_elem_of_fmap (p2 & -> & Hp2)%list_elem_of_fmap.
  apply list_elem_of_lookup in Hp1 as [i1 Hi1]. apply list_elem_of_lookup in Hp2 as [i2 Hi2].
  destruct (Forall2_lookup_l _ _ _ _ _ Hl Hi1) as (l1 & _ & Hl1).
  destruct (Forall2_lookup_l _ _ _ _ _ Hl Hi2) as (l2 & _ & Hl2).
  rewrite Hl1, Hl2. cbn. intros <-. by eapply label_to_index_inj.
Qed.

(** X4. [num_classes] is the number of distinct parent directory names
    among the enumerated images, on whatever tree the labels were looked
    up. *)
Theorem num_classes_counts_parent_directories self fs h train valid info h2
    (Hload : load self fs h = Ok (((train, valid), info), h2)) :
  Heap.deref h2 info !! "num_classes"
  = Some (Z.of_nat (size (list_to_set ((λ p, name (parent p)) <$> _image_paths self)
                            : gset string))).
Proof. by eapply num_classes_parent_names. Qed.

Lemma num_classes_counts_parent_directories_witness :
  Heap.deref catsdogs_loaded 2%positive !! "num_classes"
  = Some (Z.of_nat (size (list_to_set ((λ p, name (parent p)) <$> _image_paths catsdogs_loader)
                            : gset string))).
Proof.
  apply (num_classes_counts_parent_directories catsdogs_loader catsdogs_emu catsdogs_heap
           (Dataset.take 2 (unsplit catsdogs_loader 256 256 3 [1; 0; 0]))
           (Dataset.skip 2 (unsplit catsdogs_loader 256 256 3 [1; 0; 0]))
           2%positive catsdogs_loaded).
  vm_compute. reflexivity.
Defined.

Lemma has_entries_spec e :
  has_entries e ↔ ∃ d c children, e = Dir d (c :: children).
Proof.
  destruct e as [n|d [|c children]]; cbn; split; try done.
  - by intros (? & ? & ? & ?).
  - by intros (? & ? & ? & ?).
  - eauto.
Qed.

Lemma parent_names_with_entries (root : path) fs :
  (list_to_set ((λ p, name (parent p)) <$> glob_star_star root fs) : gset string)
  = list_to_set (entry_name <$> filter (λ e, has_entries e) fs).
Proof.
  apply set_eq. intros n. rewrite !elem_of_list_to_set, !list_elem_of_fmap. split.
  - intros (p & -> & (d & children & c & Hd & Hc & ->)%elem_of_glob_star_star).
    rewrite parent_name_image. exists (Dir d children). split; [done|].
    apply list_elem_of_filter. split; [|done]. by destruct children; [apply elem_of_nil in Hc|].
  - intros (e & -> & [(d & c & children & ->)%has_entries_spec He]%list_elem_of_filter).
    exists (root ++ [d; c]). split; [by rewrite parent_name_image|].
    apply elem_of_glob_star_star. exists d, (c :: children), c. split_and!; [done| |done].
    by left.
Qed.

Lemma label_names_length self (fs : listing) :
  length (label_names self fs) = length (filter (λ e, is_dir e) fs).
Proof.
  rewrite label_names_sorted_dir_names, sorted_Permutation. unfold dir_names.
  by rewrite length_fmap.
Qed.

Lemma filter_has_entries_is_dir (fs : listing) :
  filter (λ e, has_entries e) fs = filter (λ e, has_entries e) (filter (λ e, is_dir e) fs).
Proof.
  rewrite list_filter_filter. apply list_filter_iff. intros e.
  split; [|by intros [? _]]. intros He. split; [done|]. by destruct e as [|? []].
Qed.

Lemma filter_all {A} (P : A → Prop) `{∀ x, Decision (P x)} (l : list A) :
  Forall P l → filter P l = l.
Proof.
  induction 1 as [|x l Hx _ IH]; [done|]. by rewrite filter_cons_True, IH.
Qed.

(** X5. On the tree the loader was built on, with at least one image
    enumerated, [num_classes] is the number of directories under the root
    that hold at least one entry. It equals
    the size of the label vocabulary exactly when no directory under the root
    is empty, and then every label is below [num_classes]. *)
Theorem num_classes_and_empty_directories root f hs ws cs fs h self h1
    (Hinit : __init__ root f hs ws cs fs h = Ok (self, h1))
    (Himages : glob_star_star (Path root) fs ≠ [])
    (Hnames : NoDup (entry_name <$> fs)) :
  ∃ train valid info h2 n,
    load self fs h1 = Ok (((train, valid), info), h2) ∧
    Heap.deref h2 info !! "num_classes" = Some n ∧
    n = Z.of_nat (length (filter (λ e, has_entries e) fs)) ∧
    (n = Z.of_nat (length (label_names self fs)) ↔
     ∀ d children, Dir d children ∈ fs → children ≠ []) ∧
    ((∀ d children, Dir d children ∈ fs → children ≠ []) →
     ∀ x, x ∈ train ++ valid → 0 ≤ label x < n).
Proof.
  destruct (load_same_snapshot _ _ _ _ _ _ _ _ _ Hinit Himages)
    as (labels & info & h2 & _ & _ & Hload & _).
  pose proof (num_classes_parent_names self fs h1 _ _ _ _ Hload) as Hn.
  apply init_inv in Hinit as (_ & Hpaths & _).
  rewrite Hpaths, parent_names_with_entries in Hn.
  rewrite size_list_to_set, length_fmap in Hn.
  2:{ eapply sublist_NoDup; [exact Hnames|]. apply fmap_sublist, sublist_filter. }
  assert (length (filter (λ e, has_entries e) fs) = length (label_names self fs) ↔
          ∀ d children, Dir d children ∈ fs → children ≠ []) as Hiff.
  { rewrite label_names_length, filter_has_entries_is_dir. split.
    - intros Heq d children Hd ->.
      assert (Dir d [] ∈ filter (λ e, is_dir e) fs) as Hin
        by (by apply list_elem_of_filter).
      pose proof (length_filter_lt (λ e, has_entries e) _ _ Hin) as Hlt.
      cbn in Hlt. specialize (Hlt (λ H, H)). lia.
    - intros Hall. f_equal. apply filter_all. apply Forall_forall.
      intros [n|d [|c children]] [Hdir Hin]%list_elem_of_filter; [done| |done].
      by destruct (Hall d [] Hin). }
  eexists _, _, info, h2, _. split; [exact Hload|]. split; [exact Hn|].
  split; [done|]. split.
  - rewrite <- Hiff. lia.
  - intros Hall x Hx.
    destruct (loaded_example _ _ _ _ _ _ _ x Hload Hx) as (_ & Hlx & _).
    apply label_to_index_Some in Hlx as (j & -> & Hname).
    apply lookup_lt_Some in Hname. apply Hiff in Hall. lia.
Qed.

Lemma num_classes_and_empty_directories_witness :
  ∃ train valid info h2,
    load catsdogs_loader catsdogs_emu catsdogs_heap = Ok (((train, valid), info), h2) ∧
    Heap.deref h2 info !! "num_classes" = Some 2 ∧
    length (label_names catsdogs_loader catsdogs_emu) = 3%nat.
Proof.
  destruct (num_classes_and_empty_directories "catsdogs" Float.f0_67 256 256 3 catsdogs_emu ∅
              catsdogs_loader catsdogs_heap)
    as (train & valid & info & h2 & n & Hload & Hn & -> & _).
  - vm_compute. reflexivity.
  - vm_compute. discriminate.
  - refine (bool_decide_unpack _ _). vm_compute. exact I.
  - exists train, valid, info, h2. split; [exact Hload|]. split; [exact Hn|].
    vm_compute. reflexivity.
Defined.

(** ** Files directly under the root *)

Lemma glob_star_star_dirs (root : path) (fs : listing) :
  glob_star_star root (filter (λ e, is_dir e) fs) = glob_star_star root fs.
Proof.
  unfold glob_star_star. induction fs as [|[n|d children] fs IH]; [done| |].
  - rewrite filter_cons_False by (cbn; tauto). by rewrite bind_cons, IH.
  - rewrite filter_cons_True by done. by rewrite !bind_cons, IH.
Qed.

Lemma dir_names_dirs (fs : listing) :
  dir_names (filter (λ e, is_dir e) fs) = dir_names fs.
Proof.
  unfold dir_names. f_equal. rewrite list_filter_filter.
  apply list_filter_iff. tauto.
Qed.

(** X6. Files that lie directly under the root (a README next to the
    label directories, say) have no effect: the constructor and [load]
    behave on a listing exactly as on its directories alone. *)
Theorem files_under_root_are_ignored root f hs ws cs (fs : listing) h :
  __init__ root f hs ws cs (filter (λ e, is_dir e) fs) h = __init__ root f hs ws cs fs h ∧
  ∀ self h', load self (filter (λ e, is_dir e) fs) h' = load self fs h'.
Proof.
  split.
  - unfold __init__. by rewrite glob_star_star_dirs.
  - intros self h'. unfold load, _load_label_ds, image_labels, label_to_index.
    by rewrite !label_names_sorted_dir_names, dir_names_dirs.
Qed.

(** ** What [load] leaves alone *)

(** X7. [load] allocates one new dictionary for the returned record, sets
    [num_classes] in [_info] to the number of distinct labels, and changes
    nothing else: every other object on the heap and every other key of
    [_info] (the three sizes in particular) is as before. *)
Theorem load_frame self fs h res info h2
    (Hload : load self fs h = Ok ((res, info), h2)) :
  (info ∉ dom h) ∧
  dom h2 = {[info]} ∪ dom h ∧
  (∀ l, l ≠ info → l ≠ _info self → h2 !! l = h !! l) ∧
  (∀ k, k ≠ "num_classes" →
        Heap.deref h2 (_info self) !! k = Heap.deref h (_info self) !! k) ∧
  (∃ labels, image_labels self fs = Ok labels ∧
             Heap.deref h2 (_info self) !! "num_classes" = Some (len_set labels)).
Proof.
  destruct (load_inv _ _ _ _ _ _ Hload) as (hs & ws & cs & labels & Hc & Hh & Hw & Hl).
  pose proof (load_Ok self fs h hs ws cs labels Hc Hh Hw Hl (load_nonempty _ _ _ _ Hload))
    as Hok.
  cbn zeta in Hok. rewrite Hok in Hload. clear Hok.
  set (h1 := Heap.update h (_info self) "num_classes" (len_set labels)) in *.
  apply (inj Ok) in Hload.
  apply (f_equal snd) in Hload as Hh2. apply (f_equal (λ r, snd (fst r))) in Hload as Hinfo.
  cbn [fst snd] in Hh2, Hinfo. subst info h2.
  assert (_info self ∈ dom h) as Hdom.
  { apply elem_of_dom. unfold Heap.deref in Hc.
    destruct (h !! _info self); [done|]. cbn [default] in Hc. by rewrite lookup_empty in Hc. }
  assert (dom h1 = dom h) as Hdom1.
  { unfold h1. rewrite dom_update. apply (anti_symm (⊆)).
    - apply union_subseteq. split; [by apply singleton_subseteq_l|done].
    - apply union_subseteq_r. }
  pose proof (is_fresh (dom h1)) as Hfresh.
  assert (fresh (dom h1) ≠ _info self) as Hne by (intros Heq; apply Hfresh; rewrite Heq, Hdom1; done).
  split_and!.
  - by rewrite <- Hdom1.
  - by rewrite dom_insert_L, Hdom1.
  - intros l Hl1 Hl2. rewrite lookup_insert_ne by done.
    unfold h1, Heap.update. by rewrite lookup_insert_ne.
  - intros k Hk. unfold Heap.deref at 1. rewrite lookup_insert_ne by done.
    fold (Heap.deref h1 (_info self)). unfold h1.
    by rewrite deref_update, lookup_insert_ne.
  - exists labels. split; [done|]. unfold Heap.deref at 1. rewrite lookup_insert_ne by done.
    fold (Heap.deref h1 (_info self)). unfold h1.
    by rewrite deref_update, lookup_insert_eq.
Qed.

Lemma load_frame_witness :
  (2%positive ∉ dom catsdogs_heap) ∧
  dom catsdogs_loaded = {[2%positive]} ∪ dom catsdogs_heap.
Proof.
  pose proof (load_frame catsdogs_loader catsdogs catsdogs_heap
                (Dataset.take 2 (unsplit catsdogs_loader 256 256 3 [1; 0; 0]),
                 Dataset.skip 2 (unsplit catsdogs_loader 256 256 3 [1; 0; 0]))
                2%positive catsdogs_loaded) as H.
  destruct H as (H1 & H2 & _).
  - vm_compute. reflexivity.
  - split; [exact H1 | exact H2].
Defined.

(** ** The order in which the root is listed *)

Lemma unsplit_fmap self hs ws cs (g : path → Z) :
  unsplit self hs ws cs (g <$> _image_paths self)
  = (λ p, {| image := {| source := p; height := hs; width := ws; channels := cs |};
             label := g p |}) <$> _image_paths self.
Proof.
  unfold unsplit, Dataset.zip_map.
  by rewrite zip_with_fmap_l, zip_with_fmap_r, zip_with_diag.
Qed.

Lemma label_to_index_Permutation self self' (fs fs' : listing) :
  fs ≡ₚ fs' → label_to_index self' fs' = label_to_index self fs.
Proof.
  intros Hperm. unfold label_to_index. rewrite !label_names_sorted_dir_names.
  rewrite (sorted_unique (dir_names fs') (dir_names fs)); [done|].
  unfold dir_names. by rewrite Hperm.
Qed.

(** A loader loads the tree it was constructed on: the labels are the
    vocabulary indices of the parent directories, in enumeration order. *)
Lemma constructed_load root f hs ws cs fs h self h1 :
  __init__ root f hs ws cs fs h = Ok (self, h1) →
  glob_star_star (Path root) fs ≠ [] →
  ∃ train valid info h2,
    load self fs h1 = Ok (((train, valid), info), h2) ∧
    train ++ valid
    = (λ p, {| image := {| source := p; height := hs; width := ws; channels := cs |};
               label := default 0 (label_to_index self fs !! name (parent p)) |})
        <$> glob_star_star (Path root) fs ∧
    Heap.deref h2 info
    = <["num_classes" :=
          len_set ((λ p, default 0 (label_to_index self fs !! name (parent p)))
                     <$> glob_star_star (Path root) fs)]> (initial_info hs ws cs).
Proof.
  intros Hinit Himages.
  destruct (init_inv _ _ _ _ _ _ _ _ _ Hinit) as (_ & Hpaths & _ & _ & Hinfo & _).
  rewrite <- Hpaths in Himages.
  destruct (image_labels_Ok self fs) as (labels & Hl & Hall).
  { intros p Hp. rewrite Hpaths in Hp. apply image_parent_is_dir in Hp.
    by apply elem_of_label_names. }
  destruct (initial_info_lookup hs ws cs) as (Hc & Hh & Hw & _).
  rewrite <- Hinfo in Hc, Hh, Hw.
  pose proof (load_Ok self fs h1 hs ws cs labels Hc Hh Hw Hl Himages) as Hok. cbn zeta in Hok.
  destruct (load self fs h1) as [[[[train valid] info] h2]|e] eqn:Hload; [|discriminate Hok].
  clear Hok. exists train, valid, info, h2. split; [done|].
  destruct (load_examples _ _ _ _ _ _ _ Hload)
    as (hs' & ws' & cs' & labels' & Hl' & _ & _ & _ & Happ & Hh' & Hw' & Hc' & Hrec).
  rewrite Hl in Hl'. apply (inj Ok) in Hl' as <-.
  rewrite Hh in Hh'. rewrite Hw in Hw'. rewrite Hc in Hc'.
  apply (inj Some) in Hc' as <-. apply (inj Some) in Hh' as <-. apply (inj Some) in Hw' as <-.
  apply (Forall2_lookup_fmap _ 0) in Hall. rewrite Hall in Happ, Hrec.
  rewrite unsplit_fmap in Happ. rewrite Hpaths in Happ, Hrec.
  split; [exact Happ|]. by rewrite Hrec, Hinfo.
Qed.

(** X8. The order in which the operating system lists the root does not
    matter for what is loaded, only for where the split falls: when at
    least one image is enumerated, on a permutation of the listing the
    constructor succeeds with the same number of training images, and
    [load] returns the same labelled examples up to order and an equal
    metadata record. *)
Theorem listing_order_is_immaterial root f hs ws cs (fs fs' : listing) h h' self h1
    (Hperm : fs ≡ₚ fs')
    (Hinit : __init__ root f hs ws cs fs h = Ok (self, h1))
    (Himages : glob_star_star (Path root) fs ≠ []) :
  ∃ train valid info h2 self' h1' train' valid' info' h2',
    load self fs h1 = Ok (((train, valid), info), h2) ∧
    __init__ root f hs ws cs fs' h' = Ok (self', h1') ∧
    load self' fs' h1' = Ok (((train', valid'), info'), h2') ∧
    _num_train_images self' = _num_train_images self ∧
    train' ++ valid' ≡ₚ train ++ valid ∧
    Heap.deref h2' info' = Heap.deref h2 info.
Proof.
  assert (glob_star_star (Path root) fs ≡ₚ glob_star_star (Path root) fs') as Hglob
    by (unfold glob_star_star; by rewrite Hperm).
  destruct (init_inv _ _ _ _ _ _ _ _ _ Hinit) as (_ & _ & Hk & _).
  rewrite Hglob in Hk.
  pose proof (init_Ok root f hs ws cs fs' h' _ Hk) as Hinit'.
  assert (glob_star_star (Path root) fs' ≠ []) as Himages'.
  { intros Hnil. rewrite Hnil in Hglob. by apply Permutation_nil_r in Hglob. }
  destruct (constructed_load _ _ _ _ _ _ _ _ _ Hinit Himages)
    as (train & valid & info & h2 & Hload & Happ & Hrec).
  destruct (constructed_load _ _ _ _ _ _ _ _ _ Hinit' Himages')
    as (train' & valid' & info' & h2' & Hload' & Happ' & Hrec').
  eexists train, valid, info, h2, _, _, train', valid', info', h2'.
  split; [exact Hload|]. split; [exact Hinit'|]. split; [exact Hload'|].
  split; [done|].
  rewrite Happ, Happ', Hrec, Hrec'.
  rewrite (label_to_index_Permutation self _ fs fs' Hperm).
  split.
  - by rewrite Hglob.
  - unfold len_set.
    by rewrite (list_to_set_perm_L (C := gset Z) _ _ (fmap_Permutation _ _ _ Hglob)).
Qed.

Lemma listing_order_is_immaterial_witness :
  ∃ train valid info h2 self' h1' train' valid' info' h2',
    load catsdogs_loader catsdogs catsdogs_heap = Ok (((train, valid), info), h2) ∧
    __init__ "catsdogs" Float.f0_67 256 256 3
             [Dir "cat" ["a.jpg"; "b.jpg"]; Dir "dog" ["c.jpg"]] ∅ = Ok (self', h1') ∧
    load self' [Dir "cat" ["a.jpg"; "b.jpg"]; Dir "dog" ["c.jpg"]] h1'
      = Ok (((train', valid'), info'), h2') ∧
    _num_train_images self' = _num_train_images catsdogs_loader ∧
    train' ++ valid' ≡ₚ train ++ valid ∧
    Heap.deref h2' info' = Heap.deref h2 info.
Proof.
  apply (listing_order_is_immaterial "catsdogs" Float.f0_67 256 256 3 catsdogs
           [Dir "cat" ["a.jpg"; "b.jpg"]; Dir "dog" ["c.jpg"]] ∅ ∅
           catsdogs_loader catsdogs_heap).
  - apply perm_swap.
  - vm_compute. reflexivity.
  - vm_compute. discriminate.
Defined.

(** ** Fractions that are not numbers, and the two ends of the range *)

Lemma of_int_length {A} (l : list A) :
  Z.of_nat (length l) < 2 ^ 53 →
  (l = [] ∧ Float.of_int (Z.of_nat (length l)) = Ok (S754_zero false)) ∨
  (l ≠ [] ∧ ∃ m e, Float.of_int (Z.of_nat (length l)) = Ok (S754_finite false m e) ∧
                   Z.pos m * 2 ^ (e + 1074) = Z.of_nat (length l) * 2 ^ 1074 ∧
                   -1074 ≤ e < 53).
Proof.
  intros HN. destruct l as [|x l]; [left; by split|right]. split; [done|].
  apply of_int_exact; [done|]. rewrite length_cons in *. lia.
Qed.

(** X9. A fraction that is NaN or infinite never constructs a loader:
    [int] raises [ValueError] on NaN, which is also the product of an
    infinite fraction and an empty enumeration, and [OverflowError] on the
    infinite product of an infinite fraction and at least one image. *)
Theorem constructor_rejects_nan_and_infinity root hs ws cs fs h s
    (HN : Z.of_nat (length (glob_star_star (Path root) fs)) < 2 ^ 53) :
  __init__ root Float.nan hs ws cs fs h
  = Raise (ValueError "cannot convert float NaN to integer") ∧
  __init__ root (S754_infinity s) hs ws cs fs h
  = if decide (glob_star_star (Path root) fs = [])
    then Raise (ValueError "cannot convert float NaN to integer")
    else Raise (OverflowError "cannot convert float infinity to integer").
Proof.
  unfold __init__, Float.int_mul. cbn zeta.
  destruct (of_int_length _ HN) as [[Hnil ->]|(Hne & m & e & -> & _)].
  - rewrite decide_True by done. by split.
  - rewrite decide_False by done. by split.
Qed.

Lemma constructor_rejects_nan_and_infinity_witness :
  __init__ "catsdogs" Float.nan 256 256 3 catsdogs ∅
  = Raise (ValueError "cannot convert float NaN to integer") ∧
  __init__ "catsdogs" (S754_infinity false) 256 256 3 catsdogs ∅
  = if decide (glob_star_star (Path "catsdogs") catsdogs = [])
    then Raise (ValueError "cannot convert float NaN to integer")
    else Raise (OverflowError "cannot convert float infinity to integer").
Proof.
  apply (constructor_rejects_nan_and_infinity "catsdogs" 256 256 3 catsdogs ∅ false).
  vm_compute. reflexivity.
Defined.

Lemma num_train_one N :
  0 ≤ N < 2 ^ 53 → Float.int_mul N Float.one ≫= Float.to_int = Ok N.
Proof.
  intros HN. destruct (Z.eq_dec N 0) as [->|HN0]; [done|].
  destruct (of_int_exact 1074 N) as (m & e & Hof & Hmag & He); [lia..|].
  unfold Float.int_mul. rewrite Hof. cbn [mbind result_bind]. unfold Float.one.
  assert (0 < 2 ^ 1074) as Hpos by (apply pow2_pos; lia).
  destruct (mul_between 1074 false m e false 4503599627370496 (-52) 0
              (N * 2 ^ (1074 + 1074)) (N * 2 ^ (1074 + 1074)))
    as (Hm & Hexp & Hr); [lia|lia|lia|lia|..].
  - rewrite Z.add_0_l. apply Z.divide_factor_r.
  - rewrite Z.add_0_l. apply Z.divide_factor_r.
  - rewrite Hmag. change (Z.pos 4503599627370496) with (2 ^ 52).
    rewrite <- (pow2_split 52 (-52 + 1074)) by lia.
    replace (52 + (-52 + 1074)) with 1074 by lia.
    rewrite <- Z.mul_assoc, <- (pow2_split 1074 1074) by lia. lia.
  - replace (0 + 53 + (1074 + 1074)) with (53 + (1074 + 1074)) by lia.
    rewrite (pow2_split 53 (1074 + 1074)) by lia.
    apply Z.mul_lt_mono_pos_r; [apply pow2_pos|]; lia.
  - cbn zeta in Hm, Hexp, Hr. set (r := Float.mul _ _) in *.
    destruct (to_int_mag (1074 + 1074) r) as [Hint _].
    + lia.
    + by destruct Hr as [->|(m' & e' & ->)].
    + by destruct Hr as [->|(m' & e' & ->)].
    + eapply exponent_in_weaken; [| |exact Hexp]; lia.
    + rewrite Hint. f_equal. assert (mag (1074 + 1074) r = N * 2 ^ (1074 + 1074)) as -> by lia.
      apply Z.div_mul, Z.pow_nonzero; lia.
Qed.

Lemma num_train_zero N s :
  0 ≤ N < 2 ^ 53 → Float.int_mul N (S754_zero s) ≫= Float.to_int = Ok 0.
Proof.
  intros HN. destruct (Z.eq_dec N 0) as [->|HN0]; [done|].
  destruct (of_int_exact 1074 N) as (m & e & Hof & _); [lia..|].
  unfold Float.int_mul. by rewrite Hof.
Qed.

(** X10. The two ends of the range of fractions, when at least one image
    is enumerated: with 1.0 every image is in the training dataset and the
    validation dataset is empty; with 0.0 (of either sign) it is the other
    way round. *)
Theorem fraction_one_and_zero root hs ws cs fs h s
    (HN : Z.of_nat (length (glob_star_star (Path root) fs)) < 2 ^ 53)
    (Himages : glob_star_star (Path root) fs ≠ []) :
  (∃ self h1 train info h2,
     __init__ root Float.one hs ws cs fs h = Ok (self, h1) ∧
     load self fs h1 = Ok (((train, []), info), h2) ∧
     (λ x, source (image x)) <$> train = glob_star_star (Path root) fs) ∧
  (∃ self h1 valid info h2,
     __init__ root (S754_zero s) hs ws cs fs h = Ok (self, h1) ∧
     load self fs h1 = Ok ((([], valid), info), h2) ∧
     (λ x, source (image x)) <$> valid = glob_star_star (Path root) fs).
Proof.
  split.
  - assert (0 ≤ Z.of_nat (length (glob_star_star (Path root) fs)) < 2 ^ 53) as HN' by lia.
    pose proof (init_Ok root Float.one hs ws cs fs h _ (num_train_one _ HN')) as Hinit.
    destruct (constructed_load _ _ _ _ _ _ _ _ _ Hinit Himages)
      as (train & valid & info & h2 & Hload & Happ & _).
    destruct (load_examples _ _ _ _ _ _ _ Hload)
      as (hs' & ws' & cs' & labels & _ & Hlen & Htrain & Hvalid & _).
    pose proof (unsplit_length _ hs' ws' cs' _ Hlen) as HU.
    cbn [_num_train_images _image_paths] in Hvalid, HU.
    rewrite skip_in_range in Hvalid by lia. rewrite Nat2Z.id, <- HU, skipn_all in Hvalid.
    subst valid. rewrite app_nil_r in Happ.
    eexists _, _, train, info, h2. split; [exact Hinit|]. split; [exact Hload|].
    rewrite Happ, <- list_fmap_compose. apply list_fmap_id.
  - assert (0 ≤ Z.of_nat (length (glob_star_star (Path root) fs)) < 2 ^ 53) as HN' by lia.
    pose proof (init_Ok root (S754_zero s) hs ws cs fs h _ (num_train_zero _ s HN')) as Hinit.
    destruct (constructed_load _ _ _ _ _ _ _ _ _ Hinit Himages)
      as (train & valid & info & h2 & Hload & Happ & _).
    destruct (load_examples _ _ _ _ _ _ _ Hload)
      as (hs' & ws' & cs' & labels & _ & _ & Htrain & _).
    cbn [_num_train_images] in Htrain. change (Dataset.take 0 ?l) with (@nil example) in Htrain.
    subst train. rewrite app_nil_l in Happ.
    eexists _, _, valid, info, h2. split; [exact Hinit|]. split; [exact Hload|].
    rewrite Happ, <- list_fmap_compose. apply list_fmap_id.
Qed.

Lemma fraction_one_and_zero_witness :
  (∃ self h1 train info h2,
     __init__ "catsdogs" Float.one 256 256 3 catsdogs ∅ = Ok (self, h1) ∧
     load self catsdogs h1 = Ok (((train, []), info), h2) ∧
     (λ x, source (image x)) <$> train = glob_star_star (Path "catsdogs") catsdogs) ∧
  (∃ self h1 valid info h2,
     __init__ "catsdogs" (S754_zero false) 256 256 3 catsdogs ∅ = Ok (self, h1) ∧
     load self catsdogs h1 = Ok ((([], valid), info), h2) ∧
     (λ x, source (image x)) <$> valid = glob_star_star (Path "catsdogs") catsdogs).
Proof.
  apply (fraction_one_and_zero "catsdogs" 256 256 3 catsdogs ∅ false).
  - vm_compute. reflexivity.
  - vm_compute. discriminate.
Defined.

(** ** Calls of the class *)

Lemma bind_keywords_unexpected func params kwargs bound k x :
  (k, x) ∈ kwargs → k ∉ params.*1 →
  ∃ msg, bind_keywords func params kwargs bound = Raise (TypeError msg).
Proof.
  intros Hin Hk. revert bound.
  induction kwargs as [|[k' v] kwargs IH]; intros bound; [by apply elem_of_nil in Hin|].
  cbn [bind_keywords]. case_bool_decide as Hk'; [|eauto].
  case_bool_decide; [eauto|].
  apply elem_of_cons in Hin as [Heq|Hin]; [|by apply IH].
  injection Heq as <- <-. done.
Qed.

Lemma bind_positional_TypeError func params args e :
  bind_positional func params args = Raise e → ∃ msg, e = TypeError msg.
Proof.
  revert params. induction args as [|a args IH]; intros [|[p d] params]; cbn; try done.
  - intros [= <-]. eauto.
  - destruct (bind_positional func params args) eqn:Hb; [done|].
    intros [= <-]. by eapply IH.
Qed.

(** X11. A call of the class with a keyword that is not a parameter of
    [__init__] raises [TypeError], whatever the other arguments are and
    wherever the keyword stands; the tree is not read and no loader is
    constructed. *)
Theorem unknown_keyword_is_a_type_error args kwargs k x fs h
    (Hin : (k, x) ∈ kwargs)
    (Hk : k ∉ __init___parameters.*1) :
  ∃ msg, new_OriginalDatasetLoader args kwargs fs h = Raise (TypeError msg).
Proof.
  unfold new_OriginalDatasetLoader, bind_arguments.
  destruct (bind_positional "__init__" __init___parameters args) as [bound|e] eqn:Hpos.
  - destruct (bind_keywords_unexpected "__init__" __init___parameters kwargs bound k x Hin Hk)
      as [msg Hmsg].
    exists msg. cbn [mbind result_bind]. by rewrite Hmsg.
  - apply bind_positional_TypeError in Hpos as [msg ->]. by exists msg.
Qed.

Lemma unknown_keyword_is_a_type_error_witness :
  ∃ msg, new_OriginalDatasetLoader [Str "catsdogs"]
           [("valid_per_train", Flt Float.f0_2); ("output_label_dict_path", Str "labels.csv")]
           catsdogs ∅
         = Raise (TypeError msg).
Proof.
  apply (unknown_keyword_is_a_type_error [Str "catsdogs"]
           [("valid_per_train", Flt Float.f0_2); ("output_label_dict_path", Str "labels.csv")]
           "output_label_dict_path" (Str "labels.csv") catsdogs ∅).
  - vm_compute. repeat constructor.
  - refine (bool_decide_unpack _ _). vm_compute. exact I.
Defined.

(** X12. A loader constructed with the two required arguments only
    decodes every image to the default shape 256 x 256 x 3, and the
    returned record reports that shape. *)
Theorem default_image_shape dataset_path v fs h self h1 train valid info h2 x
    (Hnew : new_OriginalDatasetLoader [Str dataset_path; Flt v] [] fs h = Ok (self, h1))
    (Hload : load self fs h1 = Ok (((train, valid), info), h2))
    (Hx : x ∈ train ++ valid) :
  height (image x) = 256 ∧ width (image x) = 256 ∧ channels (image x) = 3 ∧
  Heap.deref h2 info !! "hight_size" = Some 256 ∧
  Heap.deref h2 info !! "width_size" = Some 256 ∧
  Heap.deref h2 info !! "channel_size" = Some 3.
Proof.
  rewrite new_OriginalDatasetLoader_positional in Hnew.
  destruct (init_inv _ _ _ _ _ _ _ _ _ Hnew) as (_ & _ & _ & _ & Hinfo & _).
  destruct (initial_info_lookup 256 256 3) as (Hc & Hh & Hw & _). rewrite <- Hinfo in Hc, Hh, Hw.
  destruct (loaded_example _ _ _ _ _ _ _ _ Hload Hx) as (_ & _ & Hh' & Hw' & Hc').
  destruct (load_examples _ _ _ _ _ _ _ Hload)
    as (hs & ws & cs & labels & _ & _ & _ & _ & _ & _ & _ & _ & Hrec).
  rewrite Hrec, !lookup_insert_ne by done.
  rewrite Hh in Hh'. rewrite Hw in Hw'. rewrite Hc in Hc'.
  apply (inj Some) in Hh', Hw', Hc'. by split_and!.
Qed.

Lemma default_image_shape_witness :
  height (image cat_b) = 256 ∧ width (image cat_b) = 256 ∧ channels (image cat_b) = 3 ∧
  Heap.deref catsdogs_loaded 2%positive !! "hight_size" = Some 256 ∧
  Heap.deref catsdogs_loaded 2%positive !! "width_size" = Some 256 ∧
  Heap.deref catsdogs_loaded 2%positive !! "channel_size" = Some 3.
Proof.
  apply (default_image_shape "catsdogs" Float.f0_67 catsdogs ∅ catsdogs_loader catsdogs_heap
           (Dataset.take 2 (unsplit catsdogs_loader 256 256 3 [1; 0; 0]))
           (Dataset.skip 2 (unsplit catsdogs_loader 256 256 3 [1; 0; 0]))
           2%positive catsdogs_loaded cat_b).
  - vm_compute. reflexivity.
  - vm_compute. reflexivity.
  - vm_compute. repeat constructor.
Defined.
